(** * WTF analysis database: event database, trace listener and flows

    A shallow embedding of [wtf.analysis.db.EventDatabase] (with its private
    [Listener_]) and of [wtf.analysis.Flow], and the properties of the
    specification that concern them.

    Conventions of the embedding:
    - Names of event types and of properties are [string]; the text of a
      query is a list of UTF-16 code units.  A property read that finds
      nothing, in the object or behind it, gives [undefined].
    - Event times are JavaScript numbers; they are rationals here, which hold
      every finite double exactly, and the code only compares and subtracts
      them.  Counters and positions are integers.
    - Objects that the code shares by reference (zone indices, event indices,
      the summary index) live in a store and are named by their address.
    - Calls to collaborators and emitted events are recorded, in program
      order, in a journal, so that the order of effects can be stated.
    - Classes whose code is outside this development (the indices, the event
      filter, the comparator, the XPath engine) are either parameters of the
      section or small models taken from the specification; each is marked. *)

From Stdlib Require Import ZArith QArith Lqa Lia String Ascii List Bool Sorted.
From stdpp Require Import gmap strings list.

Local Open Scope Z_scope.

(** ** Event schemas and events *)

(** An argument of an event schema ([eventType.args[m]]). *)
Record ArgSchema := mkArg { arg_name : string; arg_typeName : string }.

(** [wtf.analysis.EventType]: the fields the code reads are [name], [flags]
    and [args].  The registry interns schemas, so comparing two event types
    with [==] is comparing their contents. *)
Record EventType := mkEventType {
  et_name : string;
  et_flags : Z;
  et_args : list ArgSchema
}.

#[global] Instance ArgSchema_eq_dec : EqDecision ArgSchema.
Proof. solve_decision. Defined.

#[global] Instance EventType_eq_dec : EqDecision EventType.
Proof. solve_decision. Defined.

(** A zone is known to the database by the identity of its object. *)
Definition Zone := nat.

(** The subclass of an event object: [wtf.analysis.ScopeEvent] carries the
    scope it opens in [scope], a zone event carries the zone in [value]. *)
Inductive EventClass (Scope : Type) :=
| PlainEvent
| ScopeEvent (scope : Scope)
| ZoneEvent (value : Zone).
Arguments PlainEvent {Scope}.
Arguments ScopeEvent {Scope} scope.
Arguments ZoneEvent {Scope} value.

(** [wtf.analysis.Event]. *)
Record Event (Value Scope : Type) := mkEvent {
  time : Q;
  eventType : EventType;
  args : gmap string Value;
  position : Z;
  class : EventClass Scope
}.
Arguments mkEvent {Value Scope}.
Arguments time {Value Scope}.
Arguments eventType {Value Scope}.
Arguments args {Value Scope}.
Arguments position {Value Scope}.
Arguments class {Value Scope}.

(** [e.value]: the zone of a zone event, [undefined] ([None]) otherwise. *)
Definition value {Value Scope} (e : Event Value Scope) : option Zone :=
  match class e with ZoneEvent z => Some z | _ => None end.

(** [flags & wtf.data.EventFlag.X] used as a condition: true when the
    bitwise and is not zero.  The flags are small non-negative integers, on
    which the 32-bit [&] of JavaScript is the bitwise and of integers. *)
Definition hasFlag (flag : Z) (t : EventType) : bool :=
  negb (Z.land (et_flags t) flag =? 0).

(** ** JavaScript strings *)

(** The text of a query is inspected character by character, and a
    character of a JavaScript string is a UTF-16 code unit.  Names of event
    types and of properties, which the code only compares, are [string]. *)
Definition JsString := list N.

(** The code unit of a character of the Basic Latin block, and the
    JavaScript string of a literal made of such characters. *)
Definition unit (c : ascii) : N := N_of_ascii c.
Definition str (s : string) : JsString := map unit (list_ascii_of_string s).

(** ** Regular expressions ([RegExp.prototype.test]) *)

Module RegExp.

(** The fragment of the pattern language that the query classifier uses. *)
Inductive regex :=
| Void
| Eps
| Chr (c : N)
| Dot
| Class (cs : list N)
| Seq (r1 r2 : regex)
| Alt (r1 r2 : regex)
| Star (r : regex).

(** [r+]. *)
Definition Plus (r : regex) : regex := Seq r (Star r).

(** [.] matches any character but a line terminator: line feed, carriage
    return, line separator (U+2028), paragraph separator (U+2029). *)
Definition lineTerminator (c : N) : bool :=
  ((c =? 10) || (c =? 13) || (c =? 8232) || (c =? 8233))%N.

Definition inClass (cs : list N) (c : N) : bool := existsb (N.eqb c) cs.

Fixpoint nullable (r : regex) : bool :=
  match r with
  | Void | Chr _ | Dot | Class _ => false
  | Eps | Star _ => true
  | Seq r1 r2 => nullable r1 && nullable r2
  | Alt r1 r2 => nullable r1 || nullable r2
  end.

(** What is left of [r] to match once [c] has been read. *)
Fixpoint deriv (c : N) (r : regex) : regex :=
  match r with
  | Void | Eps => Void
  | Chr c' => if (c =? c')%N then Eps else Void
  | Dot => if lineTerminator c then Void else Eps
  | Class cs => if inClass cs c then Eps else Void
  | Seq r1 r2 =>
      if nullable r1
      then Alt (Seq (deriv c r1) r2) (deriv c r2)
      else Seq (deriv c r1) r2
  | Alt r1 r2 => Alt (deriv c r1) (deriv c r2)
  | Star r' => Seq (deriv c r') (Star r')
  end.

(** Matching the whole of [s], as a pattern between [^] and [$] does
    without the [m] flag. *)
Fixpoint matchAll (r : regex) (s : JsString) : bool :=
  match s with
  | [] => nullable r
  | c :: s' => matchAll (deriv c r) s'
  end.

(** The language of a pattern. *)
Inductive matches : regex -> JsString -> Prop :=
| MEps : matches Eps []
| MChr c : matches (Chr c) [c]
| MDot c : lineTerminator c = false -> matches Dot [c]
| MClass cs c : inClass cs c = true -> matches (Class cs) [c]
| MSeq r1 r2 s1 s2 :
    matches r1 s1 -> matches r2 s2 -> matches (Seq r1 r2) (s1 ++ s2)
| MAltL r1 r2 s : matches r1 s -> matches (Alt r1 r2) s
| MAltR r1 r2 s : matches r2 s -> matches (Alt r1 r2) s
| MStar0 r : matches (Star r) []
| MStarS r s1 s2 :
    matches r s1 -> matches (Star r) s2 -> matches (Star r) (s1 ++ s2).

Lemma append_cons_inv (s1 s2 : JsString) c s :
  s1 ++ s2 = c :: s ->
  (s1 = [] /\ s2 = c :: s) \/ (exists s1', s1 = c :: s1' /\ s = s1' ++ s2).
Proof.
  destruct s1 as [|c1 s1]; simpl; [by left|].
  intros [= -> <-]. right. by exists s1.
Qed.

Lemma seq_inv r1 r2 s :
  matches (Seq r1 r2) s ->
  exists s1 s2, s = s1 ++ s2 /\ matches r1 s1 /\ matches r2 s2.
Proof. inversion 1; subst; eauto. Qed.

Lemma alt_inv r1 r2 s :
  matches (Alt r1 r2) s -> matches r1 s \/ matches r2 s.
Proof. inversion 1; subst; auto. Qed.

Lemma nullable_matches r : nullable r = true <-> matches r [].
Proof.
  split.
  - induction r; simpl; try discriminate; intros H.
    + constructor.
    + apply andb_true_iff in H as [H1 H2].
      apply (MSeq _ _ [] []); auto.
    + apply orb_true_iff in H as [H|H]; [apply MAltL|apply MAltR]; auto.
    + constructor.
  - intros H. remember (@nil N) as s eqn:Hs.
    induction H; simpl; try discriminate; auto.
    + apply app_eq_nil in Hs as [-> ->].
      by rewrite IHmatches1, IHmatches2.
    + by rewrite IHmatches.
    + rewrite IHmatches by done. apply orb_true_r.
Qed.

Lemma star_cons_inv r c s :
  matches (Star r) (c :: s) ->
  exists s1 s2, s = s1 ++ s2 /\ matches r (c :: s1) /\ matches (Star r) s2.
Proof.
  intros H. remember (Star r) as r' eqn:Hr. remember (c :: s) as cs eqn:Hcs.
  induction H; try discriminate.
  injection Hr as ->.
  apply append_cons_inv in Hcs as [[-> ->]|(s1' & -> & ->)].
  - by apply IHmatches2.
  - by exists s1', s2.
Qed.

Lemma deriv_matches r c s : matches (deriv c r) s <-> matches r (c :: s).
Proof.
  revert s. induction r; intros s; simpl.
  - split; inversion 1.
  - split; inversion 1.
  - destruct (N.eqb_spec c c0) as [->|Hne].
    + split; inversion 1; subst; constructor.
    + split; inversion 1; subst; congruence.
  - destruct (lineTerminator c) eqn:Hc.
    + split; inversion 1; subst; congruence.
    + split; inversion 1; subst; by constructor.
  - destruct (inClass cs c) eqn:Hc.
    + split; inversion 1; subst; by constructor.
    + split; inversion 1; subst; congruence.
  - assert (Hseq : matches (Seq (deriv c r1) r2) s ->
                   matches (Seq r1 r2) (c :: s)).
    { intros H. apply seq_inv in H as (s1 & s2 & -> & H1 & H2).
      apply IHr1 in H1. by apply (MSeq _ _ (c :: s1) s2). }
    split.
    + destruct (nullable r1) eqn:Hn; [|done].
      intros H. apply alt_inv in H as [H|H]; [by apply Hseq|].
      apply (MSeq _ _ [] (c :: s)); [by apply nullable_matches|by apply IHr2].
    + intros H. apply seq_inv in H as (s1 & s2 & Heq & H1 & H2).
      symmetry in Heq.
      apply append_cons_inv in Heq as [[-> ->]|(s1' & -> & ->)].
      * apply nullable_matches in H1. rewrite H1.
        apply MAltR. by apply IHr2.
      * assert (matches (Seq (deriv c r1) r2) (s1' ++ s2))
          by (constructor; [by apply IHr1|done]).
        destruct (nullable r1); [by apply MAltL|done].
  - split; intros H.
    + apply alt_inv in H as [H|H];
        [apply MAltL; by apply IHr1|apply MAltR; by apply IHr2].
    + apply alt_inv in H as [H|H];
        [apply MAltL; by apply IHr1|apply MAltR; by apply IHr2].
  - split; intros H.
    + apply seq_inv in H as (s1 & s2 & -> & H1 & H2).
      apply IHr in H1. by apply (MStarS _ (c :: s1) s2).
    + apply star_cons_inv in H as (s1 & s2 & -> & H1 & H2).
      constructor; [by apply IHr|done].
Qed.

(** The matcher decides the language. *)
Lemma matchAll_matches r s : matchAll r s = true <-> matches r s.
Proof.
  revert r; induction s as [|c s IH]; intros r; simpl.
  - apply nullable_matches.
  - rewrite IH. apply deriv_matches.
Qed.

End RegExp.

(** ** The query classifier *)

Module Classifier.
Import RegExp.

(** [s.charAt(n)]: the one-character string at [n], or the empty string. *)
Definition charAt (s : JsString) (n : nat) : JsString :=
  match s !! n with
  | Some c => [c]
  | None => []
  end.

Fixpoint indexOf_from (s : JsString) (c : N) (i : Z) : Z :=
  match s with
  | [] => -1
  | c' :: s' => if (c' =? c)%N then i else indexOf_from s' c (i + 1)
  end.

(** [s.indexOf(c)] for a one-character string [c]. *)
Definition indexOf (s : JsString) (c : N) : Z := indexOf_from s c 0.

(** The pattern of the regular-expression test in [query]: anchored at both
    ends, a slash, one or more characters ([.+]), a slash, then any number
    of the flags [g], [i], [m]. *)
Definition filterRegExp : regex :=
  Seq (Chr (unit "/"))
    (Seq (Plus Dot)
       (Seq (Chr (unit "/")) (Star (Class [unit "g"; unit "i"; unit "m"])))).

(** [re.test(s)] for a pattern anchored at both ends. *)
Definition test (re : regex) (s : JsString) : bool := matchAll re s.

(** The three branches of the classification in [query]. *)
Inductive QueryKind := Substring | Regex | XPath.

Definition classify (expr : JsString) : QueryKind :=
  if negb (bool_decide (charAt expr 0 = str "/"))
     && (indexOf expr (unit "(") =? -1)
  then Substring
  else if test filterRegExp expr then Regex
  else XPath.

(** The value of [isFilter] after the classification. *)
Definition isFilter (expr : JsString) : bool :=
  match classify expr with
  | Substring => true
  | Regex => true
  | XPath => false
  end.

(** *** The specification's reading of the three cases *)

Definition beginsWith (c : N) (s : JsString) : Prop :=
  exists rest, s = c :: rest.

Definition contains (c : N) (s : JsString) : Prop := c ∈ s.

(** [/<body>/<flags>]: a body of at least one character that stays on one
    line, between two slashes, followed by flags taken from [g], [i], [m]. *)
Definition regexLiteral (s : JsString) : Prop :=
  exists body flags,
    s = str "/" ++ body ++ str "/" ++ flags /\
    body <> [] /\
    Forall (fun c => lineTerminator c = false) body /\
    Forall (fun c => c ∈ [unit "g"; unit "i"; unit "m"]) flags.

Lemma charAt_0_slash s :
  bool_decide (charAt s 0 = str "/") = true <-> beginsWith (unit "/") s.
Proof.
  rewrite bool_decide_eq_true. destruct s as [|c s]; unfold charAt; simpl.
  - split; [discriminate|]. by intros [rest Hrest].
  - split.
    + intros [= ->]. by exists s.
    + by intros [rest [= -> _]].
Qed.

Lemma indexOf_from_none s c i :
  0 <= i -> indexOf_from s c i = -1 <-> ~ contains c s.
Proof.
  unfold contains.
  revert i; induction s as [|c' s IH]; intros i Hi; simpl.
  - split; [|done]. intros _ H. by apply elem_of_nil in H.
  - destruct (N.eqb_spec c' c) as [->|Hne].
    + split; [lia|]. intros H. exfalso. apply H. left.
    + rewrite IH by lia. rewrite elem_of_cons. split.
      * intros H [Heq|Hin]; [congruence|auto].
      * intros H Hin. apply H. by right.
Qed.

Lemma indexOf_none s c : (indexOf s c =? -1) = true <-> ~ contains c s.
Proof. rewrite Z.eqb_eq. by apply indexOf_from_none. Qed.

Lemma inClass_elem cs c : inClass cs c = true <-> c ∈ cs.
Proof.
  unfold inClass. rewrite existsb_exists. split.
  - intros (x & Hx & Heq). apply N.eqb_eq in Heq as ->.
    by apply list_elem_of_In.
  - intros H. exists c. split; [by apply list_elem_of_In|apply N.eqb_refl].
Qed.

(** A starred pattern whose body matches single characters matches the
    strings made of such characters. *)
Lemma star_of_chars r (P : N -> Prop) s :
  (forall s', matches r s' <-> exists c, s' = [c] /\ P c) ->
  matches (Star r) s <-> Forall P s.
Proof.
  intros Hr. split.
  - intros H. remember (Star r) as r' eqn:Heq.
    induction H; try discriminate; [constructor|].
    injection Heq as ->. apply Hr in H as (c & -> & Hc).
    simpl. constructor; [done|auto].
  - induction s as [|c s IH]; simpl; intros H; [constructor|].
    apply Forall_cons in H as [Hc Hs].
    apply (MStarS r [c] s); [|auto].
    apply Hr. by exists c.
Qed.

Lemma matches_Dot s :
  matches Dot s <-> exists c, s = [c] /\ lineTerminator c = false.
Proof.
  split; [inversion 1; subst; eauto|]. intros (c & -> & Hc). by constructor.
Qed.

Lemma matches_Class cs s :
  matches (Class cs) s <-> exists c, s = [c] /\ c ∈ cs.
Proof.
  split.
  - inversion 1; subst. eexists; split; [done|]. by apply inClass_elem.
  - intros (c & -> & Hc). constructor. by apply inClass_elem.
Qed.

Lemma matches_Plus_Dot s :
  matches (Plus Dot) s <->
  s <> [] /\ Forall (fun c => lineTerminator c = false) s.
Proof.
  unfold Plus. split.
  - intros H. apply seq_inv in H as (s1 & s2 & -> & H1 & H2).
    apply matches_Dot in H1 as (c & -> & Hc).
    apply (star_of_chars _ _ _ matches_Dot) in H2.
    split; [done|]. simpl. by constructor.
  - intros [Hne H]. destruct s as [|c s]; [done|].
    apply Forall_cons in H as [Hc Hs].
    apply (MSeq Dot (Star Dot) [c] s); [by constructor|].
    by apply (star_of_chars _ _ _ matches_Dot).
Qed.

Lemma matches_Chr c s : matches (Chr c) s <-> s = [c].
Proof. split; [by inversion 1|]. intros ->. constructor. Qed.

(** The pattern of the classifier matches the regular-expression literals. *)
Lemma test_filterRegExp s : test filterRegExp s = true <-> regexLiteral s.
Proof.
  unfold test. rewrite matchAll_matches. unfold filterRegExp, regexLiteral.
  split.
  - intros H.
    apply seq_inv in H as (s1 & s' & -> & H1 & H).
    apply seq_inv in H as (body & s'' & -> & Hbody & H).
    apply seq_inv in H as (s3 & flags & -> & H3 & Hflags).
    apply matches_Chr in H1 as ->. apply matches_Chr in H3 as ->.
    apply matches_Plus_Dot in Hbody as [Hne Hbody].
    apply (star_of_chars _ _ _ (matches_Class _)) in Hflags.
    by exists body, flags.
  - intros (body & flags & -> & Hne & Hbody & Hflags).
    apply (MSeq _ _ [unit "/"]); [constructor|].
    apply MSeq; [by apply matches_Plus_Dot|].
    apply (MSeq _ _ [unit "/"]); [constructor|].
    by apply (star_of_chars _ _ _ (matches_Class _)).
Qed.

(** The classification, case by case. *)
Lemma classify_spec expr :
  let plain := ~ beginsWith (unit "/") expr /\ ~ contains (unit "(") expr in
  match classify expr with
  | Substring => plain
  | Regex => ~ plain /\ regexLiteral expr
  | XPath => ~ plain /\ ~ regexLiteral expr
  end.
Proof.
  intros plain. subst plain. unfold classify.
  destruct (negb (bool_decide (charAt expr 0 = str "/"))
            && (indexOf expr (unit "(") =? -1)) eqn:Hsub.
  - apply andb_true_iff in Hsub as [H1 H2].
    apply negb_true_iff in H1. apply indexOf_none in H2.
    split; [|done]. rewrite <- charAt_0_slash. congruence.
  - assert (Hnot : ~ (~ beginsWith (unit "/") expr /\
                      ~ contains (unit "(") expr)).
    { intros [H1 H2]. apply andb_false_iff in Hsub as [H|H].
      - apply negb_false_iff in H. by apply charAt_0_slash in H.
      - apply indexOf_none in H2. congruence. }
    destruct (test filterRegExp expr) eqn:Hre.
    + split; [done|]. by apply test_filterRegExp.
    + split; [done|]. rewrite <- test_filterRegExp. congruence.
Qed.

End Classifier.

(** ** Flows ([wtf.analysis.Flow]) *)

Module Flow.
Section Flow.
Context {Value Scope : Type}.
(** The value [undefined], and the conversion of a value to a property
    name that [data[k] = v] applies to [k]. *)
Variable undefined : Value.
Variable toPropertyKey : Value -> string.
(** [wtf.data.EventFlag.INTERNAL]. *)
Variable INTERNAL : Z.

Abbreviation Event := (Event Value Scope).

#[warnings="-register-all"] Inductive Flow := mkFlow {
  flowId_ : Z;
  parentFlow_ : option Flow;
  branchEvent_ : option Event;
  extendEvents_ : list Event;
  terminateEvent_ : option Event;
  dataEvents_ : option (list Event)
}.

(** [new wtf.analysis.Flow(flowId, parentFlow)]. *)
Definition newFlow (flowId : Z) (parentFlow : option Flow) : Flow :=
  mkFlow flowId parentFlow None [] None None.

Definition addDataEvent (e : Event) (f : Flow) : Flow :=
  mkFlow (flowId_ f) (parentFlow_ f) (branchEvent_ f) (extendEvents_ f)
    (terminateEvent_ f)
    (match dataEvents_ f with
     | None => Some [e]
     | Some es => Some (es ++ [e])
     end).

(** Whether a value is [null], and whether it is an object: what the setter
    of [__proto__] asks of the value it is given. *)
Variable isNull : Value -> bool.
Variable isObject : Value -> bool.
(** What reading a name on [Object.prototype] gives, for the names it has a
    member of: [constructor], [toString], ..., and [__proto__]. *)
Variable inherited : string -> option Value.

(** [e.args[k]]: [args] is a plain object, the map holds its own
    properties, and a name it does not hold itself is read from
    [Object.prototype]. *)
Definition getArg (e : Event) (k : string) : Value :=
  match args e !! k with
  | Some v => v
  | None => default undefined (inherited k)
  end.

(** The object [data]: its own properties and its prototype.  An object
    literal has [Object.prototype]; an assignment to [__proto__] can put
    [null] or an object value in its place. *)
Inductive Prototype :=
| ObjectPrototype
| NullPrototype
| ValuePrototype (p : Value).

Record JsObject := mkJsObject {
  own : gmap string Value;
  prototype : Prototype
}.

(** [{}]. *)
Definition emptyObject : JsObject := mkJsObject ∅ ObjectPrototype.

(** [o[k] = v] on an object that has no property [k] of its own and whose
    prototype is the object value [p]: what it does lies with the members
    of [p]. *)
Variable assignUnder : Value -> string -> Value -> JsObject -> JsObject.

(** [o[k] = v].  A property the object has is overwritten.  Otherwise the
    prototype is asked: [Object.prototype] has one setter, that of
    [__proto__], which replaces the prototype of [o] when [v] is [null] or
    an object and does nothing for any other value, and which in no case
    stores a property; every other name, and every name on an object
    without prototype, becomes a property of [o]. *)
Definition assign (k : string) (v : Value) (o : JsObject) : JsObject :=
  if bool_decide (is_Some (own o !! k))
  then mkJsObject (<[k := v]> (own o)) (prototype o)
  else
    match prototype o with
    | ObjectPrototype =>
        if bool_decide (k = "__proto__")
        then
          if isNull v then mkJsObject (own o) NullPrototype
          else if isObject v then mkJsObject (own o) (ValuePrototype v)
          else o
        else mkJsObject (<[k := v]> (own o)) ObjectPrototype
    | NullPrototype => mkJsObject (<[k := v]> (own o)) NullPrototype
    | ValuePrototype p => assignUnder p k v o
    end.

(** The inner loop of [getData], from index [m] on: [schema] is what is
    left of [e.eventType.args]. *)
Fixpoint appendArgs (e : Event) (schema : list ArgSchema)
    (data : JsObject) : JsObject :=
  match schema with
  | [] => data
  | arg :: rest =>
      appendArgs e rest (assign (arg_name arg) (getArg e (arg_name arg)) data)
  end.

(** The outer loop of [getData] over [dataEvents_]. *)
Fixpoint getData_loop (events : list Event) (data : JsObject) : JsObject :=
  match events with
  | [] => data
  | e :: rest =>
      getData_loop rest
        (if hasFlag INTERNAL (eventType e)
         then assign (toPropertyKey (getArg e "name")) (getArg e "value") data
         else appendArgs e (drop 1 (et_args (eventType e))) data)
  end.

(** [getData()]: the object [data]. *)
Definition getData (f : Flow) : JsObject :=
  match dataEvents_ f with
  | None => emptyObject
  | Some events => getData_loop events emptyObject
  end.

(** *** The specification's reading of [getData] *)

(** The data events of a flow, in insertion order. *)
Definition dataEvents (f : Flow) : list Event :=
  default [] (dataEvents_ f).

(** The key/value pairs one data event contributes. *)
Definition dataPairs (e : Event) : list (string * Value) :=
  if hasFlag INTERNAL (eventType e)
  then [(toPropertyKey (getArg e "name"), getArg e "value")]
  else map (fun a => (arg_name a, getArg e (arg_name a)))
           (tail (et_args (eventType e))).

(** Merging pairs into a map, a later pair overriding an earlier one. *)
Definition mergePairs (data : gmap string Value)
    (kvs : list (string * Value)) : gmap string Value :=
  fold_left (fun d kv => <[kv.1 := kv.2]> d) kvs data.

Definition mergeEvent (data : gmap string Value) (e : Event) :=
  mergePairs data (dataPairs e).

Definition setsKey (k : string) (e : Event) : Prop :=
  k ∈ map fst (dataPairs e).

(** The pairs give [__proto__] nothing but primitive values: no [null] and
    no object, so the prototype of [data] stays. *)
Definition primitiveProto (kvs : list (string * Value)) : Prop :=
  forall v, ("__proto__"%string, v) ∈ kvs -> isNull v = false /\ isObject v = false.

Definition keepsPrototype (e : Event) : Prop := primitiveProto (dataPairs e).

(** The assignments of a list of pairs, in order. *)
Definition assignPairs (o : JsObject) (kvs : list (string * Value)) : JsObject :=
  fold_left (fun o kv => assign kv.1 kv.2 o) kvs o.

Lemma appendArgs_assignPairs e schema data :
  appendArgs e schema data
  = assignPairs data (map (fun a => (arg_name a, getArg e (arg_name a))) schema).
Proof.
  revert data; induction schema as [|a schema IH]; intros data; [done|].
  simpl. by rewrite IH.
Qed.

Lemma getData_loop_fold events data :
  getData_loop events data
  = fold_left (fun o e => assignPairs o (dataPairs e)) events data.
Proof.
  revert data; induction events as [|e events IH]; intros data; [done|].
  simpl. rewrite IH. f_equal. unfold dataPairs.
  destruct (hasFlag INTERNAL (eventType e)); [done|].
  rewrite appendArgs_assignPairs. by destruct (et_args (eventType e)).
Qed.

Lemma mergePairs_app data kvs1 kvs2 :
  mergePairs data (kvs1 ++ kvs2) = mergePairs (mergePairs data kvs1) kvs2.
Proof. apply fold_left_app. Qed.


Lemma mergePairs_lookup_congr d1 d2 kvs k :
  d1 !! k = d2 !! k -> mergePairs d1 kvs !! k = mergePairs d2 kvs !! k.
Proof.
  revert d1 d2; induction kvs as [|[k' v'] kvs IH]; intros d1 d2 H; [done|].
  simpl. apply IH. destruct (decide (k' = k)) as [->|Hne].
  - by rewrite !lookup_insert_eq.
  - by rewrite !lookup_insert_ne.
Qed.

Lemma delete_mergePairs_insert k v d kvs :
  delete k (mergePairs (<[k := v]> d) kvs) = delete k (mergePairs d kvs).
Proof.
  apply map_eq. intros k'. destruct (decide (k = k')) as [->|Hne].
  - by rewrite !lookup_delete_eq.
  - rewrite !lookup_delete_ne by done. apply mergePairs_lookup_congr.
    by apply lookup_insert_ne.
Qed.

Lemma primitiveProto_cons kv kvs :
  primitiveProto (kv :: kvs) ->
  (kv.1 = "__proto__"%string -> isNull kv.2 = false /\ isObject kv.2 = false) /\
  primitiveProto kvs.
Proof.
  intros H. split.
  - intros Hk. apply H. destruct kv as [k v]. simpl in Hk. subst k.
    apply list_elem_of_here.
  - intros v Hv. apply H. by apply list_elem_of_further.
Qed.

(** While [__proto__] is given primitive values only, the object keeps its
    prototype, and it holds what the merge gives, but for [__proto__]. *)
Lemma assignPairs_plain o kvs :
  prototype o = ObjectPrototype ->
  own o !! "__proto__"%string = None ->
  primitiveProto kvs ->
  prototype (assignPairs o kvs) = ObjectPrototype /\
  own (assignPairs o kvs) = delete "__proto__"%string (mergePairs (own o) kvs).
Proof.
  revert o; induction kvs as [|[k v] kvs IH]; intros o Hproto Hown Hprim.
  - simpl. split; [done|]. symmetry. by apply delete_id.
  - apply primitiveProto_cons in Hprim as [Hkv Hprim]. simpl in Hkv.
    change (assignPairs o ((k, v) :: kvs))
      with (assignPairs (assign k v o) kvs).
    change (mergePairs (own o) ((k, v) :: kvs))
      with (mergePairs (<[k := v]> (own o)) kvs).
    destruct (decide (k = "__proto__"%string)) as [->|Hne].
    + destruct (Hkv eq_refl) as [Hnull Hobj].
      assert (Hsame : assign "__proto__" v o = o).
      { unfold assign. rewrite Hown, Hproto.
        rewrite bool_decide_eq_false_2 by (by intros [? ?]).
        rewrite bool_decide_eq_true_2 by done. by rewrite Hnull, Hobj. }
      rewrite Hsame, delete_mergePairs_insert. by apply IH.
    + assert (Hstored : assign k v o
                        = mkJsObject (<[k := v]> (own o)) ObjectPrototype).
      { unfold assign. rewrite Hproto.
        destruct (bool_decide (is_Some (own o !! k))); [done|].
        by rewrite bool_decide_eq_false_2. }
      rewrite Hstored. apply IH; simpl; [done| |done].
      by rewrite lookup_insert_ne.
Qed.

Lemma primitiveProto_absent kvs :
  "__proto__"%string ∉ map fst kvs -> primitiveProto kvs.
Proof.
  intros H v Hv. exfalso. apply H.
  apply list_elem_of_fmap. by exists ("__proto__"%string, v).
Qed.

Lemma fold_mergeEvent_lookup_congr d1 d2 events k :
  d1 !! k = d2 !! k ->
  fold_left mergeEvent events d1 !! k = fold_left mergeEvent events d2 !! k.
Proof.
  revert d1 d2; induction events as [|e events IH]; intros d1 d2 H; [done|].
  simpl. apply IH. by apply mergePairs_lookup_congr.
Qed.

Lemma delete_fold_mergeEvent_delete k d events :
  delete k (fold_left mergeEvent events (delete k d))
  = delete k (fold_left mergeEvent events d).
Proof.
  apply map_eq. intros k'. destruct (decide (k = k')) as [->|Hne].
  - by rewrite !lookup_delete_eq.
  - rewrite !lookup_delete_ne by done. apply fold_mergeEvent_lookup_congr.
    by apply lookup_delete_ne.
Qed.

Lemma getData_loop_plain events o :
  prototype o = ObjectPrototype ->
  own o !! "__proto__"%string = None ->
  Forall keepsPrototype events ->
  prototype (getData_loop events o) = ObjectPrototype /\
  own (getData_loop events o)
  = delete "__proto__"%string (fold_left mergeEvent events (own o)).
Proof.
  rewrite getData_loop_fold.
  revert o; induction events as [|e events IH]; intros o Hproto Hown Hall.
  - simpl. split; [done|]. symmetry. by apply delete_id.
  - apply Forall_cons in Hall as [He Hall]. cbn [fold_left].
    destruct (assignPairs_plain o (dataPairs e) Hproto Hown He) as [Hp Ho].
    destruct (IH (assignPairs o (dataPairs e))) as [Hp' Ho']; [done| |done|].
    { rewrite Ho. apply lookup_delete_eq. }
    split; [done|]. rewrite Ho', Ho. apply delete_fold_mergeEvent_delete.
Qed.

(** A flow none of whose data events gives [__proto__] an object or
    [null]. *)
Definition plain (f : Flow) : Prop := Forall keepsPrototype (dataEvents f).

Lemma getData_plain f :
  plain f ->
  prototype (getData f) = ObjectPrototype /\
  own (getData f)
  = delete "__proto__"%string (fold_left mergeEvent (dataEvents f) ∅).
Proof.
  unfold plain, getData, dataEvents. destruct (dataEvents_ f) as [events|].
  - simpl. intros H. by apply (getData_loop_plain events emptyObject).
  - intros _. simpl. by rewrite delete_empty.
Qed.

(** The same as a test. *)
Definition keepsPrototypeb (e : Event) : bool :=
  forallb (fun kv : string * Value =>
             negb (bool_decide (kv.1 = "__proto__"%string))
             || (negb (isNull kv.2) && negb (isObject kv.2)))
          (dataPairs e).

Definition plainb (f : Flow) : bool := forallb keepsPrototypeb (dataEvents f).

Lemma plainb_plain f : plainb f = true -> plain f.
Proof.
  unfold plainb, plain. rewrite forallb_forall. intros H.
  apply Forall_forall. intros e He. apply list_elem_of_In, H in He.
  unfold keepsPrototypeb in He. rewrite forallb_forall in He.
  intros v Hv. apply list_elem_of_In, He in Hv. cbn [fst snd] in Hv.
  apply orb_true_iff in Hv as [Hv|Hv].
  - apply negb_true_iff, bool_decide_eq_false in Hv. done.
  - apply andb_true_iff in Hv as [H1 H2].
    by apply negb_true_iff in H1, H2.
Qed.

(** Pairs of one event never give two values to one key. *)
Lemma dataPairs_functional e k v v' :
  (k, v) ∈ dataPairs e -> (k, v') ∈ dataPairs e -> v = v'.
Proof.
  unfold dataPairs. destruct (hasFlag INTERNAL (eventType e)).
  - rewrite !list_elem_of_singleton. congruence.
  - rewrite !list_elem_of_fmap. intros (a & Ha & _) (a' & Ha' & _).
    simpl in *. congruence.
Qed.

Lemma mergePairs_present data kvs k v :
  (k, v) ∈ kvs ->
  (forall v', (k, v') ∈ kvs -> v' = v) ->
  mergePairs data kvs !! k = Some v.
Proof.
  revert data. induction kvs as [|[k' v'] kvs IH] using rev_ind;
    intros data Hin Hfun.
  - by apply elem_of_nil in Hin.
  - rewrite mergePairs_app. simpl. destruct (decide (k' = k)) as [->|Hne].
    + rewrite lookup_insert_eq. f_equal. apply Hfun.
      apply elem_of_app. right. by apply list_elem_of_singleton.
    + rewrite lookup_insert_ne by done. apply IH.
      * apply elem_of_app in Hin as [Hin|Hin]; [done|].
        apply list_elem_of_singleton in Hin. congruence.
      * intros v'' Hv''. apply Hfun. apply elem_of_app. by left.
Qed.


(** *** C4 *)



(** *** The other methods of a flow *)

Definition getId (f : Flow) : Z := flowId_ f.
Definition getParent (f : Flow) : option Flow := parentFlow_ f.
Definition getBranchEvent (f : Flow) : option Event := branchEvent_ f.
Definition getExtendEvents (f : Flow) : list Event := extendEvents_ f.
Definition getTerminateEvent (f : Flow) : option Event := terminateEvent_ f.

Definition setBranchEvent (e : Event) (f : Flow) : Flow :=
  mkFlow (flowId_ f) (parentFlow_ f) (Some e) (extendEvents_ f)
    (terminateEvent_ f) (dataEvents_ f).

Definition addExtendEvent (e : Event) (f : Flow) : Flow :=
  mkFlow (flowId_ f) (parentFlow_ f) (branchEvent_ f) (extendEvents_ f ++ [e])
    (terminateEvent_ f) (dataEvents_ f).

Definition setTerminateEvent (e : Event) (f : Flow) : Flow :=
  mkFlow (flowId_ f) (parentFlow_ f) (branchEvent_ f) (extendEvents_ f)
    (Some e) (dataEvents_ f).

(** The calls that change a flow, and a run of them. *)
Inductive FlowCall :=
| SetBranchEvent (e : Event)
| AddExtendEvent (e : Event)
| SetTerminateEvent (e : Event)
| AddDataEvent (e : Event).

Definition call (f : Flow) (c : FlowCall) : Flow :=
  match c with
  | SetBranchEvent e => setBranchEvent e f
  | AddExtendEvent e => addExtendEvent e f
  | SetTerminateEvent e => setTerminateEvent e f
  | AddDataEvent e => addDataEvent e f
  end.

Definition branchesOf (cs : list FlowCall) : list Event :=
  omap (fun c => match c with SetBranchEvent e => Some e | _ => None end) cs.
Definition extendsOf (cs : list FlowCall) : list Event :=
  omap (fun c => match c with AddExtendEvent e => Some e | _ => None end) cs.
Definition terminatesOf (cs : list FlowCall) : list Event :=
  omap (fun c => match c with SetTerminateEvent e => Some e | _ => None end) cs.
Definition dataOf (cs : list FlowCall) : list Event :=
  omap (fun c => match c with AddDataEvent e => Some e | _ => None end) cs.

Lemma calls_from cs f :
  let f' := fold_left call cs f in
  getId f' = getId f /\
  getParent f' = getParent f /\
  getExtendEvents f' = getExtendEvents f ++ extendsOf cs /\
  getBranchEvent f' = from_option Some (getBranchEvent f) (last (branchesOf cs)) /\
  getTerminateEvent f'
  = from_option Some (getTerminateEvent f) (last (terminatesOf cs)) /\
  dataEvents f' = dataEvents f ++ dataOf cs /\
  (dataEvents_ f' = None <-> dataEvents_ f = None /\ dataOf cs = []).
Proof.
  revert f; induction cs as [|c cs IH]; intros f.
  - simpl. rewrite !app_nil_r. split_and!; try done.
    split; [by intros ?|by intros [? _]].
  - cbn [fold_left]. destruct (IH (call f c)) as (H1 & H2 & H3 & H4 & H5 & H6 & H7).
    cbn zeta in *. rewrite H1, H2, H3, H4, H5, H6, H7. clear.
    unfold branchesOf, extendsOf, terminatesOf, dataOf, dataEvents.
    destruct c; simpl; rewrite ?last_cons;
      unfold getId, getParent, getExtendEvents, getBranchEvent,
        getTerminateEvent; simpl; rewrite <- ?app_assoc;
      split_and!; try done;
      repeat match goal with
             | |- context [list_omap _ _ ?g cs] =>
                 change (list_omap _ _ g cs) with (omap g cs)
             end;
      try (by destruct (last _)).
    + by destruct (dataEvents_ f); simpl; rewrite <- ?app_assoc.
    + split; destruct (dataEvents_ f); simpl; intros [? ?]; congruence.
Qed.

(** A flow keeps what the calls gave it, whatever their interleaving: the
    extend events and the data events are the events added, in the order of
    the calls; the branch and the terminate event are those of the last
    call that set them, [null] when there was none; the id and the parent
    are those it was made with.  The list of data events stays [null] until
    the first [addDataEvent]. *)
Theorem flow_after_calls (flowId : Z) (parentFlow : option Flow)
    (cs : list FlowCall) :
  let f := fold_left call cs (newFlow flowId parentFlow) in
  getId f = flowId /\
  getParent f = parentFlow /\
  getExtendEvents f = extendsOf cs /\
  getBranchEvent f = last (branchesOf cs) /\
  getTerminateEvent f = last (terminatesOf cs) /\
  dataEvents f = dataOf cs /\
  (dataEvents_ f = None <-> dataOf cs = []).
Proof.
  destruct (calls_from cs (newFlow flowId parentFlow))
    as (H1 & H2 & H3 & H4 & H5 & H6 & H7).
  cbn zeta in *. rewrite H1, H2, H3, H4, H5, H6, H7. simpl.
  split_and!; try done.
  - by destruct (last (branchesOf cs)).
  - by destruct (last (terminatesOf cs)).
  - split; [by intros [_ ?]|by intros ?].
Qed.

(** *** The keys of the flow data *)

Lemma mergePairs_is_Some data kvs k :
  is_Some (mergePairs data kvs !! k) <-> is_Some (data !! k) \/ k ∈ map fst kvs.
Proof.
  revert data; induction kvs as [|[k' v'] kvs IH]; intros data; simpl.
  - rewrite elem_of_nil. tauto.
  - rewrite IH, elem_of_cons. destruct (decide (k' = k)) as [->|Hne].
    + rewrite lookup_insert_eq. split; [by right; left|]. intros _. by left.
    + rewrite lookup_insert_ne by done. split.
      * intros [H|H]; [by left|by right; right].
      * intros [H|[H|H]]; [by left|congruence|by right].
Qed.

Lemma fold_mergeEvent_is_Some events data k :
  is_Some (fold_left mergeEvent events data !! k) <->
  is_Some (data !! k) \/ Exists (setsKey k) events.
Proof.
  revert data; induction events as [|e events IH]; intros data; simpl.
  - rewrite Exists_nil. tauto.
  - rewrite IH, Exists_cons. unfold mergeEvent.
    rewrite mergePairs_is_Some. unfold setsKey. tauto.
Qed.

(** On a flow none of whose data events gives [__proto__] an object or
    [null], the flow data has a property under a key exactly when the key
    is not [__proto__] and one of the data events sets it: an [INTERNAL]
    event sets the key named by its [name] argument, a user-defined event
    sets the names of its schema arguments from the second on, and so never
    the name of its first argument, the flow id, unless a later argument
    bears the same name.  A flow without data events gives the empty
    object. *)
Theorem getData_keys (f : Flow) (k : string) :
  plain f ->
  (is_Some (own (getData f) !! k) <->
   k <> "__proto__"%string /\ Exists (setsKey k) (dataEvents f)) /\
  (forall e, hasFlag INTERNAL (eventType e) = true ->
     setsKey k e <-> k = toPropertyKey (getArg e "name")) /\
  (forall e, hasFlag INTERNAL (eventType e) = false ->
     setsKey k e <-> k ∈ map arg_name (drop 1 (et_args (eventType e)))) /\
  (dataEvents f = [] -> getData f = emptyObject).
Proof.
  intros Hplain. split_and!.
  - destruct (getData_plain f Hplain) as [_ ->].
    destruct (decide ("__proto__"%string = k)) as [<-|Hne].
    + rewrite lookup_delete_eq. split; [by intros [? ?]|by intros [? _]].
    + rewrite lookup_delete_ne by done.
      rewrite fold_mergeEvent_is_Some, lookup_empty. split.
      * intros [[? ?]|?]; [done|]. by split.
      * intros [_ ?]. by right.
  - intros e He. unfold setsKey, dataPairs. rewrite He. simpl.
    by rewrite list_elem_of_singleton.
  - intros e He. unfold setsKey, dataPairs. rewrite He.
    rewrite map_map. simpl. by destruct (et_args (eventType e)).
  - unfold getData, dataEvents. destruct (dataEvents_ f); simpl; [|done].
    by intros ->.
Qed.

(** A user-defined data event writes every schema argument from the second
    on, also one that the event does not carry: on a flow that keeps its
    prototype, the flow data then holds under that name, unless the name is
    [__proto__], what reading the missing argument gives, the member of
    [Object.prototype] of that name when there is one and [undefined]
    otherwise, whatever an earlier event had put there. *)
Theorem getData_missing_argument (f : Flow) (e : Event) (a : ArgSchema) :
  hasFlag INTERNAL (eventType e) = false ->
  a ∈ drop 1 (et_args (eventType e)) ->
  args e !! arg_name a = None ->
  arg_name a <> "__proto__"%string ->
  plain (addDataEvent e f) ->
  own (getData (addDataEvent e f)) !! arg_name a
  = Some (default undefined (inherited (arg_name a))).
Proof.
  intros Hflag Ha Hmissing Hname Hplain.
  destruct (getData_plain _ Hplain) as [_ ->].
  rewrite lookup_delete_ne by done.
  assert (Hevents : dataEvents (addDataEvent e f) = dataEvents f ++ [e]).
  { unfold dataEvents, addDataEvent. simpl. by destruct (dataEvents_ f). }
  rewrite Hevents, fold_left_app. simpl.
  assert (Hpair : (arg_name a, default undefined (inherited (arg_name a)))
                  ∈ dataPairs e).
  { unfold dataPairs. rewrite Hflag. apply list_elem_of_fmap.
    exists a. split; [|by destruct (et_args (eventType e))].
    unfold getArg. by rewrite Hmissing. }
  apply mergePairs_present; [done|].
  intros v' Hv'. eapply dataPairs_functional; [exact Hv'|exact Hpair].
Qed.

End Flow.
End Flow.

(** ** JavaScript numbers and arrays *)

(** [a < b] on numbers. *)
Definition Qltb (a b : Q) : bool := negb (Qle_bool b a).

(** [Number.MAX_VALUE], the largest finite double, and [Number.MIN_VALUE],
    the smallest double above zero. *)
Definition Number_MAX_VALUE : Q := inject_Z (2 ^ 1024 - 2 ^ 971).
Definition Number_MIN_VALUE : Q := 1 # (2 ^ 1074).

(** [Array.prototype.sort] with a comparator, as a stable insertion sort:
    [a] stays in front of [b] when [comparefn(a, b) <= 0]. *)
Fixpoint sort_insert {A} (comparefn : A -> A -> Q) (x : A) (l : list A) : list A :=
  match l with
  | [] => [x]
  | y :: l' =>
      if Qle_bool (comparefn x y) 0 then x :: l
      else y :: sort_insert comparefn x l'
  end.

Definition sort {A} (comparefn : A -> A -> Q) (l : list A) : list A :=
  foldr (sort_insert comparefn) [] l.

(** What a function call gives back: a value or a thrown exception. *)
Inductive JsError :=
| ThrownString (s : string)  (* [throw '...'] *)
| TypeError                  (* a property read on [null] *)
| AssertionError             (* [goog.asserts.assert] on a false condition *)
| XPathError.                (* an exception of the XPath engine *)

Inductive Completion (A : Type) :=
| Return (a : A)
| Throw (err : JsError).
Arguments Return {A} a.
Arguments Throw {A} err.

(** [goog.async.Deferred.succeed(v)]: a deferred that has already fired
    with [v]. *)
Inductive Deferred (A : Type) := succeed (v : A).
Arguments succeed {A} v.

(** ** The event database and its listener *)

Module EventDatabase.
Section EventDatabase.
Context {Value Scope ContextInfo XPathExpression XPathValue : Type}.

Abbreviation Event := (Event Value Scope).

(** [wtf.data.EventFlag.INTERNAL]. *)
Variable INTERNAL : Z.

(** [TraceListener.prototype.getEventType]: the registered event type of a
    name, [null] ([None]) when there is none. *)
Variable getEventType : string -> option EventType.

(** *** The indices *)

(** Modelled from the spec: the class [wtf.analysis.db.FrameIndex] is not
    part of this development.  Section 4.4: it holds the subset of events
    that represent a frame; [getCount] is their number. *)
Record FrameIndex := mkFrameIndex { frames : list Event }.

(** Modelled from the spec: [frameIndex.getCount()], the number of frames
    the index holds. *)
Definition getCount (f : FrameIndex) : Z := Z.of_nat (length (frames f)).

(** Modelled from the spec: the class [wtf.analysis.db.ZoneIndex] is not
    part of this development.  Section 4.5: it owns the ordered event list
    of one zone; [beginInserting] opens a mutable phase, [insertEvent]
    appends to the list, [endInserting] sorts the list by time, keeping
    insertion order among equal times, and closes the phase;
    [renumber(start)] gives the events the positions [start], [start + 1],
    ... in list order and returns the next free position.  Section 4.7: an
    index decides by itself whether it stores an event delivered to it. *)
Record ZoneIndex := mkZoneIndex {
  zone_ : option Zone;
  zi_inserting : bool;
  zi_events : list Event;
  frameIndex_ : FrameIndex
}.

(** Modelled from the spec: the class [wtf.analysis.db.EventIndex] is not
    part of this development.  Section 4.2: a time-ordered sequence of the
    events whose type name is the name of the index. *)
Record EventIndex := mkEventIndex {
  eventName_ : string;
  ei_inserting : bool;
  ei_events : list Event
}.

(** Modelled from the spec: the class [wtf.analysis.db.SummaryIndex] is not
    part of this development.  Section 4.3: first and last event time and a
    total count, kept up to date at batch boundaries. *)
Record SummaryIndex := mkSummaryIndex {
  si_inserting : bool;
  si_events : list Event
}.

(** Whether the index of a zone stores an event delivered to it, and whether
    an event is a frame of its zone: decisions of [ZoneIndex]. *)
Variable zoneStores : option Zone -> Event -> bool.
Variable isFrame : Event -> bool.

(** Modelled from the spec: the getters of the indices return what the
    index was made with ([getZone], [getEventName]) and the frame index of
    the zone ([getFrameIndex]). *)
Definition getZone (z : ZoneIndex) : option Zone := zone_ z.
Definition getFrameIndex (z : ZoneIndex) : FrameIndex := frameIndex_ z.
Definition getEventName (x : EventIndex) : string := eventName_ x.

(** Modelled from the spec: [new wtf.analysis.db.ZoneIndex(db, zone)] and
    [new wtf.analysis.db.EventIndex(eventName)] make an index that holds no
    event and is not in inserting mode. *)
Definition newZoneIndex (zone : option Zone) : ZoneIndex :=
  mkZoneIndex zone false [] (mkFrameIndex []).
Definition newEventIndex (eventName : string) : EventIndex :=
  mkEventIndex eventName false [].

(** Modelled from the spec: the order in which an index keeps its events,
    by time. *)
Definition byTime (a b : Event) : Q := time a - time b.

Definition setPosition (p : Z) (e : Event) : Event :=
  mkEvent (time e) (eventType e) (args e) p (class e).

(** Modelled from the spec: the events of a list with the positions
    [start], [start + 1], ... (section 4.5, [renumber]). *)
Fixpoint renumberEvents (start : Z) (events : list Event) : list Event :=
  match events with
  | [] => []
  | e :: rest => setPosition start e :: renumberEvents (start + 1) rest
  end.

(** Modelled from the spec: [zoneIndex.renumber(position)] gives the
    positions from [position] on to the events of the zone, in list order,
    and returns the next free position (section 4.5). *)
Definition renumber (position : Z) (z : ZoneIndex) : ZoneIndex * Z :=
  (mkZoneIndex (zone_ z) (zi_inserting z)
     (renumberEvents position (zi_events z)) (frameIndex_ z),
   position + Z.of_nat (length (zi_events z))).

(** The interface [wtf.analysis.db.IEventTarget]. *)
Class IEventTarget (T : Type) := {
  beginInserting : T -> T;
  insertEvent : Event -> T -> T;
  endInserting : T -> T
}.

(** Modelled from the spec: the three methods on the summary index, which
    sees every event (section 4.7). *)
#[local] Instance SummaryIndex_target : IEventTarget SummaryIndex := {
  beginInserting s := mkSummaryIndex true (si_events s);
  insertEvent e s := mkSummaryIndex (si_inserting s) (si_events s ++ [e]);
  endInserting s := mkSummaryIndex false (sort byTime (si_events s))
}.

(** Modelled from the spec: the three methods on a zone index (section
    4.5); what it stores and what counts as a frame is left to
    [zoneStores] and [isFrame]. *)
#[local] Instance ZoneIndex_target : IEventTarget ZoneIndex := {
  beginInserting z :=
    mkZoneIndex (zone_ z) true (zi_events z) (frameIndex_ z);
  insertEvent e z :=
    if zoneStores (zone_ z) e
    then mkZoneIndex (zone_ z) (zi_inserting z) (zi_events z ++ [e])
           (if isFrame e then mkFrameIndex (frames (frameIndex_ z) ++ [e])
            else frameIndex_ z)
    else z;
  endInserting z :=
    mkZoneIndex (zone_ z) false (sort byTime (zi_events z))
      (mkFrameIndex (sort byTime (frames (frameIndex_ z))))
}.

(** Modelled from the spec: the three methods on an event index, which
    stores the events of its name (section 4.2). *)
#[local] Instance EventIndex_target : IEventTarget EventIndex := {
  beginInserting x := mkEventIndex (eventName_ x) true (ei_events x);
  insertEvent e x :=
    if String.eqb (et_name (eventType e)) (eventName_ x)
    then mkEventIndex (eventName_ x) (ei_inserting x) (ei_events x ++ [e])
    else x;
  endInserting x :=
    mkEventIndex (eventName_ x) false (sort byTime (ei_events x))
}.

(** *** The database, the listener and the journal of effects *)

Record EventDatabase := mkEventDatabase {
  sources_ : list ContextInfo;
  totalEventCount_ : Z;
  summaryIndex_ : SummaryIndex;
  zoneIndices_ : list ZoneIndex;
  eventIndices_ : list EventIndex
}.

(** A reference to an event target.  Every zone index and event index is
    pushed on its list of the database when it is created and never leaves
    it, so the place in the list names the object. *)
Inductive TargetRef :=
| SummaryRef
| ZoneRef (n : nat)
| EventIndexRef (n : nat).

(** [wtf.analysis.db.EventDatabase.EventType] and
    [wtf.events.EventType.INVALIDATED], with the arguments of the event. *)
Inductive DbEvent :=
| SOURCES_CHANGED
| SOURCE_ERROR (message : string) (opt_detail : option string)
| ZONES_ADDED (addedZones : list ZoneIndex)
| INVALIDATED.

(** The calls on collaborators and the emitted events, in program order. *)
Inductive Effect :=
| CallBeginInserting (t : TargetRef)
| CallInsertEvent (t : TargetRef) (e : Event)
| CallEndInserting (t : TargetRef)
| CallRenumber (n : nat) (position : Z)
| Emit (ev : DbEvent).

Record Listener_ := mkListener_ {
  eventTargets_ : list TargetRef;
  insertingEvents_ : bool;
  insertedEventCount_ : Z;
  beginningZoneCount_ : nat;
  dirtyTimeStart_ : Q;
  dirtyTimeEnd_ : Q;
  eventTypes_zoneCreate : option EventType;
  eventTypes_scopeLeave : option EventType
}.

Record World := mkWorld {
  db_ : EventDatabase;
  listener_ : Listener_;
  journal : list Effect
}.

(** [new wtf.analysis.db.EventDatabase()]. *)
Definition newEventDatabase : World :=
  mkWorld (mkEventDatabase [] 0 (mkSummaryIndex false []) [] [])
          (mkListener_ [] false 0 0 0 0 None None)
          [].

(** Field updates. *)
Definition with_db (f : EventDatabase -> EventDatabase) (w : World) : World :=
  mkWorld (f (db_ w)) (listener_ w) (journal w).
Definition with_listener (f : Listener_ -> Listener_) (w : World) : World :=
  mkWorld (db_ w) (f (listener_ w)) (journal w).
Definition record (x : Effect) (w : World) : World :=
  mkWorld (db_ w) (listener_ w) (journal w ++ [x]).

Definition set_totalEventCount_ (n : Z) (d : EventDatabase) : EventDatabase :=
  mkEventDatabase (sources_ d) n (summaryIndex_ d) (zoneIndices_ d)
    (eventIndices_ d).
Definition set_summaryIndex_ (s : SummaryIndex) (d : EventDatabase) :=
  mkEventDatabase (sources_ d) (totalEventCount_ d) s (zoneIndices_ d)
    (eventIndices_ d).
Definition set_zoneIndices_ (zs : list ZoneIndex) (d : EventDatabase) :=
  mkEventDatabase (sources_ d) (totalEventCount_ d) (summaryIndex_ d) zs
    (eventIndices_ d).
Definition set_eventIndices_ (xs : list EventIndex) (d : EventDatabase) :=
  mkEventDatabase (sources_ d) (totalEventCount_ d) (summaryIndex_ d)
    (zoneIndices_ d) xs.
Definition set_sources_ (cs : list ContextInfo) (d : EventDatabase) :=
  mkEventDatabase cs (totalEventCount_ d) (summaryIndex_ d) (zoneIndices_ d)
    (eventIndices_ d).

Definition set_eventTargets_ (ts : list TargetRef) (l : Listener_) :=
  mkListener_ ts (insertingEvents_ l) (insertedEventCount_ l)
    (beginningZoneCount_ l) (dirtyTimeStart_ l) (dirtyTimeEnd_ l)
    (eventTypes_zoneCreate l) (eventTypes_scopeLeave l).
Definition set_insertingEvents_ (b : bool) (l : Listener_) :=
  mkListener_ (eventTargets_ l) b (insertedEventCount_ l)
    (beginningZoneCount_ l) (dirtyTimeStart_ l) (dirtyTimeEnd_ l)
    (eventTypes_zoneCreate l) (eventTypes_scopeLeave l).
Definition set_insertedEventCount_ (n : Z) (l : Listener_) :=
  mkListener_ (eventTargets_ l) (insertingEvents_ l) n
    (beginningZoneCount_ l) (dirtyTimeStart_ l) (dirtyTimeEnd_ l)
    (eventTypes_zoneCreate l) (eventTypes_scopeLeave l).
Definition set_beginningZoneCount_ (n : nat) (l : Listener_) :=
  mkListener_ (eventTargets_ l) (insertingEvents_ l) (insertedEventCount_ l)
    n (dirtyTimeStart_ l) (dirtyTimeEnd_ l)
    (eventTypes_zoneCreate l) (eventTypes_scopeLeave l).
Definition set_dirtyTime (tStart tEnd : Q) (l : Listener_) :=
  mkListener_ (eventTargets_ l) (insertingEvents_ l) (insertedEventCount_ l)
    (beginningZoneCount_ l) tStart tEnd
    (eventTypes_zoneCreate l) (eventTypes_scopeLeave l).
Definition set_eventTypes_ (zoneCreate scopeLeave : option EventType)
    (l : Listener_) :=
  mkListener_ (eventTargets_ l) (insertingEvents_ l) (insertedEventCount_ l)
    (beginningZoneCount_ l) (dirtyTimeStart_ l) (dirtyTimeEnd_ l)
    zoneCreate scopeLeave.

(** A method of [IEventTarget] applied to the object behind a reference. *)
Definition onTarget (method : forall T, IEventTarget T -> T -> T)
    (t : TargetRef) (d : EventDatabase) : EventDatabase :=
  match t with
  | SummaryRef => set_summaryIndex_ (method _ _ (summaryIndex_ d)) d
  | ZoneRef n => set_zoneIndices_ (alter (method _ _) n (zoneIndices_ d)) d
  | EventIndexRef n =>
      set_eventIndices_ (alter (method _ _) n (eventIndices_ d)) d
  end.

Definition callBeginInserting (t : TargetRef) (w : World) : World :=
  record (CallBeginInserting t)
    (with_db (onTarget (fun T _ => beginInserting) t) w).
Definition callInsertEvent (e : Event) (t : TargetRef) (w : World) : World :=
  record (CallInsertEvent t e)
    (with_db (onTarget (fun T _ => insertEvent e) t) w).
Definition callEndInserting (t : TargetRef) (w : World) : World :=
  record (CallEndInserting t)
    (with_db (onTarget (fun T _ => endInserting) t) w).

(** [emitEvent] of the event emitter the database extends. *)
Definition emitEvent (ev : DbEvent) (w : World) : World := record (Emit ev) w.

(** *** [EventDatabase] *)

Definition getTotalEventCount (w : World) : Z := totalEventCount_ (db_ w).

Definition getZoneIndices (w : World) : list ZoneIndex := zoneIndices_ (db_ w).

(** The loop of [getFirstFrameIndex] over what is left of [zoneIndices_]. *)
Fixpoint getFirstFrameIndex_loop (zs : list ZoneIndex) : option FrameIndex :=
  match zs with
  | [] => None
  | z :: rest =>
      let frameIndex := getFrameIndex z in
      if negb (getCount frameIndex =? 0) then Some frameIndex
      else getFirstFrameIndex_loop rest
  end.

Definition getFirstFrameIndex (d : EventDatabase) : option FrameIndex :=
  getFirstFrameIndex_loop (zoneIndices_ d).

(** The loop of [getEventIndex]: the first index of the name from place [n]
    on, with its place. *)
Fixpoint getEventIndex_from (eventName : string) (n : nat)
    (xs : list EventIndex) : option (nat * EventIndex) :=
  match xs with
  | [] => None
  | eventIndex :: rest =>
      if String.eqb (getEventName eventIndex) eventName
      then Some (n, eventIndex)
      else getEventIndex_from eventName (S n) rest
  end.

(** [getEventIndex(eventName)]: the index found, named by its place in
    [eventIndices_], or [null]. *)
Definition getEventIndex (eventName : string) (d : EventDatabase)
    : option (nat * EventIndex) :=
  getEventIndex_from eventName 0 (eventIndices_ d).

(** [createEventIndex(eventName)]: the database afterwards and the deferred
    returned. *)
Definition createEventIndex (eventName : string) (d : EventDatabase)
    : EventDatabase * Deferred (nat * EventIndex) :=
  match getEventIndex eventName d with
  | Some eventIndex => (d, succeed eventIndex)
  | None =>
      let eventIndex := newEventIndex eventName in
      (set_eventIndices_ (eventIndices_ d ++ [eventIndex]) d,
       succeed (length (eventIndices_ d), eventIndex))
  end.

Definition invalidate_ (w : World) : World := emitEvent INVALIDATED w.

(** The loop of [renumber_] from the zone at place [n] on. *)
Fixpoint renumber_from (n : nat) (position : Z) (zs : list ZoneIndex)
    : list ZoneIndex * list Effect :=
  match zs with
  | [] => ([], [])
  | zoneIndex :: rest =>
      let '(zoneIndex', position') := renumber position zoneIndex in
      let '(rest', calls) := renumber_from (S n) position' rest in
      (zoneIndex' :: rest', CallRenumber n position :: calls)
  end.

Definition renumber_ (w : World) : World :=
  let position := 0 in
  let position := position + 1 in
  let '(zs, calls) := renumber_from 0 position (zoneIndices_ (db_ w)) in
  mkWorld (set_zoneIndices_ zs (db_ w)) (listener_ w) (journal w ++ calls).


(** *** [Listener_] *)

Definition sourceAdded (timebase : Q) (contextInfo : ContextInfo)
    (w : World) : World :=
  let w := with_db (fun d => set_sources_ (sources_ d ++ [contextInfo]) d) w in
  let w := emitEvent SOURCES_CHANGED w in
  invalidate_ w.

Definition sourceError (message : string) (opt_detail : option string)
    (w : World) : World :=
  emitEvent (SOURCE_ERROR message opt_detail) w.

(** The target list rebuilt by [beginEventBatch]. *)
Definition rebuiltTargets (d : EventDatabase) : list TargetRef :=
  [SummaryRef]
  ++ map ZoneRef (seq 0 (length (zoneIndices_ d)))
  ++ map EventIndexRef (seq 0 (length (eventIndices_ d))).

Definition beginEventBatch (contextInfo : ContextInfo) (w : World)
    : Completion World :=
  if insertingEvents_ (listener_ w) then Throw AssertionError
  else
    let w := with_listener (set_insertingEvents_ true) w in
    let w := with_listener
               (set_beginningZoneCount_ (length (zoneIndices_ (db_ w)))) w in
    let w := with_listener
               (set_dirtyTime Number_MAX_VALUE Number_MIN_VALUE) w in
    let w := with_listener (set_eventTargets_ (rebuiltTargets (db_ w))) w in
    Return (fold_left (fun w t => callBeginInserting t w)
              (eventTargets_ (listener_ w)) w).

Definition endEventBatch (w : World) : Completion World :=
  if negb (insertingEvents_ (listener_ w)) then Throw AssertionError
  else
    let w := with_listener (set_insertingEvents_ false) w in
    let w := fold_left (fun w t => callEndInserting t w)
               (rev (eventTargets_ (listener_ w))) w in
    let w := renumber_ w in
    let w :=
      if negb (beginningZoneCount_ (listener_ w)
               =? length (zoneIndices_ (db_ w)))%nat
      then
        let addedZones :=
          drop (beginningZoneCount_ (listener_ w)) (zoneIndices_ (db_ w)) in
        emitEvent (ZONES_ADDED addedZones) w
      else w in
    let w :=
      if negb (insertedEventCount_ (listener_ w) =? 0)
      then invalidate_ (with_listener (set_insertedEventCount_ 0) w)
      else w in
    Return (with_listener (set_eventTargets_ []) w).

(** [a == b] between an event type and a cached event type or [null]. *)
Definition sameType (a : EventType) (b : option EventType) : bool :=
  bool_decide (Some a = b).

(** The zone indices hold an index of the zone [newZone]. *)
Definition zonePresent (newZone : option Zone) (zs : list ZoneIndex) : bool :=
  existsb (fun z => bool_decide (getZone z = newZone)) zs.

(** The five parts of [traceEvent], in the order of the source: the dirty
    range and the count of the batch; the cached event types; the total
    count; the creation of a zone; the dispatch to the targets. *)
Definition noteEvent (e : Event) (w : World) : World :=
  let l := listener_ w in
  let w :=
    with_listener
      (set_dirtyTime
         (if Qltb (time e) (dirtyTimeStart_ l) then time e
          else dirtyTimeStart_ l)
         (if Qltb (dirtyTimeEnd_ l) (time e) then time e
          else dirtyTimeEnd_ l)) w in
  with_listener (fun l => set_insertedEventCount_ (insertedEventCount_ l + 1) l)
    w.

Definition cacheEventTypes (w : World) : World :=
  let scopeLeave :=
    match eventTypes_scopeLeave (listener_ w) with
    | None => getEventType "wtf.scope#leave"
    | Some t => Some t
    end in
  let zoneCreate :=
    match eventTypes_zoneCreate (listener_ w) with
    | None => getEventType "wtf.zone#create"
    | Some t => Some t
    end in
  with_listener (set_eventTypes_ zoneCreate scopeLeave) w.

Definition countEvent (e : Event) (w : World) : World :=
  if negb (hasFlag INTERNAL (eventType e)
           || sameType (eventType e) (eventTypes_scopeLeave (listener_ w)))
  then with_db (fun d => set_totalEventCount_ (totalEventCount_ d + 1) d) w
  else w.

Definition createZone (e : Event) (w : World) : World :=
  if sameType (eventType e) (eventTypes_zoneCreate (listener_ w)) then
    let newZone := value e in
    if negb (zonePresent newZone (zoneIndices_ (db_ w))) then
      let zoneIndex := ZoneRef (length (zoneIndices_ (db_ w))) in
      let w := with_db (fun d =>
                 set_zoneIndices_ (zoneIndices_ d ++ [newZoneIndex newZone]) d)
                 w in
      let w := with_listener (fun l =>
                 set_eventTargets_ (eventTargets_ l ++ [zoneIndex]) l) w in
      callBeginInserting zoneIndex w
    else w
  else w.

Definition dispatch (e : Event) (w : World) : World :=
  fold_left (fun w t => callInsertEvent e t w) (eventTargets_ (listener_ w)) w.

Definition traceEvent (e : Event) (w : World) : World :=
  dispatch e (createZone e (countEvent e (cacheEventTypes (noteEvent e w)))).

(** The calls a source makes on the listener, and a run of them. *)
Inductive Call :=
| SourceAdded (timebase : Q) (contextInfo : ContextInfo)
| SourceError (message : string) (opt_detail : option string)
| BeginEventBatch (contextInfo : ContextInfo)
| TraceEvent (e : Event)
| EndEventBatch.

Definition step (c : Call) (w : World) : Completion World :=
  match c with
  | SourceAdded timebase contextInfo =>
      Return (sourceAdded timebase contextInfo w)
  | SourceError message opt_detail =>
      Return (sourceError message opt_detail w)
  | BeginEventBatch contextInfo => beginEventBatch contextInfo w
  | TraceEvent e => Return (traceEvent e w)
  | EndEventBatch => endEventBatch w
  end.

Fixpoint run (calls : list Call) (w : World) : Completion World :=
  match calls with
  | [] => Return w
  | c :: rest =>
      match step c w with
      | Return w' => run rest w'
      | Throw err => Throw err
      end
  end.

(** The events a run hands to [traceEvent]. *)
Definition ingested (calls : list Call) : list Event :=
  flat_map (fun c => match c with TraceEvent e => [e] | _ => [] end) calls.

(** *** [query] *)

(** The evaluator of an event filter: a predicate on events, and the text
    [toString()] gives for it. *)
Record Evaluator := mkEvaluator {
  evaluate : Event -> bool;
  toString : string
}.

(** [wtf.analysis.EventFilter.Result]. *)
Inductive FilterResult := FAILED | UPDATED | NO_CHANGE.

(** [new wtf.analysis.EventFilter()] followed by [setFromString(expr)]: the
    result of the call and what [getEvaluator()] then returns, [null]
    ([None]) standing for a filter that matches everything. *)
Variable setFromString : JsString -> FilterResult * option Evaluator.

(** [zoneIndex.forEach(timeStart, timeEnd, callback)]: the events handed to
    the callback, in order. *)
Variable forEach : ZoneIndex -> Q -> Q -> list Event.

(** [new wgxpath.XPathExpression(expr)] followed by [evaluate(db, ANY_TYPE)]:
    the expression and the [value] of its result. *)
Variable xpathEvaluate :
  JsString -> EventDatabase -> Completion (XPathExpression * XPathValue).

(** The time and position the comparator reads off a scope of the result. *)
Variable scopeTime : Scope -> Q.
Variable scopePosition : Scope -> Z.

(** An element of the result of a filter query. *)
Inductive ResultItem :=
| ScopeItem (s : Scope)
| EventItem (e : Event).

Definition item_time (r : ResultItem) : Q :=
  match r with ScopeItem s => scopeTime s | EventItem e => time e end.
Definition item_position (r : ResultItem) : Z :=
  match r with ScopeItem s => scopePosition s | EventItem e => position e end.

(** Modelled from the spec: the function [wtf.analysis.Event.comparer] is
    not part of this development.  Section 4.8: the database event
    comparator orders by time ascending, then by position ascending. *)
Definition comparer (a b : ResultItem) : Q :=
  if Qeq_bool (item_time a) (item_time b)
  then inject_Z (item_position a - item_position b)
  else item_time a - item_time b.

(** [!evaluator || evaluator(e)]. *)
Definition accepts (evaluator : option Evaluator) (e : Event) : bool :=
  match evaluator with
  | None => true
  | Some ev => evaluate ev e
  end.

(** The callback given to [forEach]: [result] after the call on [e]. *)
Definition callback (evaluator : option Evaluator) (result : list ResultItem)
    (e : Event) : list ResultItem :=
  if hasFlag INTERNAL (eventType e) then result
  else if accepts evaluator e then
    match class e with
    | ScopeEvent scope => result ++ [ScopeItem scope]
    | _ => result ++ [EventItem e]
    end
  else result.

(** The array [result] of the filter branch before it is sorted: the
    callback has run on the events of every zone index, zone after zone. *)
Definition collected (evaluator : option Evaluator) (d : EventDatabase)
    : list ResultItem :=
  fold_left
    (fun result zoneIndex =>
       fold_left (callback evaluator)
         (forEach zoneIndex Number_MIN_VALUE Number_MAX_VALUE) result)
    (zoneIndices_ d) [].

(** The array [result] of the filter branch, once sorted. *)
Definition filterResult (evaluator : option Evaluator) (d : EventDatabase)
    : list ResultItem :=
  sort comparer (collected evaluator d).

Inductive CompiledExpr :=
| CompiledFilter (s : string)
| CompiledXPath (xexpr : XPathExpression).

Inductive ResultValue :=
| FilterRows (result : list ResultItem)
| XPathRows (value : XPathValue).

(** [wtf.analysis.db.QueryResult], as constructed. *)
Record QueryResult := mkQueryResult {
  qr_expr : JsString;
  qr_compiledExpr : CompiledExpr;
  qr_duration : Q;
  qr_result : ResultValue
}.

(** The two branches of [query]; [startTime] and [endTime] are the two
    readings of [wtf.now()]. *)
Definition filterQuery (expr : JsString) (startTime endTime : Q)
    (d : EventDatabase) : Completion QueryResult :=
  let '(parseResult, evaluator) := setFromString expr in
  match parseResult with
  | FAILED => Throw (ThrownString "Invalid regex.")
  | _ =>
      let result := filterResult evaluator d in
      match evaluator with
      | None => Throw TypeError
      | Some ev =>
          Return (mkQueryResult expr (CompiledFilter (toString ev))
                    (endTime - startTime) (FilterRows result))
      end
  end.

Definition xpathQuery (expr : JsString) (startTime endTime : Q)
    (d : EventDatabase) : Completion QueryResult :=
  match xpathEvaluate (match expr with [] => str "." | _ => expr end) d with
  | Throw err => Throw err
  | Return (xexpr, value) =>
      Return (mkQueryResult expr (CompiledXPath xexpr)
                (endTime - startTime) (XPathRows value))
  end.

Definition query (expr : JsString) (startTime endTime : Q) (d : EventDatabase)
    : Completion QueryResult :=
  if Classifier.isFilter expr then filterQuery expr startTime endTime d
  else xpathQuery expr startTime endTime d.

(** ** Properties *)

(** *** C10: the first frame index *)

Lemma getCount_zero f : getCount f = 0 <-> frames f = [].
Proof.
  unfold getCount. destruct (frames f); simpl; [done|]. split; [lia|done].
Qed.

Lemma getFirstFrameIndex_loop_spec zs :
  match getFirstFrameIndex_loop zs with
  | Some frameIndex =>
      exists n z,
        zs !! n = Some z /\ getFrameIndex z = frameIndex /\
        frames frameIndex <> [] /\
        forall m z', (m < n)%nat -> zs !! m = Some z' ->
                     frames (getFrameIndex z') = []
  | None => Forall (fun z => frames (getFrameIndex z) = []) zs
  end.
Proof.
  induction zs as [|z zs IH]; simpl; [constructor|].
  destruct (getCount (getFrameIndex z) =? 0) eqn:Hc; simpl.
  - apply Z.eqb_eq, getCount_zero in Hc.
    destruct (getFirstFrameIndex_loop zs) as [frameIndex|].
    + destruct IH as (n & z0 & Hn & Hz0 & Hne & Hbefore).
      exists (S n), z0. repeat split; try done.
      intros [|m] z' Hm Hz'; simpl in Hz'; [congruence|].
      apply (Hbefore m); [lia|done].
    + by constructor.
  - apply Z.eqb_neq in Hc. exists 0%nat, z. repeat split.
    + intros H. by apply getCount_zero in H.
    + intros m z' Hm. lia.
Qed.

(** C10. [getFirstFrameIndex] returns the frame index of the first zone
    index, in the order of [zoneIndices_], whose frame index holds at least
    one frame; it returns [null] when there is no zone index or every frame
    index is empty; what it returns is never an empty frame index. *)
Theorem getFirstFrameIndex_first_nonempty (d : EventDatabase) :
  match getFirstFrameIndex d with
  | Some frameIndex =>
      (exists n z,
         zoneIndices_ d !! n = Some z /\ getFrameIndex z = frameIndex /\
         forall m z', (m < n)%nat -> zoneIndices_ d !! m = Some z' ->
                      frames (getFrameIndex z') = []) /\
      frames frameIndex <> [] /\ 0 < getCount frameIndex
  | None => Forall (fun z => frames (getFrameIndex z) = []) (zoneIndices_ d)
  end.
Proof.
  unfold getFirstFrameIndex.
  pose proof (getFirstFrameIndex_loop_spec (zoneIndices_ d)) as H.
  destruct (getFirstFrameIndex_loop (zoneIndices_ d)) as [frameIndex|]; [|done].
  destruct H as (n & z & Hn & Hz & Hne & Hbefore).
  split; [by exists n, z|]. split; [done|].
  unfold getCount. destruct (frames frameIndex); [done|simpl; lia].
Qed.

(** *** C5: event indices are created once *)

Lemma getEventIndex_from_Some eventName n xs k x :
  getEventIndex_from eventName n xs = Some (k, x) ->
  (n <= k)%nat /\ xs !! (k - n)%nat = Some x /\ getEventName x = eventName.
Proof.
  revert n; induction xs as [|y xs IH]; intros n; simpl; [done|].
  destruct (String.eqb_spec (getEventName y) eventName) as [Heq|Hne].
  - intros [= <- <-]. by rewrite Nat.sub_diag.
  - intros H. apply IH in H as (Hle & Hx & Hname).
    split; [lia|]. split; [|done].
    replace (k - n)%nat with (S (k - S n)) by lia. done.
Qed.

Lemma getEventIndex_from_None eventName n xs :
  getEventIndex_from eventName n xs = None <->
  Forall (fun x => getEventName x <> eventName) xs.
Proof.
  revert n; induction xs as [|y xs IH]; intros n; simpl.
  - split; [constructor|done].
  - destruct (String.eqb_spec (getEventName y) eventName) as [Heq|Hne].
    + split; [done|]. intros H. by apply Forall_cons in H as [H _].
    + rewrite IH. split; [by constructor|]. intros H.
      by apply Forall_cons in H as [_ H].
Qed.

Lemma getEventIndex_from_app eventName n xs ys :
  getEventIndex_from eventName n (xs ++ ys) =
  match getEventIndex_from eventName n xs with
  | Some r => Some r
  | None => getEventIndex_from eventName (n + length xs) ys
  end.
Proof.
  revert n; induction xs as [|x xs IH]; intros n; simpl.
  - by rewrite Nat.add_0_r.
  - destruct (String.eqb (getEventName x) eventName); [done|].
    rewrite IH. by replace (S n + length xs)%nat with (n + S (length xs))%nat by lia.
Qed.

(** C5. [createEventIndex] is idempotent.  When an index of the name
    exists, it is the one returned, in a deferred that has already
    succeeded, and the database is left as it was.  Otherwise one index of
    that name is pushed and returned.  Either way a second call with the
    same name returns the same index, at the same place of
    [eventIndices_], and creates nothing. *)
Theorem createEventIndex_idempotent (eventName : string) (d : EventDatabase) :
  let '(d1, succeed r1) := createEventIndex eventName d in
  let '(d2, succeed r2) := createEventIndex eventName d1 in
  r2 = r1 /\ d2 = d1 /\
  eventIndices_ d1 !! r1.1 = Some r1.2 /\
  getEventName r1.2 = eventName /\
  (forall r, getEventIndex eventName d = Some r -> r1 = r /\ d1 = d) /\
  (getEventIndex eventName d = None ->
   eventIndices_ d1 = eventIndices_ d ++ [newEventIndex eventName] /\
   r1 = (length (eventIndices_ d), newEventIndex eventName)).
Proof.
  unfold createEventIndex at 1.
  destruct (getEventIndex eventName d) as [[k x]|] eqn:Hget.
  - unfold createEventIndex. rewrite Hget.
    apply getEventIndex_from_Some in Hget as (_ & Hx & Hname).
    rewrite Nat.sub_0_r in Hx.
    split_and!; try done. by intros r [= <-].
  - set (d1 := set_eventIndices_ _ d).
    assert (Hget1 : getEventIndex eventName d1
                    = Some (length (eventIndices_ d), newEventIndex eventName)).
    { unfold getEventIndex in *. subst d1. simpl.
      rewrite getEventIndex_from_app, Hget. simpl.
      by rewrite String.eqb_refl. }
    unfold createEventIndex. rewrite Hget1.
    split_and!; try done.
    subst d1; simpl. by rewrite lookup_app_r, Nat.sub_diag.
Qed.

(** *** C8: positions *)

(** The events of the database, zone after zone in the order of
    [zoneIndices_], each zone in the order of its list. *)
Definition allEvents (d : EventDatabase) : list Event :=
  concat (map zi_events (zoneIndices_ d)).

Lemma length_renumberEvents p es : length (renumberEvents p es) = length es.
Proof. revert p; induction es; intros p; simpl; [done|]. by rewrite IHes. Qed.

Lemma renumberEvents_positions p es :
  map position (renumberEvents p es) = seqZ p (Z.of_nat (length es)).
Proof.
  revert p; induction es as [|e es IH]; intros p; [done|].
  cbn [renumberEvents map length]. rewrite IH.
  rewrite (seqZ_cons p) by lia. do 2 f_equal; lia.
Qed.

Lemma renumberEvents_same p es :
  map (setPosition 0) (renumberEvents p es) = map (setPosition 0) es.
Proof. revert p; induction es; intros p; simpl; [done|]. by rewrite IHes. Qed.

Lemma renumber_from_spec n p zs :
  let events := concat (map zi_events zs) in
  let events' := concat (map zi_events (renumber_from n p zs).1) in
  map position events' = seqZ p (Z.of_nat (length events)) /\
  map (setPosition 0) events' = map (setPosition 0) events /\
  map zone_ (renumber_from n p zs).1 = map zone_ zs /\
  map zi_inserting (renumber_from n p zs).1 = map zi_inserting zs /\
  map frameIndex_ (renumber_from n p zs).1 = map frameIndex_ zs.
Proof.
  revert n p; induction zs as [|z zs IH]; intros n p; [done|].
  cbn [renumber_from renumber].
  specialize (IH (S n) (p + Z.of_nat (length (zi_events z)))).
  destruct (renumber_from (S n) (p + Z.of_nat (length (zi_events z))) zs)
    as [zs' calls].
  cbn [fst map concat zi_events zone_ zi_inserting frameIndex_] in *.
  destruct IH as (Hpos & Hsame & Hzone & Hins & Hframe).
  split_and!.
  - rewrite map_app, renumberEvents_positions, Hpos, length_app, Nat2Z.inj_add.
    by rewrite seqZ_app by lia.
  - by rewrite !map_app, renumberEvents_same, Hsame.
  - by rewrite Hzone.
  - by rewrite Hins.
  - by rewrite Hframe.
Qed.

Lemma renumber__zoneIndices w :
  zoneIndices_ (db_ (renumber_ w)) = (renumber_from 0 1 (zoneIndices_ (db_ w))).1.
Proof.
  unfold renumber_. change (0 + 1) with 1.
  by destruct (renumber_from 0 1 (zoneIndices_ (db_ w))).
Qed.





(** *** Calls on targets: what they leave alone *)

Lemma sort_insert_perm {A} (cmp : A -> A -> Q) x l :
  sort_insert cmp x l ≡ₚ x :: l.
Proof.
  induction l as [|y l IH]; simpl; [done|].
  destruct (Qle_bool (cmp x y) 0); [done|].
  rewrite IH. apply Permutation_swap.
Qed.

Lemma sort_perm {A} (cmp : A -> A -> Q) l : sort cmp l ≡ₚ l.
Proof.
  induction l as [|x l IH]; simpl; [done|].
  by rewrite sort_insert_perm, IH.
Qed.

Lemma length_sort {A} (cmp : A -> A -> Q) l : length (sort cmp l) = length l.
Proof. apply Permutation_length, sort_perm. Qed.

(** A run of calls of one method on a list of targets. *)
Definition callsOn (method : forall T, IEventTarget T -> T -> T)
    (effect : TargetRef -> Effect) (ts : list TargetRef) (w : World) : World :=
  fold_left (fun w t => record (effect t) (with_db (onTarget method t) w)) ts w.

Lemma callsOn_frame method effect ts w :
  journal (callsOn method effect ts w) = journal w ++ map effect ts /\
  listener_ (callsOn method effect ts w) = listener_ w /\
  totalEventCount_ (db_ (callsOn method effect ts w)) = totalEventCount_ (db_ w) /\
  sources_ (db_ (callsOn method effect ts w)) = sources_ (db_ w).
Proof.
  revert w; induction ts as [|t ts IH]; intros w; simpl.
  - by rewrite app_nil_r.
  - destruct (IH (record (effect t) (with_db (onTarget method t) w)))
      as (Hj & Hl & Hc & Hs).
    unfold callsOn in *. rewrite Hj, Hl, Hc, Hs. simpl.
    rewrite <- app_assoc. by destruct t.
Qed.

Lemma onTarget_zone_proj {B} (P : ZoneIndex -> B)
    (method : forall T, IEventTarget T -> T -> T) t d :
  (forall z, P (method ZoneIndex _ z) = P z) ->
  map P (zoneIndices_ (onTarget method t d)) = map P (zoneIndices_ d).
Proof.
  intros HP. destruct t as [|n|n]; simpl; try done.
  rewrite (list_fmap_alter P _ id).
  - by rewrite list_alter_id.
  - apply Forall_forall. intros z _. apply HP.
Qed.

Lemma onTarget_index_proj {B} (P : EventIndex -> B)
    (method : forall T, IEventTarget T -> T -> T) t d :
  (forall x, P (method EventIndex _ x) = P x) ->
  map P (eventIndices_ (onTarget method t d)) = map P (eventIndices_ d).
Proof.
  intros HP. destruct t as [|n|n]; simpl; try done.
  rewrite (list_fmap_alter P _ id).
  - by rewrite list_alter_id.
  - apply Forall_forall. intros z _. apply HP.
Qed.

Lemma callsOn_zone_proj {B} (P : ZoneIndex -> B)
    (method : forall T, IEventTarget T -> T -> T) effect ts w :
  (forall z, P (method ZoneIndex _ z) = P z) ->
  map P (zoneIndices_ (db_ (callsOn method effect ts w)))
  = map P (zoneIndices_ (db_ w)).
Proof.
  intros HP. revert w; induction ts as [|t ts IH]; intros w; [done|].
  unfold callsOn in *. simpl. rewrite IH. simpl.
  by apply onTarget_zone_proj.
Qed.

Lemma callsOn_index_proj {B} (P : EventIndex -> B)
    (method : forall T, IEventTarget T -> T -> T) effect ts w :
  (forall x, P (method EventIndex _ x) = P x) ->
  map P (eventIndices_ (db_ (callsOn method effect ts w)))
  = map P (eventIndices_ (db_ w)).
Proof.
  intros HP. revert w; induction ts as [|t ts IH]; intros w; [done|].
  unfold callsOn in *. simpl. rewrite IH. simpl.
  by apply onTarget_index_proj.
Qed.

Lemma insertEvent_zone_ e z : zone_ (insertEvent e z) = zone_ z.
Proof. simpl. by destruct (zoneStores (zone_ z) e). Qed.

Lemma insertEvent_zi_inserting e z :
  zi_inserting (insertEvent e z) = zi_inserting z.
Proof. simpl. by destruct (zoneStores (zone_ z) e). Qed.

Lemma endInserting_size (z : ZoneIndex) :
  length (zi_events (endInserting z)) = length (zi_events z).
Proof. simpl. apply length_sort. Qed.

Lemma dispatch_callsOn e w :
  dispatch e w
  = callsOn (fun T _ => insertEvent e) (fun t => CallInsertEvent t e)
      (eventTargets_ (listener_ w)) w.
Proof. done. Qed.

(** *** C1: the total event count *)

(** The event type of [e] is the one registered under [name]. *)
Definition isType (name : string) (e : Event) : Prop :=
  getEventType name = Some (eventType e).

(** The events left out of the total: the type carries the [INTERNAL] flag
    or is the type registered as [wtf.scope#leave]. *)
Definition excluded (e : Event) : bool :=
  hasFlag INTERNAL (eventType e)
  || sameType (eventType e) (getEventType "wtf.scope#leave").

(** The cached event types of the listener are not yet looked up, or are
    what the registry gives. *)
Definition cacheConsistent (l : Listener_) : Prop :=
  (eventTypes_scopeLeave l = None \/
   eventTypes_scopeLeave l = getEventType "wtf.scope#leave") /\
  (eventTypes_zoneCreate l = None \/
   eventTypes_zoneCreate l = getEventType "wtf.zone#create").

Lemma cacheEventTypes_cache w :
  cacheConsistent (listener_ w) ->
  eventTypes_scopeLeave (listener_ (cacheEventTypes w))
  = getEventType "wtf.scope#leave" /\
  eventTypes_zoneCreate (listener_ (cacheEventTypes w))
  = getEventType "wtf.zone#create".
Proof.
  intros [[Hs|Hs] [Hz|Hz]]; unfold cacheEventTypes; simpl; rewrite Hs, Hz;
    split; try done;
    try (by destruct (getEventType "wtf.scope#leave"));
    try (by destruct (getEventType "wtf.zone#create")).
Qed.

Lemma createZone_frame e w :
  listener_ (createZone e w)
  = set_eventTargets_ (eventTargets_ (listener_ (createZone e w))) (listener_ w) /\
  totalEventCount_ (db_ (createZone e w)) = totalEventCount_ (db_ w).
Proof.
  unfold createZone. destruct w as [d [] j]; simpl.
  destruct (sameType _ _); [|done].
  by destruct (negb _).
Qed.

Lemma traceEvent_listener e w :
  cacheConsistent (listener_ w) ->
  eventTypes_scopeLeave (listener_ (traceEvent e w))
  = getEventType "wtf.scope#leave" /\
  eventTypes_zoneCreate (listener_ (traceEvent e w))
  = getEventType "wtf.zone#create" /\
  insertedEventCount_ (listener_ (traceEvent e w))
  = insertedEventCount_ (listener_ w) + 1 /\
  insertingEvents_ (listener_ (traceEvent e w)) = insertingEvents_ (listener_ w) /\
  beginningZoneCount_ (listener_ (traceEvent e w))
  = beginningZoneCount_ (listener_ w).
Proof.
  intros Hc. unfold traceEvent. rewrite dispatch_callsOn.
  destruct (callsOn_frame (fun T _ => insertEvent e)
              (fun t => CallInsertEvent t e)
              (eventTargets_ (listener_ (createZone e (countEvent e
                 (cacheEventTypes (noteEvent e w))))))
              (createZone e (countEvent e (cacheEventTypes (noteEvent e w)))))
    as (_ & -> & _).
  destruct (createZone_frame e (countEvent e (cacheEventTypes (noteEvent e w))))
    as [-> _].
  assert (Hl : listener_ (countEvent e (cacheEventTypes (noteEvent e w)))
               = listener_ (cacheEventTypes (noteEvent e w))).
  { unfold countEvent. by destruct (negb _). }
  rewrite Hl. simpl.
  assert (Hc' : cacheConsistent (listener_ (noteEvent e w))) by done.
  apply cacheEventTypes_cache in Hc' as [Hs Hz].
  split; [exact Hs|]. split; [exact Hz|]. done.
Qed.

Lemma traceEvent_total e w :
  cacheConsistent (listener_ w) ->
  getTotalEventCount (traceEvent e w)
  = getTotalEventCount w + (if excluded e then 0 else 1).
Proof.
  intros Hc. unfold getTotalEventCount, traceEvent. rewrite dispatch_callsOn.
  destruct (callsOn_frame (fun T _ => insertEvent e)
              (fun t => CallInsertEvent t e)
              (eventTargets_ (listener_ (createZone e (countEvent e
                 (cacheEventTypes (noteEvent e w))))))
              (createZone e (countEvent e (cacheEventTypes (noteEvent e w)))))
    as (_ & _ & -> & _).
  destruct (createZone_frame e (countEvent e (cacheEventTypes (noteEvent e w))))
    as [_ ->].
  assert (Hc' : cacheConsistent (listener_ (noteEvent e w))) by done.
  apply cacheEventTypes_cache in Hc' as [Hs _].
  unfold countEvent, excluded. rewrite Hs.
  destruct (hasFlag INTERNAL (eventType e)
            || sameType (eventType e) (getEventType "wtf.scope#leave"));
    simpl; lia.
Qed.

(** *** C7: the end of a batch *)

(** The calls of the renumber pass on zones of the given sizes: the zone at
    place [n] is renumbered from [position], the next one from where it
    stopped. *)
Fixpoint renumberCalls (n : nat) (position : Z) (sizes : list nat)
    : list Effect :=
  match sizes with
  | [] => []
  | size :: rest =>
      CallRenumber n position
      :: renumberCalls (S n) (position + Z.of_nat size) rest
  end.

Definition zoneSize (z : ZoneIndex) : nat := length (zi_events z).

Lemma renumber_from_calls n p zs :
  (renumber_from n p zs).2 = renumberCalls n p (map zoneSize zs).
Proof.
  revert n p; induction zs as [|z zs IH]; intros n p; [done|].
  cbn [renumber_from renumber map renumberCalls].
  specialize (IH (S n) (p + Z.of_nat (length (zi_events z)))).
  destruct (renumber_from (S n) (p + Z.of_nat (length (zi_events z))) zs).
  simpl in *. by rewrite IH.
Qed.

Lemma renumber__frame w :
  journal (renumber_ w)
  = journal w ++ renumberCalls 0 1 (map zoneSize (zoneIndices_ (db_ w))) /\
  listener_ (renumber_ w) = listener_ w /\
  map zone_ (zoneIndices_ (db_ (renumber_ w))) = map zone_ (zoneIndices_ (db_ w)) /\
  totalEventCount_ (db_ (renumber_ w)) = totalEventCount_ (db_ w).
Proof.
  rewrite renumber__zoneIndices, <- renumber_from_calls.
  destruct (renumber_from_spec 0 1 (zoneIndices_ (db_ w))) as (_ & _ & Hz & _).
  unfold renumber_. change (0 + 1) with 1.
  destruct (renumber_from 0 1 (zoneIndices_ (db_ w))). done.
Qed.

(** The events emitted at the end of a batch that began with [begun] zone
    indices, counted [inserted] events and leaves the zone indices [zs]. *)
Definition batchEvents (begun : nat) (inserted : Z) (zs : list ZoneIndex)
    : list Effect :=
  (if (begun =? length zs)%nat then []
   else [Emit (ZONES_ADDED (drop begun zs))])
  ++ (if inserted =? 0 then [] else [Emit INVALIDATED]).

Lemma endEventBatch_spec w :
  insertingEvents_ (listener_ w) = true ->
  exists w',
    endEventBatch w = Return w' /\
    journal w'
    = journal w
      ++ map CallEndInserting (rev (eventTargets_ (listener_ w)))
      ++ renumberCalls 0 1 (map zoneSize (zoneIndices_ (db_ w)))
      ++ batchEvents (beginningZoneCount_ (listener_ w))
           (insertedEventCount_ (listener_ w)) (zoneIndices_ (db_ w')) /\
    listener_ w'
    = mkListener_ [] false 0 (beginningZoneCount_ (listener_ w))
        (dirtyTimeStart_ (listener_ w)) (dirtyTimeEnd_ (listener_ w))
        (eventTypes_zoneCreate (listener_ w))
        (eventTypes_scopeLeave (listener_ w)) /\
    map zone_ (zoneIndices_ (db_ w')) = map zone_ (zoneIndices_ (db_ w)) /\
    totalEventCount_ (db_ w') = totalEventCount_ (db_ w).
Proof.
  intros Hins. unfold endEventBatch. rewrite Hins. cbn [negb].
  eexists; split; [reflexivity|].
  set (w1 := with_listener (set_insertingEvents_ false) w).
  change (fold_left _ ?ts w1)
    with (callsOn (fun T _ => endInserting) CallEndInserting ts w1).
  set (w2 := callsOn _ _ _ w1).
  destruct (callsOn_frame (fun T _ => endInserting) CallEndInserting
              (rev (eventTargets_ (listener_ w1))) w1) as (Hj2 & Hl2 & Hc2 & _).
  pose proof (callsOn_zone_proj zone_ (fun T _ => endInserting)
                CallEndInserting (rev (eventTargets_ (listener_ w1))) w1
                (fun z => eq_refl)) as Hz2.
  pose proof (callsOn_zone_proj zoneSize (fun T _ => endInserting)
                CallEndInserting (rev (eventTargets_ (listener_ w1))) w1
                endInserting_size) as Hs2.
  fold w2 in Hj2, Hl2, Hc2, Hz2, Hs2.
  destruct (renumber__frame w2) as (Hj3 & Hl3 & Hz3 & Hc3).
  set (w3 := renumber_ w2) in *.
  assert (Hlen : length (zoneIndices_ (db_ w3)) = length (zoneIndices_ (db_ w))).
  { apply (f_equal length) in Hz3, Hz2. rewrite !length_map in Hz3, Hz2.
    by rewrite Hz3, Hz2. }
  assert (Hl : listener_ w3 = set_insertingEvents_ false (listener_ w))
    by (by rewrite Hl3, Hl2).
  assert (Hj : journal w3
               = journal w
                 ++ map CallEndInserting (rev (eventTargets_ (listener_ w)))
                 ++ renumberCalls 0 1 (map zoneSize (zoneIndices_ (db_ w)))).
  { rewrite Hj3, Hj2, Hs2. by rewrite <- app_assoc. }
  assert (Hz : map zone_ (zoneIndices_ (db_ w3)) = map zone_ (zoneIndices_ (db_ w)))
    by (by rewrite Hz3, Hz2).
  assert (Hc : totalEventCount_ (db_ w3) = totalEventCount_ (db_ w))
    by (by rewrite Hc3, Hc2).
  clearbody w3. clear - Hlen Hl Hj Hz Hc.
  destruct w3 as [d3 l3 j3]; simpl in *. subst l3 j3.
  unfold batchEvents, invalidate_, emitEvent, record, with_listener. simpl.
  destruct ((beginningZoneCount_ (listener_ w) =? length (zoneIndices_ d3))%nat)
    eqn:Hbegun; simpl;
    destruct (Z.eqb_spec (insertedEventCount_ (listener_ w)) 0) as [Hcount|Hcount];
    simpl; rewrite ?Hbegun, ?app_nil_r, <- ?app_assoc; split_and!; try done.
  all: unfold set_eventTargets_, set_insertingEvents_; simpl; by rewrite Hcount.
Qed.

Lemma beginEventBatch_spec contextInfo w :
  insertingEvents_ (listener_ w) = false ->
  exists w',
    beginEventBatch contextInfo w = Return w' /\
    journal w' = journal w ++ map CallBeginInserting (rebuiltTargets (db_ w)) /\
    listener_ w'
    = mkListener_ (rebuiltTargets (db_ w)) true
        (insertedEventCount_ (listener_ w)) (length (zoneIndices_ (db_ w)))
        Number_MAX_VALUE Number_MIN_VALUE
        (eventTypes_zoneCreate (listener_ w))
        (eventTypes_scopeLeave (listener_ w)) /\
    map zone_ (zoneIndices_ (db_ w')) = map zone_ (zoneIndices_ (db_ w)) /\
    totalEventCount_ (db_ w') = totalEventCount_ (db_ w).
Proof.
  intros Hins. unfold beginEventBatch. rewrite Hins.
  eexists; split; [reflexivity|]. cbn zeta.
  match goal with
  | |- context [fold_left _ ?ts ?w1] =>
      change (fold_left _ ts w1)
        with (callsOn (fun T _ => beginInserting) CallBeginInserting ts w1);
      destruct (callsOn_frame (fun T _ => beginInserting) CallBeginInserting
                  ts w1) as (Hj & Hl & Hc & _);
      pose proof (callsOn_zone_proj zone_ (fun T _ => beginInserting)
                    CallBeginInserting ts w1 (fun z => eq_refl)) as Hz
  end.
  rewrite Hj, Hl, Hc, Hz. done.
Qed.

Lemma endEventBatch_outside w :
  insertingEvents_ (listener_ w) = false ->
  endEventBatch w = Throw AssertionError.
Proof. intros H. unfold endEventBatch. by rewrite H. Qed.

(** *** C6: zone creation in [traceEvent] *)

Lemma createZone_spec e w :
  createZone e w =
  if sameType (eventType e) (eventTypes_zoneCreate (listener_ w))
     && negb (zonePresent (value e) (zoneIndices_ (db_ w)))
  then
    let zoneIndex := ZoneRef (length (zoneIndices_ (db_ w))) in
    mkWorld
      (set_zoneIndices_
         (zoneIndices_ (db_ w) ++ [beginInserting (newZoneIndex (value e))])
         (db_ w))
      (set_eventTargets_ (eventTargets_ (listener_ w) ++ [zoneIndex])
         (listener_ w))
      (journal w ++ [CallBeginInserting zoneIndex])
  else w.
Proof.
  unfold createZone.
  destruct (sameType _ _); [|done].
  destruct (negb _); [|done]. cbn [andb].
  unfold callBeginInserting, record, with_db, with_listener. cbn.
  f_equal. unfold set_zoneIndices_. cbn. f_equal.
  rewrite <- (Nat.add_0_r (length (zoneIndices_ (db_ w)))).
  by rewrite alter_app_r.
Qed.

Definition zoneShape (z : ZoneIndex) : option Zone * bool :=
  (zone_ z, zi_inserting z).

Lemma dispatch_spec e w :
  journal (dispatch e w)
  = journal w ++ map (fun t => CallInsertEvent t e) (eventTargets_ (listener_ w)) /\
  listener_ (dispatch e w) = listener_ w /\
  map zoneShape (zoneIndices_ (db_ (dispatch e w)))
  = map zoneShape (zoneIndices_ (db_ w)).
Proof.
  rewrite dispatch_callsOn.
  destruct (callsOn_frame (fun T _ => insertEvent e)
              (fun t => CallInsertEvent t e) (eventTargets_ (listener_ w)) w)
    as (Hj & Hl & _).
  split; [done|]. split; [done|].
  apply callsOn_zone_proj. intros z. unfold zoneShape.
  by rewrite insertEvent_zone_, insertEvent_zi_inserting.
Qed.

Lemma zoneShape_zone zs zs' :
  map zoneShape zs' = map zoneShape zs -> map zone_ zs' = map zone_ zs.
Proof.
  intros H. apply (f_equal (map fst)) in H.
  by rewrite !map_map in H.
Qed.

Lemma traceEvent_frame e w :
  insertedEventCount_ (listener_ (traceEvent e w))
  = insertedEventCount_ (listener_ w) + 1 /\
  insertingEvents_ (listener_ (traceEvent e w)) = insertingEvents_ (listener_ w) /\
  beginningZoneCount_ (listener_ (traceEvent e w))
  = beginningZoneCount_ (listener_ w) /\
  exists added,
    map zone_ (zoneIndices_ (db_ (traceEvent e w)))
    = map zone_ (zoneIndices_ (db_ w)) ++ added.
Proof.
  unfold traceEvent.
  set (w1 := countEvent e (cacheEventTypes (noteEvent e w))).
  assert (H1 : listener_ w1
               = set_eventTypes_ (eventTypes_zoneCreate (listener_ w1))
                   (eventTypes_scopeLeave (listener_ w1))
                   (set_insertedEventCount_ (insertedEventCount_ (listener_ w) + 1)
                      (set_dirtyTime (dirtyTimeStart_ (listener_ w1))
                         (dirtyTimeEnd_ (listener_ w1)) (listener_ w))) /\
               zoneIndices_ (db_ w1) = zoneIndices_ (db_ w)).
  { subst w1. unfold countEvent. by destruct (negb _). }
  destruct H1 as [Hl1 Hz1]. clearbody w1.
  destruct (dispatch_spec e (createZone e w1)) as (_ & -> & Hshape).
  apply zoneShape_zone in Hshape. rewrite Hshape.
  rewrite createZone_spec.
  destruct (_ && _); cbn; rewrite Hl1, Hz1; cbn; split_and!; try done.
  - eexists. by rewrite map_app.
  - exists []. by rewrite app_nil_r.
Qed.

(** C6.  Let [e] be an event whose type is the one registered as
    [wtf.zone#create].  When no zone index of the database is for the zone
    [e] names, [traceEvent] appends one new zone index to [zoneIndices_] and
    a reference to it to [eventTargets_], calls [beginInserting] on it, and
    only then hands [e] to the targets, the new index last: the new index is
    for the zone of [e] and is in inserting mode.  When a zone index for
    that zone exists, no index is created: the zone list holds the same
    zones, the targets are the same, and [beginInserting] is not called. *)
Theorem traceEvent_zone_create (e : Event) (w : World) :
  cacheConsistent (listener_ w) ->
  isType "wtf.zone#create" e ->
  let zones := zoneIndices_ (db_ w) in
  let targets := eventTargets_ (listener_ w) in
  let w' := traceEvent e w in
  (zonePresent (value e) zones = false ->
   exists old new,
     zoneIndices_ (db_ w') = old ++ [new] /\
     map zoneShape old = map zoneShape zones /\
     getZone new = value e /\
     zi_inserting new = true /\
     eventTargets_ (listener_ w') = targets ++ [ZoneRef (length zones)] /\
     journal w'
     = journal w
       ++ [CallBeginInserting (ZoneRef (length zones))]
       ++ map (fun t => CallInsertEvent t e)
            (targets ++ [ZoneRef (length zones)])) /\
  (zonePresent (value e) zones = true ->
   map zoneShape (zoneIndices_ (db_ w')) = map zoneShape zones /\
   length (zoneIndices_ (db_ w')) = length zones /\
   eventTargets_ (listener_ w') = targets /\
   journal w' = journal w ++ map (fun t => CallInsertEvent t e) targets).
Proof.
  intros Hc Htype zones targets w'. subst w'. unfold traceEvent.
  set (w1 := countEvent e (cacheEventTypes (noteEvent e w))).
  assert (H1 : eventTypes_zoneCreate (listener_ w1) = Some (eventType e) /\
               eventTargets_ (listener_ w1) = targets /\
               zoneIndices_ (db_ w1) = zones /\ journal w1 = journal w).
  { assert (Hc' : cacheConsistent (listener_ (noteEvent e w))) by done.
    apply cacheEventTypes_cache in Hc' as [_ Hz].
    subst w1. unfold countEvent. destruct (negb _); by rewrite <- Htype. }
  destruct H1 as (Hcache & Htargets & Hzones & Hjournal). clearbody w1.
  destruct (dispatch_spec e (createZone e w1)) as (-> & -> & Hshape).
  revert Hshape. rewrite createZone_spec, Hcache, Htargets, Hzones, Hjournal.
  unfold sameType. rewrite bool_decide_eq_true_2 by done. cbn [andb].
  intros Hshape.
  split; intros Hpresent; rewrite Hpresent in Hshape |- *; cbn in Hshape |- *.
  - rewrite map_app in Hshape.
    apply fmap_app_inv in Hshape as (old & news & Hold & Hnew & ->).
    destruct news as [|new [|? ?]]; try discriminate.
    injection Hnew as Hz Hi.
    exists old, new. split_and!; try done.
    by rewrite <- app_assoc.
  - rewrite ?Htargets, ?Hjournal. rewrite Hzones in Hshape.
    split_and!; try done.
    apply (f_equal length) in Hshape. by rewrite !length_map in Hshape.
Qed.

(** *** Runs of calls *)

Lemma step_invariant c w w' :
  cacheConsistent (listener_ w) ->
  step c w = Return w' ->
  cacheConsistent (listener_ w') /\
  getTotalEventCount w'
  = getTotalEventCount w
    + match c with
      | TraceEvent e => if excluded e then 0 else 1
      | _ => 0
      end.
Proof.
  intros Hc. unfold getTotalEventCount. destruct c; simpl.
  - intros [= <-]. split; [done|]. simpl. lia.
  - intros [= <-]. split; [done|]. simpl. lia.
  - destruct (insertingEvents_ (listener_ w)) eqn:Hins.
    + unfold beginEventBatch. by rewrite Hins.
    + destruct (beginEventBatch_spec contextInfo w Hins)
        as (w1 & -> & _ & Hl & _ & Htotal).
      intros [= <-]. split; [by rewrite Hl|lia].
  - intros [= <-]. split.
    + destruct (traceEvent_listener e w Hc) as (Hs & Hz & _).
      split; by right.
    + by apply traceEvent_total.
  - destruct (insertingEvents_ (listener_ w)) eqn:Hins.
    + destruct (endEventBatch_spec w Hins) as (w1 & -> & _ & Hl & _ & Htotal).
      intros [= <-]. split; [by rewrite Hl|lia].
    + by rewrite endEventBatch_outside.
Qed.

Lemma run_invariant calls w w' :
  cacheConsistent (listener_ w) ->
  run calls w = Return w' ->
  cacheConsistent (listener_ w') /\
  getTotalEventCount w'
  = getTotalEventCount w
    + Z.of_nat (length (List.filter (fun e => negb (excluded e)) (ingested calls))).
Proof.
  revert w; induction calls as [|c calls IH]; intros w Hc; simpl.
  - intros [= <-]. split; [done|lia].
  - destruct (step c w) as [w1|] eqn:Hstep; [|done].
    destruct (step_invariant c w w1 Hc Hstep) as [Hc1 Ht1].
    intros Hrun. destruct (IH w1 Hc1 Hrun) as [Hc' Ht'].
    split; [done|]. rewrite Ht', Ht1.
    rewrite List.filter_app, length_app.
    destruct c; simpl; try lia.
    destruct (excluded e); simpl; lia.
Qed.

Lemma filter_split {A} (p : A -> bool) (l : list A) :
  (length (List.filter (fun x => negb (p x)) l)
   = length l - length (List.filter p l))%nat /\
  (length (List.filter p l) <= length l)%nat.
Proof.
  induction l as [|x l [IH1 IH2]]; simpl; [done|].
  destruct (p x); simpl; lia.
Qed.

(** C1.  [traceEvent] adds exactly one to [totalEventCount_], except for an
    event whose type carries the [INTERNAL] flag or is the type registered
    as [wtf.scope#leave], for which the count stays; no other call of the
    listener changes the count.  So after any run of calls on a new
    database the count is the number of events handed to [traceEvent]
    minus the number of those that are excluded.  When the registry gives
    each name the type of that name, the excluded events are those with the
    [INTERNAL] flag or the type name [wtf.scope#leave]. *)
Theorem totalEventCount_counts :
  (forall e w,
     cacheConsistent (listener_ w) ->
     getTotalEventCount (traceEvent e w)
     = getTotalEventCount w + (if excluded e then 0 else 1)) /\
  (forall calls w,
     run calls newEventDatabase = Return w ->
     getTotalEventCount w
     = Z.of_nat (length (ingested calls))
       - Z.of_nat (length (List.filter excluded (ingested calls)))) /\
  (forall e,
     (forall name t, getEventType name = Some t -> et_name t = name) ->
     getEventType (et_name (eventType e)) = Some (eventType e) ->
     excluded e = true <->
     hasFlag INTERNAL (eventType e) = true \/
     et_name (eventType e) = "wtf.scope#leave"%string).
Proof.
  split; [intros e w; apply traceEvent_total|]. split.
  - intros calls w Hrun.
    assert (Hc : cacheConsistent (listener_ newEventDatabase))
      by (split; by left).
    destruct (run_invariant calls _ _ Hc Hrun) as [_ ->].
    destruct (filter_split excluded (ingested calls)) as [-> Hle].
    unfold getTotalEventCount. simpl. lia.
  - intros e Hsound Hreg. unfold excluded, sameType.
    rewrite orb_true_iff, bool_decide_eq_true.
    split; (intros [H|H]; [by left|right]).
    + symmetry in H. by apply Hsound in H.
    + by rewrite <- H, Hreg.
Qed.

(** *** C7, continued *)

Lemma traceEvents_frame es w :
  let w' := fold_left (fun w e => traceEvent e w) es w in
  insertedEventCount_ (listener_ w')
  = insertedEventCount_ (listener_ w) + Z.of_nat (length es) /\
  insertingEvents_ (listener_ w') = insertingEvents_ (listener_ w) /\
  beginningZoneCount_ (listener_ w') = beginningZoneCount_ (listener_ w) /\
  exists added,
    map zone_ (zoneIndices_ (db_ w')) = map zone_ (zoneIndices_ (db_ w)) ++ added.
Proof.
  revert w; induction es as [|e es IH]; intros w; simpl.
  - split_and!; try done; [lia|]. exists []. by rewrite app_nil_r.
  - destruct (IH (traceEvent e w)) as (Hn & Hi & Hb & added & Hz).
    destruct (traceEvent_frame e w) as (Hn1 & Hi1 & Hb1 & added1 & Hz1).
    rewrite Hn, Hi, Hb, Hz, Hn1, Hi1, Hb1, Hz1.
    split_and!; try done; [lia|].
    exists (added1 ++ added). by rewrite app_assoc.
Qed.

(** What holds of C7.  Inside a batch, [endEventBatch] returns after these
    effects, in this order: [endInserting] on every target, last target
    first; the renumber pass, zone after zone in list order, the first from
    position 1 and each next one from where the one before stopped;
    [ZONES_ADDED] with the zone indices from place [beginningZoneCount_] on,
    when the zone list has grown; [INVALIDATED], when the count of inserted
    events is not zero.  It leaves the target list empty and the count at
    zero.  For a whole batch ([beginEventBatch], then the events, then
    [endEventBatch]) on a database outside a batch whose count of inserted
    events is zero, [ZONES_ADDED] carries exactly the zone indices that were
    added after [beginEventBatch], the zones before them being those that
    were there, and [INVALIDATED] is emitted if and only if at least one
    event was traced.  Outside a batch the assertion of [endEventBatch]
    fails.  The count is zero before every batch of a run that traces its
    events inside batches; an event traced outside a batch is counted
    too, and the next batch begins with a count of one. *)
Theorem endEventBatch_effects :
  (forall w,
     insertingEvents_ (listener_ w) = true ->
     exists w',
       endEventBatch w = Return w' /\
       journal w'
       = journal w
         ++ map CallEndInserting (rev (eventTargets_ (listener_ w)))
         ++ renumberCalls 0 1 (map zoneSize (zoneIndices_ (db_ w)))
         ++ (if (beginningZoneCount_ (listener_ w)
                 =? length (zoneIndices_ (db_ w')))%nat
             then []
             else [Emit (ZONES_ADDED
                           (drop (beginningZoneCount_ (listener_ w))
                              (zoneIndices_ (db_ w'))))])
         ++ (if insertedEventCount_ (listener_ w) =? 0 then []
             else [Emit INVALIDATED]) /\
       eventTargets_ (listener_ w') = [] /\
       insertingEvents_ (listener_ w') = false /\
       insertedEventCount_ (listener_ w') = 0) /\
  (forall contextInfo es w0,
     insertingEvents_ (listener_ w0) = false ->
     insertedEventCount_ (listener_ w0) = 0 ->
     exists w1 w3,
       beginEventBatch contextInfo w0 = Return w1 /\
       let w2 := fold_left (fun w e => traceEvent e w) es w1 in
       let begun := length (zoneIndices_ (db_ w0)) in
       endEventBatch w2 = Return w3 /\
       journal w3
       = journal w2
         ++ map CallEndInserting (rev (eventTargets_ (listener_ w2)))
         ++ renumberCalls 0 1 (map zoneSize (zoneIndices_ (db_ w2)))
         ++ (if (begun =? length (zoneIndices_ (db_ w3)))%nat then []
             else [Emit (ZONES_ADDED (drop begun (zoneIndices_ (db_ w3))))])
         ++ (match es with [] => [] | _ => [Emit INVALIDATED] end) /\
       map zone_ (take begun (zoneIndices_ (db_ w3)))
       = map zone_ (zoneIndices_ (db_ w0)) /\
       eventTargets_ (listener_ w3) = [] /\
       insertingEvents_ (listener_ w3) = false /\
       insertedEventCount_ (listener_ w3) = 0) /\
  (forall w,
     insertingEvents_ (listener_ w) = false ->
     endEventBatch w = Throw AssertionError).
Proof.
  split_and!; [| |apply endEventBatch_outside].
  - intros w Hins.
    destruct (endEventBatch_spec w Hins) as (w' & Hend & Hj & Hl & _).
    exists w'. rewrite Hl. by split_and!.
  - intros contextInfo es w0 Hins Hcount.
    destruct (beginEventBatch_spec contextInfo w0 Hins)
      as (w1 & Hbegin & _ & Hl1 & Hz1 & _).
    destruct (traceEvents_frame es w1) as (Hn2 & Hi2 & Hb2 & added & Hz2).
    cbn zeta in *.
    set (w2 := fold_left (fun w e => traceEvent e w) es w1) in *.
    assert (Hins2 : insertingEvents_ (listener_ w2) = true)
      by (by rewrite Hi2, Hl1).
    destruct (endEventBatch_spec w2 Hins2) as (w3 & Hend & Hj & Hl3 & Hz3 & _).
    exists w1, w3. split; [done|]. split; [done|].
    rewrite Hj, Hl3. unfold batchEvents.
    rewrite Hb2, Hn2, Hl1. cbn [beginningZoneCount_ insertedEventCount_].
    rewrite Hcount. split_and!; try done.
    + do 4 f_equal. destruct es; [done|]. simpl length.
      destruct (Z.eqb_spec (0 + Z.of_nat (S (length es))) 0); [lia|done].
    + etransitivity; [apply (fmap_take zone_)|].
      change (zone_ <$> ?l) with (map zone_ l). rewrite Hz3, Hz2, Hz1.
      rewrite <- (length_map zone_). apply take_app_length.
Qed.

(** *** C2: the classification of a query *)

(** C2.  A query string that does not begin with a slash and holds no
    opening parenthesis takes the first branch of the classification and is
    evaluated by the event filter; any other string that has the form of a
    regular-expression literal with flags among [g], [i], [m] takes the
    second branch and is evaluated by the event filter; every other string
    is evaluated as an XPath expression over the database. *)
Theorem query_classification (expr : JsString) (startTime endTime : Q)
    (d : EventDatabase) :
  let plain :=
    ~ Classifier.beginsWith (unit "/") expr /\
    ~ Classifier.contains (unit "(") expr in
  (plain ->
   Classifier.classify expr = Classifier.Substring /\
   query expr startTime endTime d = filterQuery expr startTime endTime d) /\
  (~ plain -> Classifier.regexLiteral expr ->
   Classifier.classify expr = Classifier.Regex /\
   query expr startTime endTime d = filterQuery expr startTime endTime d) /\
  (~ plain -> ~ Classifier.regexLiteral expr ->
   Classifier.classify expr = Classifier.XPath /\
   query expr startTime endTime d = xpathQuery expr startTime endTime d).
Proof.
  intros plain. subst plain.
  pose proof (Classifier.classify_spec expr) as Hspec. cbn zeta in Hspec.
  unfold query, Classifier.isFilter.
  destruct (Classifier.classify expr); split_and!; try done;
    intros; exfalso; tauto.
Qed.

(** *** C3: the result of a filter query *)

(** The events the zone indices hand to the callback, in order. *)
Definition visited (d : EventDatabase) : list Event :=
  flat_map (fun z => forEach z Number_MIN_VALUE Number_MAX_VALUE)
    (zoneIndices_ d).

(** The events the callback keeps. *)
Definition kept (evaluator : option Evaluator) (e : Event) : bool :=
  negb (hasFlag INTERNAL (eventType e)) && accepts evaluator e.

(** What stands for a kept event in the result. *)
Definition item (e : Event) : ResultItem :=
  match class e with
  | ScopeEvent scope => ScopeItem scope
  | _ => EventItem e
  end.

(** Time ascending, then position ascending. *)
Definition itemLe (a b : ResultItem) : Prop :=
  (item_time a < item_time b)%Q \/
  ((item_time a == item_time b)%Q /\ item_position a <= item_position b).

Lemma callback_fold evaluator es result :
  fold_left (callback evaluator) es result
  = result ++ map item (List.filter (kept evaluator) es).
Proof.
  revert result; induction es as [|e es IH]; intros result; simpl.
  - by rewrite app_nil_r.
  - rewrite IH. unfold callback, kept, item.
    destruct (hasFlag INTERNAL (eventType e)); simpl; [done|].
    destruct (accepts evaluator e); simpl; [|done].
    destruct (class e); by rewrite <- app_assoc.
Qed.

Lemma collected_fold evaluator zs acc :
  fold_left
    (fun result zoneIndex =>
       fold_left (callback evaluator)
         (forEach zoneIndex Number_MIN_VALUE Number_MAX_VALUE) result)
    zs acc
  = acc ++ map item
             (List.filter (kept evaluator)
                (flat_map (fun z => forEach z Number_MIN_VALUE Number_MAX_VALUE)
                   zs)).
Proof.
  revert acc; induction zs as [|z zs IH]; intros acc; simpl.
  - by rewrite app_nil_r.
  - by rewrite IH, callback_fold, List.filter_app, map_app, app_assoc.
Qed.

Lemma collected_spec evaluator d :
  collected evaluator d = map item (List.filter (kept evaluator) (visited d)).
Proof. unfold collected, visited. by rewrite collected_fold. Qed.

Lemma comparer_le a b : Qle_bool (comparer a b) 0 = true <-> itemLe a b.
Proof.
  rewrite Qle_bool_iff. unfold comparer, itemLe.
  destruct (Qeq_bool (item_time a) (item_time b)) eqn:Heq.
  - apply Qeq_bool_iff in Heq.
    change 0%Q with (inject_Z 0). rewrite <- Zle_Qle. split.
    + intros H. right. split; [done|lia].
    + intros [H|[_ H]]; [lra|lia].
  - apply Qeq_bool_neq in Heq. split.
    + intros H. left. lra.
    + intros [H|[H _]]; [lra|done].
Qed.

Lemma itemLe_total a b : itemLe a b \/ itemLe b a.
Proof.
  unfold itemLe.
  destruct (Q_dec (item_time a) (item_time b)) as [[H|H]|H]; [tauto|tauto|].
  destruct (Z.le_ge_cases (item_position a) (item_position b)).
  - left. by right.
  - right. right. split; [lra|done].
Qed.

Lemma itemLe_trans a b c : itemLe a b -> itemLe b c -> itemLe a c.
Proof.
  unfold itemLe. intros [H1|[H1 H1']] [H2|[H2 H2']].
  - left. lra.
  - left. lra.
  - left. lra.
  - right. split; [lra|lia].
Qed.

Lemma sort_insert_sorted x l :
  StronglySorted itemLe l -> StronglySorted itemLe (sort_insert comparer x l).
Proof.
  induction 1 as [|y l Hsorted IH Hall]; simpl.
  - by repeat constructor.
  - destruct (Qle_bool (comparer x y) 0) eqn:Hle.
    + apply comparer_le in Hle. constructor; [by constructor|].
      constructor; [done|].
      eapply Forall_impl; [exact Hall|]. intros z Hz.
      by apply (itemLe_trans x y z).
    + assert (Hyx : itemLe y x).
      { destruct (itemLe_total x y) as [H|H]; [|done].
        apply comparer_le in H. congruence. }
      constructor; [done|].
      apply Forall_forall. intros z Hz.
      rewrite sort_insert_perm in Hz.
      apply elem_of_cons in Hz as [->|Hz]; [done|].
      rewrite Forall_forall in Hall. by apply Hall.
Qed.

Lemma sort_sorted l : StronglySorted itemLe (sort comparer l).
Proof.
  induction l as [|x l IH]; simpl; [constructor|].
  by apply sort_insert_sorted.
Qed.

Lemma filterResult_perm evaluator d :
  filterResult evaluator d
  ≡ₚ map item (List.filter (kept evaluator) (visited d)).
Proof. unfold filterResult. by rewrite sort_perm, collected_spec. Qed.

Lemma filterResult_elem evaluator d r :
  r ∈ filterResult evaluator d <->
  exists e, e ∈ visited d /\ kept evaluator e = true /\ r = item e.
Proof.
  rewrite filterResult_perm, list_elem_of_fmap. split.
  - intros (e & -> & He). apply list_elem_of_In, List.filter_In in He as [He Hk].
    exists e. split_and!; try done. by apply list_elem_of_In.
  - intros (e & He & Hk & ->). exists e. split; [done|].
    apply list_elem_of_In, List.filter_In. split; [|done].
    by apply list_elem_of_In.
Qed.

Lemma kept_true evaluator e :
  kept evaluator e = true <->
  hasFlag INTERNAL (eventType e) = false /\ accepts evaluator e = true.
Proof. unfold kept. rewrite andb_true_iff, negb_true_iff. done. Qed.

(** C3.  For a query that is classified as a filter and whose filter string
    parses, the array [result] of the filter branch holds, for each event
    that the zone indices hand over, that has no [INTERNAL] flag and that
    the evaluator accepts (every such event when the evaluator is [null]),
    one element: the scope of the event when the event is a scope event, the
    event itself otherwise.  It holds nothing else: no event with the
    [INTERNAL] flag, no event the evaluator rejects, no scope event in place
    of its scope.  It is sorted by time, then by position.  It is the result
    the query returns, and with an evaluator the query does return it. *)
Theorem filter_query_result (expr : JsString) (startTime endTime : Q)
    (d : EventDatabase) (parseResult : FilterResult)
    (evaluator : option Evaluator) :
  Classifier.isFilter expr = true ->
  setFromString expr = (parseResult, evaluator) ->
  parseResult <> FAILED ->
  let rows := filterResult evaluator d in
  rows ≡ₚ map item (List.filter (kept evaluator) (visited d)) /\
  (forall e, EventItem e ∈ rows ->
     e ∈ visited d /\ hasFlag INTERNAL (eventType e) = false /\
     accepts evaluator e = true /\ forall scope, class e <> ScopeEvent scope) /\
  (forall scope, ScopeItem scope ∈ rows ->
     exists e, e ∈ visited d /\ class e = ScopeEvent scope /\
               hasFlag INTERNAL (eventType e) = false /\
               accepts evaluator e = true) /\
  (evaluator = None ->
   rows ≡ₚ map item (List.filter
                       (fun e => negb (hasFlag INTERNAL (eventType e)))
                       (visited d))) /\
  StronglySorted itemLe rows /\
  (forall ev, evaluator = Some ev ->
     query expr startTime endTime d
     = Return (mkQueryResult expr (CompiledFilter (toString ev))
                 (endTime - startTime) (FilterRows rows))) /\
  (forall r, query expr startTime endTime d = Return r ->
     qr_result r = FilterRows rows).
Proof.
  intros Hfilter Hparse Hok rows. subst rows. split_and!.
  - apply filterResult_perm.
  - intros e He. apply filterResult_elem in He as (e' & He' & Hk & Heq).
    apply kept_true in Hk as [Hi Ha]. unfold item in Heq.
    destruct (class e') eqn:Hclass; try discriminate;
      injection Heq as ->; split_and!; try done; congruence.
  - intros scope Hs. apply filterResult_elem in Hs as (e & He & Hk & Heq).
    apply kept_true in Hk as [Hi Ha]. unfold item in Heq.
    destruct (class e) eqn:Hclass; try discriminate.
    injection Heq as ->. by exists e.
  - intros ->. rewrite filterResult_perm.
    unfold kept, accepts.
    assert (Heq : forall l : list Event,
      List.filter (fun e => negb (hasFlag INTERNAL (eventType e)) && true) l
      = List.filter (fun e => negb (hasFlag INTERNAL (eventType e))) l).
    { intros l. apply List.filter_ext. intros e. apply andb_true_r. }
    by rewrite Heq.
  - apply sort_sorted.
  - intros ev ->. unfold query, filterQuery. rewrite Hfilter, Hparse.
    by destruct parseResult.
  - intros r. unfold query, filterQuery. rewrite Hfilter, Hparse.
    destruct parseResult; [done| |]; destruct evaluator; try done;
      by intros [= <-].
Qed.

(** *** C9: what a filter query gives back *)

Lemma query_parse_failed expr startTime endTime d evaluator :
  Classifier.isFilter expr = true ->
  setFromString expr = (FAILED, evaluator) ->
  query expr startTime endTime d = Throw (ThrownString "Invalid regex.").
Proof. intros Hf Hp. unfold query, filterQuery. by rewrite Hf, Hp. Qed.

Lemma query_returns expr startTime endTime d parseResult ev :
  Classifier.isFilter expr = true ->
  setFromString expr = (parseResult, Some ev) ->
  parseResult <> FAILED ->
  query expr startTime endTime d
  = Return (mkQueryResult expr (CompiledFilter (toString ev))
              (endTime - startTime) (FilterRows (filterResult (Some ev) d))).
Proof.
  intros Hf Hp Hok. unfold query, filterQuery. rewrite Hf, Hp.
  by destruct parseResult.
Qed.

(** With a filter that parses and holds no evaluator, the query throws
    where it reads the text of the evaluator. *)
Lemma query_null_evaluator expr startTime endTime d parseResult :
  Classifier.isFilter expr = true ->
  setFromString expr = (parseResult, None) ->
  parseResult <> FAILED ->
  query expr startTime endTime d = Throw TypeError.
Proof.
  intros Hf Hp Hok. unfold query, filterQuery. rewrite Hf, Hp.
  by destruct parseResult.
Qed.


(** ** Further properties of the listener *)

(** *** What [traceEvent] does to the zones, the targets and the journal *)

(** [traceEvent] on [e] creates a zone index: the type of [e] is the cached
    [wtf.zone#create] type (looked up on this call when the cache is empty)
    and no zone index is for the zone of [e]. *)
Definition creates (e : Event) (w : World) : bool :=
  sameType (eventType e) (eventTypes_zoneCreate (listener_ (cacheEventTypes w)))
  && negb (zonePresent (value e) (zoneIndices_ (db_ w))).

Lemma zonePresent_elem zone zs :
  zonePresent zone zs = true <-> zone ∈ map getZone zs.
Proof.
  unfold zonePresent. rewrite existsb_exists, list_elem_of_fmap. split.
  - intros (z & Hz & Heq). apply bool_decide_eq_true in Heq.
    exists z. split; [done|]. by apply list_elem_of_In.
  - intros (z & -> & Hz). exists z. split; [by apply list_elem_of_In|].
    by apply bool_decide_eq_true.
Qed.

Lemma traceEvent_shape e w :
  let zones := zoneIndices_ (db_ w) in
  let w' := traceEvent e w in
  map zoneShape (zoneIndices_ (db_ w'))
  = map zoneShape zones ++ (if creates e w then [(value e, true)] else []) /\
  eventTargets_ (listener_ w')
  = eventTargets_ (listener_ w)
    ++ (if creates e w then [ZoneRef (length zones)] else []) /\
  journal w'
  = journal w
    ++ (if creates e w then [CallBeginInserting (ZoneRef (length zones))]
        else [])
    ++ map (fun t => CallInsertEvent t e) (eventTargets_ (listener_ w')) /\
  map eventName_ (eventIndices_ (db_ w')) = map eventName_ (eventIndices_ (db_ w)) /\
  sources_ (db_ w') = sources_ (db_ w).
Proof.
  intros zones w'. subst w'. unfold traceEvent, creates.
  set (w1 := countEvent e (cacheEventTypes (noteEvent e w))).
  assert (H1 : eventTypes_zoneCreate (listener_ w1)
               = eventTypes_zoneCreate (listener_ (cacheEventTypes w)) /\
               eventTargets_ (listener_ w1) = eventTargets_ (listener_ w) /\
               zoneIndices_ (db_ w1) = zones /\ journal w1 = journal w /\
               eventIndices_ (db_ w1) = eventIndices_ (db_ w) /\
               sources_ (db_ w1) = sources_ (db_ w)).
  { subst w1. unfold countEvent. by destruct (negb _). }
  destruct H1 as (Hcache & Htargets & Hzones & Hjournal & Hindices & Hsources).
  clearbody w1.
  destruct (dispatch_spec e (createZone e w1)) as (Hj & Hl & Hshape).
  rewrite dispatch_callsOn in *.
  destruct (callsOn_frame (fun T _ => insertEvent e)
              (fun t => CallInsertEvent t e)
              (eventTargets_ (listener_ (createZone e w1))) (createZone e w1))
    as (_ & _ & _ & Hs).
  pose proof (callsOn_index_proj eventName_ (fun T _ => insertEvent e)
                (fun t => CallInsertEvent t e)
                (eventTargets_ (listener_ (createZone e w1))) (createZone e w1))
    as Hn.
  rewrite Hj, Hl, Hshape, Hs, Hn; clear Hj Hl Hshape Hs Hn.
  - rewrite createZone_spec, Hcache, Htargets, Hzones, Hjournal.
    destruct (_ && _); cbn; rewrite ?Hindices, ?Hsources, ?Htargets, ?Hjournal.
    + rewrite map_app, <- app_assoc. by split_and!.
    + rewrite ?app_nil_r, ?Hzones. by split_and!.
  - intros x. simpl.
    by destruct (String.eqb (et_name (eventType e)) (eventName_ x)).
Qed.

Lemma zoneShape_zone' zs shapes :
  map zoneShape zs = shapes -> map zone_ zs = map fst shapes.
Proof. intros <-. by rewrite map_map. Qed.

(** *** The zones of the zone indices are pairwise distinct *)

Lemma map_getZone zs : map getZone zs = map zone_ zs.
Proof. done. Qed.

Lemma step_zones_unique c w w' :
  step c w = Return w' ->
  NoDup (map zone_ (zoneIndices_ (db_ w))) ->
  NoDup (map zone_ (zoneIndices_ (db_ w'))).
Proof.
  destruct c; simpl.
  - by intros [= <-].
  - by intros [= <-].
  - destruct (insertingEvents_ (listener_ w)) eqn:Hins.
    + unfold beginEventBatch. by rewrite Hins.
    + destruct (beginEventBatch_spec contextInfo w Hins)
        as (w1 & -> & _ & _ & Hz & _).
      intros [= <-]. by rewrite Hz.
  - intros [= <-] Hnodup.
    destruct (traceEvent_shape e w) as (Hshape & _).
    apply zoneShape_zone' in Hshape. rewrite map_app, map_map in Hshape.
    change (map (fun x => (zoneShape x).1) ?l) with (map zone_ l) in Hshape.
    rewrite Hshape.
    unfold creates. destruct (sameType _ _); simpl; [|by rewrite app_nil_r].
    destruct (zonePresent _ _) eqn:Hpresent; simpl; [by rewrite app_nil_r|].
    apply NoDup_app. split_and!; [done| |apply NoDup_singleton].
    intros zone Hzone Hin. apply list_elem_of_singleton in Hin as ->.
    rewrite <- map_getZone in Hzone. apply zonePresent_elem in Hzone.
    congruence.
  - destruct (insertingEvents_ (listener_ w)) eqn:Hins.
    + destruct (endEventBatch_spec w Hins) as (w1 & -> & _ & _ & Hz & _).
      intros [= <-]. by rewrite Hz.
    + by rewrite endEventBatch_outside.
Qed.

(** In every database that a run of listener calls builds from a new one,
    no two zone indices are for the same zone: a zone is indexed once,
    however often its create event arrives. *)
Theorem zones_indexed_once calls w :
  run calls newEventDatabase = Return w ->
  NoDup (map getZone (zoneIndices_ (db_ w))).
Proof.
  rewrite map_getZone.
  assert (Hrun : forall w0,
    NoDup (map zone_ (zoneIndices_ (db_ w0))) ->
    run calls w0 = Return w -> NoDup (map zone_ (zoneIndices_ (db_ w)))).
  { induction calls as [|c calls IH]; intros w0 Hnodup; simpl.
    - by intros [= <-].
    - destruct (step c w0) as [w1|] eqn:Hstep; [|done].
      apply IH. by apply (step_zones_unique c w0). }
  apply Hrun. simpl. apply NoDup_nil_2.
Qed.


(** *** The target list inside a batch *)

(** The targets on which a stretch of the journal calls [beginInserting],
    and those on which it calls [endInserting], in the order of the
    calls. *)
Definition begunIn (j : list Effect) : list TargetRef :=
  omap (fun x => match x with CallBeginInserting t => Some t | _ => None end) j.
Definition endedIn (j : list Effect) : list TargetRef :=
  omap (fun x => match x with CallEndInserting t => Some t | _ => None end) j.

Lemma begunIn_inserts e ts :
  begunIn (map (fun t => CallInsertEvent t e) ts) = [] /\
  endedIn (map (fun t => CallInsertEvent t e) ts) = [].
Proof. by induction ts. Qed.

Lemma begunIn_begins ts :
  begunIn (map CallBeginInserting ts) = ts /\
  endedIn (map CallBeginInserting ts) = [].
Proof.
  induction ts as [|t ts [IH1 IH2]]; [done|].
  split; [|done]. change (t :: begunIn (map CallBeginInserting ts) = t :: ts).
  by rewrite IH1.
Qed.

Lemma begunIn_ends ts :
  begunIn (map CallEndInserting ts) = [] /\
  endedIn (map CallEndInserting ts) = ts.
Proof.
  induction ts as [|t ts [IH1 IH2]]; [done|].
  split; [done|]. change (t :: endedIn (map CallEndInserting ts) = t :: ts).
  by rewrite IH2.
Qed.

Lemma begunIn_renumberCalls n p sizes :
  begunIn (renumberCalls n p sizes) = [] /\
  endedIn (renumberCalls n p sizes) = [].
Proof. revert n p; induction sizes; intros n p; [done|]. simpl. apply IHsizes. Qed.

Lemma begunIn_batchEvents b n zs :
  begunIn (batchEvents b n zs) = [] /\ endedIn (batchEvents b n zs) = [].
Proof.
  unfold batchEvents. by destruct (b =? length zs)%nat, (n =? 0).
Qed.

Lemma begunIn_app j1 j2 : begunIn (j1 ++ j2) = begunIn j1 ++ begunIn j2.
Proof. apply omap_app. Qed.

Lemma endedIn_app j1 j2 : endedIn (j1 ++ j2) = endedIn j1 ++ endedIn j2.
Proof. apply omap_app. Qed.

Lemma traceEvents_shape es w :
  let w' := fold_left (fun w e => traceEvent e w) es w in
  let n := length (zoneIndices_ (db_ w)) in
  let n' := length (zoneIndices_ (db_ w')) in
  (n <= n')%nat /\
  exists j,
    journal w' = journal w ++ j /\
    endedIn j = [] /\
    begunIn j = map ZoneRef (seq n (n' - n)) /\
    eventTargets_ (listener_ w') = eventTargets_ (listener_ w) ++ begunIn j.
Proof.
  revert w; induction es as [|e es IH]; intros w; simpl.
  - split; [done|]. exists []. rewrite Nat.sub_diag, !app_nil_r. done.
  - destruct (IH (traceEvent e w)) as (Hle & j & Hj & Hended & Hbegun & Htargets).
    destruct (traceEvent_shape e w) as (Hshape & Ht1 & Hj1 & _).
    cbn zeta in *.
    apply (f_equal length) in Hshape.
    rewrite length_app, !length_map in Hshape.
    set (n := length (zoneIndices_ (db_ w))) in *.
    set (n1 := length (zoneIndices_ (db_ (traceEvent e w)))) in *.
    set (n' := length (zoneIndices_ (db_ (fold_left _ es (traceEvent e w))))) in *.
    destruct (begunIn_inserts e (eventTargets_ (listener_ (traceEvent e w))))
      as [Hb He].
    destruct (creates e w); simpl in Hshape.
    + split; [lia|].
      eexists. split; [by rewrite Hj, Hj1, <- !app_assoc|].
      rewrite !endedIn_app, !begunIn_app, Hended, Hbegun, Hb, He.
      rewrite Htargets, Ht1, Hbegun, <- app_assoc. split_and!; try done.
      all: replace (n' - n)%nat with (S (n' - n1)) by lia;
        replace n1 with (S n) by lia; done.
    + split; [lia|].
      eexists. split; [by rewrite Hj, Hj1, <- !app_assoc|].
      rewrite !endedIn_app, !begunIn_app, Hended, Hbegun, Hb, He.
      rewrite Htargets, Ht1, Hbegun, !app_nil_r. split_and!; try done.
      all: by replace n1 with n by lia.
Qed.

Lemma NoDup_targets b k m :
  NoDup ([SummaryRef] ++ map ZoneRef (seq 0 b) ++ map EventIndexRef (seq 0 k)
         ++ map ZoneRef (seq b m)).
Proof.
  assert (Hinj1 : Inj eq eq ZoneRef) by (intros ? ? [= ->]; done).
  assert (Hinj2 : Inj eq eq EventIndexRef) by (intros ? ? [= ->]; done).
  apply NoDup_app. split_and!.
  - apply NoDup_singleton.
  - intros t Ht. apply list_elem_of_singleton in Ht as ->.
    rewrite !elem_of_app, !list_elem_of_fmap.
    intros [(? & ? & _)|[(? & ? & _)|(? & ? & _)]]; discriminate.
  - apply NoDup_app. split_and!.
    + apply NoDup_fmap_2; [done|apply NoDup_seq].
    + intros t Ht. apply list_elem_of_fmap in Ht as (i & -> & Hi).
      rewrite elem_of_app, !list_elem_of_fmap.
      intros [(? & ? & _)|(j & [= <-] & Hj)]; [discriminate|].
      apply elem_of_seq in Hi, Hj. lia.
    + apply NoDup_app. split_and!.
      * apply NoDup_fmap_2; [done|apply NoDup_seq].
      * intros t Ht. apply list_elem_of_fmap in Ht as (i & -> & Hi).
        rewrite list_elem_of_fmap. intros (? & ? & _). discriminate.
      * apply NoDup_fmap_2; [done|apply NoDup_seq].
Qed.

Lemma batch_targets_aux (contextInfo : ContextInfo) (es : list Event) (w0 : World) :
  insertingEvents_ (listener_ w0) = false ->
  exists w1,
    beginEventBatch contextInfo w0 = Return w1 /\
    journal w1 = journal w0 ++ map CallBeginInserting (rebuiltTargets (db_ w0)) /\
    listener_ w1
    = mkListener_ (rebuiltTargets (db_ w0)) true
        (insertedEventCount_ (listener_ w0)) (length (zoneIndices_ (db_ w0)))
        Number_MAX_VALUE Number_MIN_VALUE
        (eventTypes_zoneCreate (listener_ w0))
        (eventTypes_scopeLeave (listener_ w0)) /\
    NoDup (eventTargets_
             (listener_ (fold_left (fun w e => traceEvent e w) es w1))).
Proof.
  intros Hins.
  destruct (beginEventBatch_spec contextInfo w0 Hins)
    as (w1 & Hbegin & Hj1 & Hl1 & Hz1 & _).
  exists w1. split_and!; try done.
  destruct (traceEvents_shape es w1) as (Hle & j & _ & _ & Hbegun & Htargets).
  cbn zeta in *. rewrite Htargets, Hbegun, Hl1. cbn.
  apply (f_equal length) in Hz1. rewrite !length_map in Hz1. rewrite Hz1.
  unfold rebuiltTargets. rewrite <- !app_assoc. apply NoDup_targets.
Qed.

(** Inside a batch the target list is, in this order: the summary index,
    the zone indices the database had when the batch began, its event
    indices, then the zone indices created since, in the order of their
    creation.  So no target is listed twice, every zone index of the
    database is a target, and the event indices that are targets are the
    ones the database had when the batch began. *)
Theorem batch_targets (contextInfo : ContextInfo) (es : list Event) (w0 : World) :
  insertingEvents_ (listener_ w0) = false ->
  exists w1,
    beginEventBatch contextInfo w0 = Return w1 /\
    let w2 := fold_left (fun w e => traceEvent e w) es w1 in
    let b := length (zoneIndices_ (db_ w0)) in
    let k := length (eventIndices_ (db_ w0)) in
    let n := length (zoneIndices_ (db_ w2)) in
    let targets := eventTargets_ (listener_ w2) in
    targets
    = [SummaryRef] ++ map ZoneRef (seq 0 b) ++ map EventIndexRef (seq 0 k)
      ++ map ZoneRef (seq b (n - b)) /\
    NoDup targets /\
    SummaryRef ∈ targets /\
    (forall i, ZoneRef i ∈ targets <-> (i < n)%nat) /\
    (forall i, EventIndexRef i ∈ targets <-> (i < k)%nat).
Proof.
  intros Hins.
  destruct (beginEventBatch_spec contextInfo w0 Hins)
    as (w1 & Hbegin & _ & Hl1 & Hz1 & _).
  exists w1. split; [done|].
  destruct (traceEvents_shape es w1) as (Hle & j & _ & _ & Hbegun & Htargets).
  cbn zeta in *. rewrite Hbegun, Hl1 in Htargets. cbn in Htargets.
  apply (f_equal length) in Hz1. rewrite !length_map in Hz1.
  rewrite Hz1 in Hle, Htargets.
  set (b := length (zoneIndices_ (db_ w0))) in *.
  set (n := length (zoneIndices_ (db_ (fold_left _ es w1)))) in *.
  assert (Heq : eventTargets_ (listener_ (fold_left (fun w e => traceEvent e w) es w1))
                = [SummaryRef] ++ map ZoneRef (seq 0 b)
                  ++ map EventIndexRef (seq 0 (length (eventIndices_ (db_ w0))))
                  ++ map ZoneRef (seq b (n - b))).
  { rewrite Htargets. unfold rebuiltTargets. fold b.
    by rewrite <- !app_assoc. }
  rewrite Heq. split_and!; try done.
  - apply NoDup_targets.
  - apply elem_of_app. left. by apply list_elem_of_singleton.
  - intros i. rewrite !elem_of_app, list_elem_of_singleton, !list_elem_of_fmap.
    split.
    + intros [?|[(x & [= <-] & Hx)|[(x & ? & _)|(x & [= <-] & Hx)]]];
        try discriminate; apply elem_of_seq in Hx; lia.
    + intros Hi. destruct (decide (i < b)%nat).
      * right. left. exists i. split; [done|]. apply elem_of_seq. lia.
      * right. right. right. exists i. split; [done|]. apply elem_of_seq. lia.
  - intros i. rewrite !elem_of_app, list_elem_of_singleton, !list_elem_of_fmap.
    split.
    + intros [?|[(x & ? & _)|[(x & [= <-] & Hx)|(x & ? & _)]]];
        try discriminate. apply elem_of_seq in Hx. lia.
    + intros Hi. right. right. left. exists i. split; [done|].
      apply elem_of_seq. lia.
Qed.

(** Over a whole batch ([beginEventBatch], the events, [endEventBatch]),
    [beginInserting] is called once on each target of the batch, in the
    order of the target list, and [endInserting] is called once on each, in
    exactly the reverse order of the [beginInserting] calls. *)
Theorem batch_begin_end_balanced (contextInfo : ContextInfo) (es : list Event)
    (w0 : World) :
  insertingEvents_ (listener_ w0) = false ->
  exists w1 w3 j,
    beginEventBatch contextInfo w0 = Return w1 /\
    let w2 := fold_left (fun w e => traceEvent e w) es w1 in
    endEventBatch w2 = Return w3 /\
    journal w3 = journal w0 ++ j /\
    begunIn j = eventTargets_ (listener_ w2) /\
    endedIn j = rev (begunIn j) /\
    NoDup (begunIn j).
Proof.
  intros Hins.
  destruct (batch_targets_aux contextInfo es w0 Hins)
    as (w1 & Hbegin & Hj1 & Hl1 & Hnodup).
  destruct (traceEvents_shape es w1) as (_ & j2 & Hj2 & He2 & _ & Ht2).
  destruct (traceEvents_frame es w1) as (_ & Hi2 & _).
  cbn zeta in *.
  set (w2 := fold_left (fun w e => traceEvent e w) es w1) in *.
  assert (Hins2 : insertingEvents_ (listener_ w2) = true)
    by (by rewrite Hi2, Hl1).
  destruct (endEventBatch_spec w2 Hins2) as (w3 & Hend & Hj3 & _).
  exists w1, w3. eexists. split; [done|]. split; [done|].
  split; [by rewrite Hj3, Hj2, Hj1, <- !app_assoc|].
  rewrite !begunIn_app, !endedIn_app, He2.
  rewrite (proj1 (begunIn_begins _)), (proj2 (begunIn_begins _)).
  rewrite (proj1 (begunIn_ends _)), (proj2 (begunIn_ends _)).
  rewrite (proj1 (begunIn_renumberCalls _ _ _)), (proj2 (begunIn_renumberCalls _ _ _)).
  rewrite (proj1 (begunIn_batchEvents _ _ _)), (proj2 (begunIn_batchEvents _ _ _)).
  rewrite !app_nil_r. cbn [app].
  rewrite Hl1 in Ht2. cbn [eventTargets_] in Ht2. by rewrite <- Ht2.
Qed.


(** *** Which runs of calls return *)

(** The batches of a run are well bracketed, from a listener that is
    ([inserting]) or is not inside a batch. *)
Fixpoint bracketed (inserting : bool) (calls : list Call) : bool :=
  match calls with
  | [] => true
  | BeginEventBatch _ :: rest => negb inserting && bracketed true rest
  | EndEventBatch :: rest => inserting && bracketed false rest
  | _ :: rest => bracketed inserting rest
  end.

(** A run of listener calls returns exactly when its batches are well
    bracketed: no [beginEventBatch] inside a batch and no [endEventBatch]
    outside one; [traceEvent], [sourceAdded] and [sourceError] are accepted
    anywhere, also outside a batch.  A run that does not return stops on a
    failed assertion. *)
Theorem run_returns_iff_bracketed (calls : list Call) (w : World) :
  if bracketed (insertingEvents_ (listener_ w)) calls
  then exists w', run calls w = Return w'
  else run calls w = Throw AssertionError.
Proof.
  revert w; induction calls as [|c calls IH]; intros w; simpl.
  - by exists w.
  - destruct c; simpl.
    + apply (IH (sourceAdded timebase contextInfo w)).
    + apply (IH (sourceError message opt_detail w)).
    + destruct (insertingEvents_ (listener_ w)) eqn:Hins; simpl.
      * unfold beginEventBatch. by rewrite Hins.
      * destruct (beginEventBatch_spec contextInfo w Hins)
          as (w1 & -> & _ & Hl & _).
        specialize (IH w1). by rewrite Hl in IH.
    + specialize (IH (traceEvent e w)).
      destruct (traceEvent_frame e w) as (_ & Hi & _). by rewrite Hi in IH.
    + destruct (insertingEvents_ (listener_ w)) eqn:Hins; simpl.
      * destruct (endEventBatch_spec w Hins) as (w1 & -> & _ & Hl & _).
        specialize (IH w1). by rewrite Hl in IH.
      * by rewrite endEventBatch_outside.
Qed.

(** Every [traceEvent] of the run is inside a batch, from a listener that
    is ([inserting]) or is not inside one. *)
Fixpoint eventsInBatches (inserting : bool) (calls : list Call) : bool :=
  match calls with
  | [] => true
  | BeginEventBatch _ :: rest => eventsInBatches true rest
  | EndEventBatch :: rest => eventsInBatches false rest
  | TraceEvent _ :: rest => inserting && eventsInBatches inserting rest
  | _ :: rest => eventsInBatches inserting rest
  end.

(** A run that traces its events inside batches leaves the count of inserted
    events at zero whenever it leaves the listener outside a batch: every
    batch of such a run begins with a zero count. *)
Lemma count_zero_outside_batches calls w w' :
  run calls w = Return w' ->
  eventsInBatches (insertingEvents_ (listener_ w)) calls = true ->
  (insertingEvents_ (listener_ w) = false ->
   insertedEventCount_ (listener_ w) = 0) ->
  insertingEvents_ (listener_ w') = false ->
  insertedEventCount_ (listener_ w') = 0.
Proof.
  revert w; induction calls as [|c calls IH]; intros w Hrun Hin Hzero Hout.
  - simpl in Hrun. injection Hrun as <-. by apply Hzero.
  - destruct c; simpl in Hrun, Hin.
    + by apply (IH (sourceAdded timebase contextInfo w)).
    + by apply (IH (sourceError message opt_detail w)).
    + destruct (insertingEvents_ (listener_ w)) eqn:Hins.
      * unfold beginEventBatch in Hrun. by rewrite Hins in Hrun.
      * destruct (beginEventBatch_spec contextInfo w Hins)
          as (w1 & Hbegin & _ & Hl & _).
        rewrite Hbegin in Hrun. apply (IH w1); try done.
        -- by rewrite Hl.
        -- by rewrite Hl.
    + apply andb_true_iff in Hin as [Hins Hin].
      destruct (traceEvent_frame e w) as (_ & Hi & _).
      apply (IH (traceEvent e w)); try done.
      * by rewrite Hi.
      * rewrite Hi, Hins. done.
    + destruct (insertingEvents_ (listener_ w)) eqn:Hins.
      * destruct (endEventBatch_spec w Hins) as (w1 & Hend & _ & Hl & _).
        rewrite Hend in Hrun. apply (IH w1); try done.
        -- by rewrite Hl.
        -- by rewrite Hl.
      * by rewrite endEventBatch_outside in Hrun.
Qed.

(** *** The dirty range *)

Lemma traceEvent_dirty e w :
  dirtyTimeStart_ (listener_ (traceEvent e w))
  = (if Qltb (time e) (dirtyTimeStart_ (listener_ w)) then time e
     else dirtyTimeStart_ (listener_ w)) /\
  dirtyTimeEnd_ (listener_ (traceEvent e w))
  = (if Qltb (dirtyTimeEnd_ (listener_ w)) (time e) then time e
     else dirtyTimeEnd_ (listener_ w)).
Proof.
  unfold traceEvent.
  destruct (dispatch_spec e (createZone e (countEvent e (cacheEventTypes
              (noteEvent e w))))) as (_ & -> & _).
  destruct (createZone_frame e (countEvent e (cacheEventTypes (noteEvent e w))))
    as [-> _].
  assert (Hl : listener_ (countEvent e (cacheEventTypes (noteEvent e w)))
               = listener_ (cacheEventTypes (noteEvent e w))).
  { unfold countEvent. by destruct (negb _). }
  by rewrite Hl.
Qed.

Lemma Qltb_lt a b : Qltb a b = true <-> (a < b)%Q.
Proof.
  unfold Qltb. rewrite negb_true_iff. split.
  - intros H. apply Qnot_le_lt. intros Hle. apply Qle_bool_iff in Hle. congruence.
  - intros H. destruct (Qle_bool b a) eqn:Hle; [|done].
    apply Qle_bool_iff in Hle. lra.
Qed.

Lemma traceEvent_dirty_covers e w :
  (dirtyTimeStart_ (listener_ (traceEvent e w)) <= time e)%Q /\
  (time e <= dirtyTimeEnd_ (listener_ (traceEvent e w)))%Q /\
  (dirtyTimeStart_ (listener_ (traceEvent e w)) <= dirtyTimeStart_ (listener_ w))%Q /\
  (dirtyTimeEnd_ (listener_ w) <= dirtyTimeEnd_ (listener_ (traceEvent e w)))%Q.
Proof.
  destruct (traceEvent_dirty e w) as [-> ->].
  destruct (Qltb (time e) (dirtyTimeStart_ (listener_ w))) eqn:Hs;
    destruct (Qltb (dirtyTimeEnd_ (listener_ w)) (time e)) eqn:He;
    try apply Qltb_lt in Hs; try apply Qltb_lt in He;
    try (assert (~ (time e < dirtyTimeStart_ (listener_ w))%Q)
           by (rewrite <- Qltb_lt; congruence));
    try (assert (~ (dirtyTimeEnd_ (listener_ w) < time e)%Q)
           by (rewrite <- Qltb_lt; congruence));
    split_and!; lra.
Qed.

(** After any number of [traceEvent] calls the dirty range of the listener
    covers the time of every event traced: the start was only lowered and
    the end only raised.  Each bound is what it was before the calls or the
    time of one of the events. *)
Theorem dirty_range_covers (es : list Event) (w : World) :
  let w' := fold_left (fun w e => traceEvent e w) es w in
  (forall e, e ∈ es ->
     (dirtyTimeStart_ (listener_ w') <= time e)%Q /\
     (time e <= dirtyTimeEnd_ (listener_ w'))%Q) /\
  (dirtyTimeStart_ (listener_ w') <= dirtyTimeStart_ (listener_ w))%Q /\
  (dirtyTimeEnd_ (listener_ w) <= dirtyTimeEnd_ (listener_ w'))%Q /\
  (dirtyTimeStart_ (listener_ w') = dirtyTimeStart_ (listener_ w) \/
   exists e, e ∈ es /\ dirtyTimeStart_ (listener_ w') = time e) /\
  (dirtyTimeEnd_ (listener_ w') = dirtyTimeEnd_ (listener_ w) \/
   exists e, e ∈ es /\ dirtyTimeEnd_ (listener_ w') = time e).
Proof.
  revert w; induction es as [|e es IH]; intros w; simpl.
  - split_and!; try lra; [|by left|by left].
    intros e He. by apply elem_of_nil in He.
  - destruct (IH (traceEvent e w)) as (Hall & Hs & He & Hs' & He').
    destruct (traceEvent_dirty_covers e w) as (H1 & H2 & H3 & H4).
    destruct (traceEvent_dirty e w) as [Hds Hde].
    split_and!; try lra.
    + intros e' Hin. apply elem_of_cons in Hin as [->|Hin]; [lra|by apply Hall].
    + destruct Hs' as [->|(e' & Hin & ->)].
      * rewrite Hds.
        destruct (Qltb (time e) (dirtyTimeStart_ (listener_ w))); [right|by left].
        exists e. split; [left|done].
      * right. exists e'. split; [by right|done].
    + destruct He' as [->|(e' & Hin & ->)].
      * rewrite Hde.
        destruct (Qltb (dirtyTimeEnd_ (listener_ w)) (time e)); [right|by left].
        exists e. split; [left|done].
      * right. exists e'. split; [by right|done].
Qed.

(** *** Events traced outside a batch *)

(** [traceEvent] has no assertion on the batch: called while the target list
    is empty, as it is in a new database and after every [endEventBatch],
    on an event that creates no zone, it hands the event to no index.  The
    indices and the journal stay as they were; only the counts move: the
    event is counted, and the next [endEventBatch] will announce it. *)
Theorem traceEvent_without_targets (e : Event) (w : World) :
  eventTargets_ (listener_ w) = [] ->
  creates e w = false ->
  let w' := traceEvent e w in
  summaryIndex_ (db_ w') = summaryIndex_ (db_ w) /\
  zoneIndices_ (db_ w') = zoneIndices_ (db_ w) /\
  eventIndices_ (db_ w') = eventIndices_ (db_ w) /\
  journal w' = journal w /\
  eventTargets_ (listener_ w') = [] /\
  insertedEventCount_ (listener_ w') = insertedEventCount_ (listener_ w) + 1.
Proof.
  intros Htargets Hcreates w'. subst w'.
  destruct (traceEvent_frame e w) as (Hcount & _).
  split_and!; [| | | | |exact Hcount]; clear Hcount;
    unfold traceEvent, dispatch;
    rewrite createZone_spec;
    set (w1 := countEvent e (cacheEventTypes (noteEvent e w)));
    assert (H1 : eventTypes_zoneCreate (listener_ w1)
                 = eventTypes_zoneCreate (listener_ (cacheEventTypes w)) /\
                 eventTargets_ (listener_ w1) = [] /\
                 db_ w1 = db_ w \/
                 eventTypes_zoneCreate (listener_ w1)
                 = eventTypes_zoneCreate (listener_ (cacheEventTypes w)) /\
                 eventTargets_ (listener_ w1) = [] /\
                 db_ w1 = set_totalEventCount_ (totalEventCount_ (db_ w) + 1) (db_ w))
      by (subst w1; unfold countEvent; destruct (negb _); [right|left];
          by rewrite <- Htargets);
    assert (Hj : journal w1 = journal w)
      by (subst w1; unfold countEvent; by destruct (negb _));
    clearbody w1; unfold creates in Hcreates;
    destruct H1 as [(Hc & Ht & Hd)|(Hc & Ht & Hd)];
    rewrite Hc, Hd; cbn [zoneIndices_ set_totalEventCount_];
    rewrite Hcreates, Ht; cbn; by rewrite ?Hd, ?Hj.
Qed.


(** *** An event index created inside a batch *)

Lemma onTarget_index_other (method : forall T, IEventTarget T -> T -> T) t d k :
  t <> EventIndexRef k ->
  eventIndices_ (onTarget method t d) !! k = eventIndices_ d !! k.
Proof.
  destruct t as [|n|n]; simpl; try done.
  intros Hne. apply list_lookup_alter_ne. congruence.
Qed.

Lemma callsOn_index_other (method : forall T, IEventTarget T -> T -> T)
    effect ts w k :
  EventIndexRef k ∉ ts ->
  eventIndices_ (db_ (callsOn method effect ts w)) !! k
  = eventIndices_ (db_ w) !! k.
Proof.
  revert w; induction ts as [|t ts IH]; intros w Hk; [done|].
  apply not_elem_of_cons in Hk as [Hne Hk].
  unfold callsOn in *. simpl. rewrite IH by done. simpl.
  by apply onTarget_index_other.
Qed.

Lemma traceEvent_index_other e w k :
  EventIndexRef k ∉ eventTargets_ (listener_ w) ->
  eventIndices_ (db_ (traceEvent e w)) !! k = eventIndices_ (db_ w) !! k /\
  EventIndexRef k ∉ eventTargets_ (listener_ (traceEvent e w)).
Proof.
  intros Hk.
  assert (Hk' : EventIndexRef k ∉ eventTargets_ (listener_ (traceEvent e w))).
  { destruct (traceEvent_shape e w) as (_ & -> & _).
    rewrite elem_of_app. intros [H|H]; [done|].
    destruct (creates e w); [|by apply elem_of_nil in H].
    by apply list_elem_of_singleton in H. }
  split; [|done]. revert Hk'. unfold traceEvent.
  set (w1 := countEvent e (cacheEventTypes (noteEvent e w))).
  assert (H1 : eventIndices_ (db_ w1) = eventIndices_ (db_ w))
    by (subst w1; unfold countEvent; by destruct (negb _)).
  clearbody w1.
  destruct (dispatch_spec e (createZone e w1)) as (_ & -> & _).
  rewrite dispatch_callsOn. intros Hk'.
  rewrite callsOn_index_other by done.
  rewrite createZone_spec. by destruct (_ && _); cbn; rewrite H1.
Qed.

Lemma traceEvents_index_other es w k :
  EventIndexRef k ∉ eventTargets_ (listener_ w) ->
  let w' := fold_left (fun w e => traceEvent e w) es w in
  eventIndices_ (db_ w') !! k = eventIndices_ (db_ w) !! k /\
  EventIndexRef k ∉ eventTargets_ (listener_ w').
Proof.
  revert w; induction es as [|e es IH]; intros w Hk; simpl; [done|].
  destruct (traceEvent_index_other e w k Hk) as [Heq Hk1].
  destruct (IH (traceEvent e w) Hk1) as [Heq' Hk'].
  split; [by rewrite Heq', Heq|done].
Qed.

Lemma renumber__others w :
  eventIndices_ (db_ (renumber_ w)) = eventIndices_ (db_ w) /\
  sources_ (db_ (renumber_ w)) = sources_ (db_ w) /\
  summaryIndex_ (db_ (renumber_ w)) = summaryIndex_ (db_ w).
Proof.
  unfold renumber_. change (0 + 1) with 1.
  by destruct (renumber_from 0 1 (zoneIndices_ (db_ w))).
Qed.

Lemma endEventBatch_unfold w w' :
  endEventBatch w = Return w' ->
  db_ w'
  = db_ (renumber_
           (callsOn (fun T _ => endInserting) CallEndInserting
              (rev (eventTargets_ (listener_ w)))
              (with_listener (set_insertingEvents_ false) w))).
Proof.
  unfold endEventBatch.
  destruct (negb (insertingEvents_ (listener_ w))); [done|].
  intros [= <-].
  repeat match goal with
         | |- context [if ?b then _ else _] => destruct b
         end; reflexivity.
Qed.

(** An event index created while a batch is open is not among the targets
    of that batch: whatever events are traced in the rest of the batch,
    the index holds none of them when the batch ends, and it has not been
    put into inserting mode.  It is a target from the next
    [beginEventBatch] on. *)
Theorem event_index_created_in_batch (eventName : string) (es : list Event)
    (w : World) :
  insertingEvents_ (listener_ w) = true ->
  getEventIndex eventName (db_ w) = None ->
  (forall n, EventIndexRef n ∈ eventTargets_ (listener_ w) ->
             (n < length (eventIndices_ (db_ w)))%nat) ->
  let k := length (eventIndices_ (db_ w)) in
  let w1 := with_db (fun d => (createEventIndex eventName d).1) w in
  let w2 := fold_left (fun w e => traceEvent e w) es w1 in
  exists w3,
    endEventBatch w2 = Return w3 /\
    eventIndices_ (db_ w3) !! k = Some (newEventIndex eventName) /\
    (EventIndexRef k ∉ eventTargets_ (listener_ w2)) /\
    (EventIndexRef k ∈ rebuiltTargets (db_ w3)).
Proof.
  intros Hins Hnone Hvalid k w1 w2.
  assert (Hk : EventIndexRef k ∉ eventTargets_ (listener_ w1)).
  { intros Hin. apply Hvalid in Hin. subst k. lia. }
  assert (Hnew : eventIndices_ (db_ w1) !! k = Some (newEventIndex eventName)).
  { subst w1 k. unfold with_db. cbn [db_]. unfold createEventIndex.
    rewrite Hnone. simpl.
    by rewrite lookup_app_r, Nat.sub_diag. }
  destruct (traceEvents_index_other es w1 k Hk) as [Heq Hk2].
  destruct (traceEvents_frame es w1) as (_ & Hi2 & _).
  fold w2 in Heq, Hk2, Hi2.
  assert (Hins2 : insertingEvents_ (listener_ w2) = true) by (by rewrite Hi2).
  destruct (endEventBatch_spec w2 Hins2) as (w3 & Hend & _).
  exists w3. split; [done|].
  assert (Hlookup : eventIndices_ (db_ w3) !! k = Some (newEventIndex eventName)).
  { rewrite (endEventBatch_unfold w2 w3 Hend).
    rewrite (proj1 (renumber__others _)).
    rewrite callsOn_index_other; [by rewrite <- Hnew, <- Heq|].
    simpl. intros Hin. apply Hk2.
    apply list_elem_of_In, in_rev. by apply list_elem_of_In. }
  split_and!; try done.
  unfold rebuiltTargets. rewrite !elem_of_app. right. right.
  apply list_elem_of_fmap. exists k. split; [done|].
  apply elem_of_seq. apply lookup_lt_Some in Hlookup. lia.
Qed.

(** *** The sources *)

Lemma step_sources c w w' :
  step c w = Return w' ->
  sources_ (db_ w')
  = sources_ (db_ w)
    ++ match c with SourceAdded _ contextInfo => [contextInfo] | _ => [] end.
Proof.
  destruct c; simpl.
  - by intros [= <-].
  - intros [= <-]. by rewrite app_nil_r.
  - unfold beginEventBatch. destruct (insertingEvents_ (listener_ w)); [done|].
    intros [= <-]. rewrite app_nil_r. cbn zeta.
    match goal with
    | |- context [fold_left _ ?ts ?w1] =>
        change (fold_left _ ts w1)
          with (callsOn (fun T _ => beginInserting) CallBeginInserting ts w1);
        destruct (callsOn_frame (fun T _ => beginInserting) CallBeginInserting
                    ts w1) as (_ & _ & _ & Hs)
    end.
    by rewrite Hs.
  - intros [= <-]. rewrite app_nil_r.
    by destruct (traceEvent_shape e w) as (_ & _ & _ & _ & ->).
  - intros Hend. rewrite (endEventBatch_unfold w w' Hend), app_nil_r.
    rewrite (proj1 (proj2 (renumber__others _))).
    by destruct (callsOn_frame (fun T _ => endInserting) CallEndInserting
                   (rev (eventTargets_ (listener_ w)))
                   (with_listener (set_insertingEvents_ false) w))
      as (_ & _ & _ & ->).
Qed.

(** The contexts that [sourceAdded] was called with, in the order of the
    calls. *)
Definition addedSources (calls : list Call) : list ContextInfo :=
  omap (fun c => match c with SourceAdded _ contextInfo => Some contextInfo
                            | _ => None end) calls.

(** After any run of listener calls on a new database, the sources of the
    database are the contexts given to [sourceAdded], one entry per call, in
    the order of the calls; no other call of the listener touches them. *)
Theorem sources_in_call_order (calls : list Call) (w : World) :
  run calls newEventDatabase = Return w ->
  sources_ (db_ w) = addedSources calls.
Proof.
  assert (Hrun : forall w0, run calls w0 = Return w ->
                 sources_ (db_ w) = sources_ (db_ w0) ++ addedSources calls).
  { induction calls as [|c calls IH]; intros w0; simpl.
    - intros [= <-]. by rewrite app_nil_r.
    - destruct (step c w0) as [w1|] eqn:Hstep; [|done].
      intros Hrun. rewrite (IH w1 Hrun), (step_sources c w0 w1 Hstep).
      rewrite <- app_assoc. f_equal. by destruct c. }
  intros H. by rewrite (Hrun _ H).
Qed.

(** *** The XPath branch of [query] *)

(** A query that is not classified as a filter is never the empty string,
    so the [.] that [query] would put in place of an empty expression is
    never used: the XPath engine is given the query text itself, and what it
    throws is thrown by [query]. *)
Theorem xpath_query_gets_the_text (expr : JsString) (startTime endTime : Q)
    (d : EventDatabase) :
  Classifier.isFilter expr = false ->
  expr <> [] /\
  query expr startTime endTime d
  = match xpathEvaluate expr d with
    | Throw err => Throw err
    | Return (xexpr, value) =>
        Return (mkQueryResult expr (CompiledXPath xexpr)
                  (endTime - startTime) (XPathRows value))
    end.
Proof.
  intros Hfilter. unfold query, xpathQuery. rewrite Hfilter.
  by destruct expr.
Qed.

(** *** Looking event indices up *)

Lemma getEventIndex_from_first eventName n xs k x :
  getEventIndex_from eventName n xs = Some (k, x) ->
  forall j y, (j < k - n)%nat -> xs !! j = Some y -> getEventName y <> eventName.
Proof.
  revert n; induction xs as [|z xs IH]; intros n; simpl; [done|].
  destruct (String.eqb_spec (getEventName z) eventName) as [Heq|Hne].
  - intros [= <- <-] j y Hj. lia.
  - intros H [|j] y Hj; simpl.
    + by intros [= <-].
    + apply (IH (S n) H). apply getEventIndex_from_Some in H as (Hle & _). lia.
Qed.

(** [getEventIndex] returns the first event index of the name, in the
    order of creation, and [null] exactly when the database has no event
    index of that name. *)
Theorem getEventIndex_first_of_name (eventName : string) (d : EventDatabase) :
  match getEventIndex eventName d with
  | Some (k, x) =>
      eventIndices_ d !! k = Some x /\ getEventName x = eventName /\
      forall j y, (j < k)%nat -> eventIndices_ d !! j = Some y ->
                  getEventName y <> eventName
  | None => Forall (fun x => getEventName x <> eventName) (eventIndices_ d)
  end.
Proof.
  unfold getEventIndex.
  destruct (getEventIndex_from eventName 0 (eventIndices_ d)) as [[k x]|] eqn:H.
  - pose proof (getEventIndex_from_first _ _ _ _ _ H) as Hfirst.
    apply getEventIndex_from_Some in H as (_ & Hx & Hname).
    rewrite Nat.sub_0_r in *. by split_and!.
  - by apply getEventIndex_from_None in H.
Qed.

(** After [createEventIndex], [getEventIndex] finds under the name the very
    index the deferred carries; the lookups of the other names give what
    they gave before; and when the names of the event indices were pairwise
    distinct they still are. *)
Theorem createEventIndex_then_getEventIndex (eventName : string)
    (d : EventDatabase) :
  let '(d1, succeed r) := createEventIndex eventName d in
  getEventIndex eventName d1 = Some r /\
  (forall other, other <> eventName ->
     option_map snd (getEventIndex other d1)
     = option_map snd (getEventIndex other d) /\
     option_map fst (getEventIndex other d1)
     = option_map fst (getEventIndex other d)) /\
  (NoDup (map getEventName (eventIndices_ d)) ->
   NoDup (map getEventName (eventIndices_ d1))).
Proof.
  unfold createEventIndex.
  destruct (getEventIndex eventName d) as [r|] eqn:Hget; [by split_and!|].
  unfold getEventIndex in *. simpl. split_and!.
  - rewrite getEventIndex_from_app, Hget. simpl. by rewrite String.eqb_refl.
  - intros other Hother. rewrite getEventIndex_from_app.
    destruct (getEventIndex_from other 0 (eventIndices_ d)); [done|].
    simpl. destruct (String.eqb_spec eventName other); [congruence|done].
  - intros Hnodup. rewrite map_app. apply NoDup_app. split_and!; [done| |].
    + intros name Hname Hin. apply list_elem_of_singleton in Hin as ->.
      apply getEventIndex_from_None in Hget.
      apply list_elem_of_fmap in Hname as (x & Hx & Hin).
      rewrite Forall_forall in Hget. by apply (Hget x Hin).
    + apply NoDup_singleton.
Qed.


(** *** The database as the root of the node tree *)

(** The nodes below a zone index (scopes and events), whose classes are
    outside this development. *)
Context {Descendant : Type}.

(** A node that the database gathers: a zone index, or a node that a zone
    index gathers below itself. *)
Inductive Node :=
| ZoneNode (z : ZoneIndex)
| BelowZone (x : Descendant).

(** [wgxpath.Node.attrMatches(node, name, value)], and the nodes that
    [zoneIndex.gatherDescendantNodes(nodeset, opt_test, opt_attrName,
    opt_attrValue)] adds to the node set, in order. *)
Variable attrMatches : Node -> string -> option string -> bool.
Variable zoneGatherDescendantNodes :
  ZoneIndex -> option (Node -> bool) -> option string -> option string ->
  list Node.

(** An optional string argument used as a condition: given and not empty. *)
Definition given (s : option string) : bool :=
  match s with
  | Some s => negb (String.eqb s "")
  | None => false
  end.

(** [!opt_test || opt_test.matches(zoneIndex)]; [opt_test] is the [matches]
    method of the node test, when a test is given. *)
Definition passesTest (opt_test : option (Node -> bool)) (zoneIndex : ZoneIndex)
    : bool :=
  match opt_test with
  | None => true
  | Some matches => matches (ZoneNode zoneIndex)
  end.

(** [!opt_attrName || wgxpath.Node.attrMatches(zoneIndex, opt_attrName,
    opt_attrValue)]. *)
Definition passesAttr (opt_attrName opt_attrValue : option string)
    (zoneIndex : ZoneIndex) : bool :=
  match opt_attrName with
  | Some name =>
      if given opt_attrName
      then attrMatches (ZoneNode zoneIndex) name opt_attrValue
      else true
  | None => true
  end.

(** The two nested conditions under which a zone index is added. *)
Definition addsZone (opt_test : option (Node -> bool))
    (opt_attrName opt_attrValue : option string) (zoneIndex : ZoneIndex) : bool :=
  if passesTest opt_test zoneIndex
  then if passesAttr opt_attrName opt_attrValue zoneIndex then true else false
  else false.

(** [gatherChildNodes] and [gatherDescendantNodes]: the node set after the
    call; [nodeset.add] puts a node at the end. *)
Definition gatherChildNodes (nodeset : list Node)
    (opt_test : option (Node -> bool)) (opt_attrName opt_attrValue : option string)
    (d : EventDatabase) : list Node :=
  fold_left
    (fun nodeset zoneIndex =>
       if addsZone opt_test opt_attrName opt_attrValue zoneIndex
       then nodeset ++ [ZoneNode zoneIndex] else nodeset)
    (zoneIndices_ d) nodeset.

Definition gatherDescendantNodes (nodeset : list Node)
    (opt_test : option (Node -> bool)) (opt_attrName opt_attrValue : option string)
    (d : EventDatabase) : list Node :=
  fold_left
    (fun nodeset zoneIndex =>
       let nodeset :=
         if addsZone opt_test opt_attrName opt_attrValue zoneIndex
         then nodeset ++ [ZoneNode zoneIndex] else nodeset in
       nodeset
       ++ zoneGatherDescendantNodes zoneIndex opt_test opt_attrName opt_attrValue)
    (zoneIndices_ d) nodeset.

Lemma gatherChildNodes_filter nodeset opt_test opt_attrName opt_attrValue zs :
  fold_left
    (fun nodeset zoneIndex =>
       if addsZone opt_test opt_attrName opt_attrValue zoneIndex
       then nodeset ++ [ZoneNode zoneIndex] else nodeset) zs nodeset
  = nodeset
    ++ map ZoneNode
         (List.filter (addsZone opt_test opt_attrName opt_attrValue) zs).
Proof.
  revert nodeset; induction zs as [|z zs IH]; intros nodeset; simpl.
  - by rewrite app_nil_r.
  - rewrite IH. destruct (addsZone _ _ _ z); [|done].
    by rewrite <- app_assoc.
Qed.

Lemma gatherDescendantNodes_added nodeset opt_test opt_attrName opt_attrValue zs :
  exists added,
    fold_left
      (fun nodeset zoneIndex =>
         let nodeset :=
           if addsZone opt_test opt_attrName opt_attrValue zoneIndex
           then nodeset ++ [ZoneNode zoneIndex] else nodeset in
         nodeset
         ++ zoneGatherDescendantNodes zoneIndex opt_test opt_attrName
              opt_attrValue) zs nodeset
    = nodeset ++ added /\
    map ZoneNode (List.filter (addsZone opt_test opt_attrName opt_attrValue) zs)
      `sublist_of` added.
Proof.
  revert nodeset; induction zs as [|z zs IH]; intros nodeset.
  - exists []. by rewrite app_nil_r.
  - cbn [fold_left List.filter]. cbn zeta.
    destruct (addsZone opt_test opt_attrName opt_attrValue z).
    + destruct (IH ((nodeset ++ [ZoneNode z])
                    ++ zoneGatherDescendantNodes z opt_test opt_attrName
                         opt_attrValue)) as (added & Heq & Hsub).
      exists ([ZoneNode z]
              ++ zoneGatherDescendantNodes z opt_test opt_attrName opt_attrValue
              ++ added).
      split; [etransitivity; [exact Heq|by rewrite <- !app_assoc]|].
      simpl. apply sublist_skip. by apply sublist_inserts_l.
    + destruct (IH (nodeset
                    ++ zoneGatherDescendantNodes z opt_test opt_attrName
                         opt_attrValue)) as (added & Heq & Hsub).
      exists (zoneGatherDescendantNodes z opt_test opt_attrName opt_attrValue
              ++ added).
      split; [etransitivity; [exact Heq|by rewrite <- !app_assoc]|].
      by apply sublist_inserts_l.
Qed.

(** [gatherChildNodes] adds to the end of the node set, in the order of the
    zone list, the zone indices that pass the node test (all, without a
    test) and the attribute test (all, without an attribute name or with an
    empty one), and nothing else; with no test and no attribute name it adds
    every zone index.  [gatherDescendantNodes] adds the same zone indices in
    the same order, with the nodes each zone index gathers in between: the
    children it would gather are a sublist of the descendants. *)
Theorem gathered_children_among_descendants (nodeset : list Node)
    (opt_test : option (Node -> bool)) (opt_attrName opt_attrValue : option string)
    (d : EventDatabase) :
  let children :=
    map ZoneNode (List.filter (addsZone opt_test opt_attrName opt_attrValue)
                    (zoneIndices_ d)) in
  gatherChildNodes nodeset opt_test opt_attrName opt_attrValue d
  = nodeset ++ children /\
  (exists descendants,
     gatherDescendantNodes nodeset opt_test opt_attrName opt_attrValue d
     = nodeset ++ descendants /\
     children `sublist_of` descendants) /\
  (opt_test = None -> given opt_attrName = false ->
   children = map ZoneNode (zoneIndices_ d)) /\
  (zoneIndices_ d = [] ->
   gatherDescendantNodes nodeset opt_test opt_attrName opt_attrValue d = nodeset).
Proof.
  intros children. subst children. split_and!.
  - apply gatherChildNodes_filter.
  - apply gatherDescendantNodes_added.
  - intros -> Hname. f_equal.
    assert (Hall : forall z, addsZone None opt_attrName opt_attrValue z = true).
    { intros z. unfold addsZone, passesTest, passesAttr. rewrite Hname.
      by destruct opt_attrName. }
    induction (zoneIndices_ d) as [|z zs IH]; simpl; [done|].
    by rewrite Hall, IH.
  - unfold gatherDescendantNodes. by intros ->.
Qed.

End EventDatabase.
End EventDatabase.

(** ** A worked scenario

    The first seed scenario of the specification, on concrete collaborators:
    one zone, the scope [A] from 10 to 50 and, nested in it, the scope [B]
    from 20 to 30. *)

Module Scenario.
Import EventDatabase.

(** Argument values and scopes are strings here: a scope is known by the
    name of its enter event. *)
Abbreviation Event := (Event string string).
Abbreviation World := (@World string string string).

(** The flags of [wtf.data.EventFlag] that the scenario uses. *)
Definition INTERNAL : Z := Z.shiftl 1 3.
Definition BUILTIN : Z := Z.shiftl 1 5.

Definition scopeEnterType : EventType :=
  mkEventType "wtf.scope#enter" BUILTIN [mkArg "name" "ascii"].
Definition scopeLeaveType : EventType :=
  mkEventType "wtf.scope#leave" (Z.lor BUILTIN INTERNAL) [].
Definition zoneCreateType : EventType :=
  mkEventType "wtf.zone#create" (Z.lor BUILTIN INTERNAL)
    [mkArg "zoneId" "uint16"; mkArg "name" "ascii"].
Definition appendFlowDataType : EventType :=
  mkEventType "wtf.flow#appendData" (Z.lor BUILTIN INTERNAL)
    [mkArg "id" "flowId"; mkArg "name" "ascii"; mkArg "value" "any"].
Definition customFlowDataType : EventType :=
  mkEventType "my.flow#data" 0
    [mkArg "id" "flowId"; mkArg "url" "ascii"; mkArg "status" "ascii"].

Definition registry : list EventType :=
  [scopeEnterType; scopeLeaveType; zoneCreateType; appendFlowDataType;
   customFlowDataType].

Definition getEventType (name : string) : option EventType :=
  List.find (fun t => String.eqb (et_name t) name) registry.

Definition zoneStores (zone : option Zone) (e : Event) : bool := true.
Definition isFrame (e : Event) : bool := false.

Definition zoneCreate : Event :=
  mkEvent 0 zoneCreateType {["name" := "Z"%string]} 0 (ZoneEvent 1%nat).
Definition enterA : Event :=
  mkEvent 10 scopeEnterType {["name" := "A"%string]} 0 (ScopeEvent "A"%string).
Definition enterB : Event :=
  mkEvent 20 scopeEnterType {["name" := "B"%string]} 0 (ScopeEvent "B"%string).
Definition leaveB : Event := mkEvent 30 scopeLeaveType ∅ 0 PlainEvent.
Definition leaveA : Event := mkEvent 50 scopeLeaveType ∅ 0 PlainEvent.

Definition calls : list (@Call string string string) :=
  [BeginEventBatch "source"%string; TraceEvent zoneCreate; TraceEvent enterA;
   TraceEvent enterB; TraceEvent leaveB; TraceEvent leaveA; EndEventBatch].

Definition fromReturn (c : Completion World) : World :=
  match c with
  | Return w => w
  | Throw _ => newEventDatabase
  end.

(** The database after the batch. *)
Definition final : World :=
  fromReturn (run INTERNAL getEventType zoneStores isFrame calls newEventDatabase).

(** A filter for the scenario: the empty string clears the filter, which
    then holds no evaluator; a string that begins with a slash must be a
    regular-expression literal; any other string is looked for as the
    [name] argument of the event. *)
Definition text (s : JsString) : string :=
  string_of_list_ascii (map ascii_of_N s).

Definition setFromString (s : JsString) : FilterResult * option Evaluator :=
  if bool_decide (s = []) then (NO_CHANGE, None)
  else if bool_decide (Classifier.charAt s 0 = str "/") then
    if Classifier.test Classifier.filterRegExp s
    then (UPDATED,
          Some (mkEvaluator
                  (fun e : Event =>
                     bool_decide (args e !! "name"%string = Some "B"%string))
                  (text s)))
    else (FAILED, None)
  else
    (UPDATED,
     Some (mkEvaluator
             (fun e : Event =>
                bool_decide (args e !! "name"%string = Some (text s)))
             (text s))).

(** The events of a zone index within a time range. *)
Definition forEach (z : ZoneIndex) (timeStart timeEnd : Q) : list Event :=
  List.filter
    (fun e => Qle_bool timeStart (time e) && Qle_bool (time e) timeEnd)
    (zi_events z).

Definition xpathEvaluate (expr : JsString)
    (d : @EventDatabase string string string)
    : Completion (JsString * list string) :=
  Return (expr, []).

Definition scopeTime (s : string) : Q :=
  if String.eqb s "A" then 10 else 20.
Definition scopePosition (s : string) : Z :=
  if String.eqb s "A" then 2 else 3.

Abbreviation run := (run INTERNAL getEventType zoneStores isFrame).
Abbreviation traceEvent := (traceEvent INTERNAL getEventType zoneStores isFrame).
Abbreviation endEventBatch := (endEventBatch zoneStores isFrame).
Abbreviation query :=
  (query INTERNAL setFromString forEach xpathEvaluate scopeTime scopePosition).
Abbreviation filterResult :=
  (filterResult INTERNAL forEach scopeTime scopePosition).

(** The database inside the batch, before any event and before its end. *)
Definition begun : World := fromReturn (run (take 1 calls) newEventDatabase).
Definition beforeEnd : World := fromReturn (run (take 6 calls) newEventDatabase).

Lemma run_final : run calls newEventDatabase = Return final.
Proof. vm_compute. reflexivity. Qed.

(** *** The classification on examples *)

Example classify_examples :
  map (fun s => Classifier.classify (str s))
    ["A"; ""; "/^B$/"; "/a/gim"; "//"; "/a/x"; "count(/zone)"; "a(b"]%string
  = [Classifier.Substring; Classifier.Substring; Classifier.Regex;
     Classifier.Regex; Classifier.XPath; Classifier.XPath; Classifier.XPath;
     Classifier.XPath].
Proof. vm_compute. reflexivity. Qed.

(** *** The scenario, evaluated *)

Example final_totalEventCount : getTotalEventCount final = 2.
Proof. vm_compute. reflexivity. Qed.

Example final_positions :
  map (fun e => (et_name (eventType e), position e)) (allEvents (db_ final))
  = [("wtf.zone#create", 1); ("wtf.scope#enter", 2); ("wtf.scope#enter", 3);
     ("wtf.scope#leave", 4); ("wtf.scope#leave", 5)]%string.
Proof. vm_compute. reflexivity. Qed.

Example final_journal_tail :
  drop 12 (journal final)
  = [CallEndInserting (ZoneRef 0); CallEndInserting SummaryRef;
     CallRenumber 0 1; Emit (ZONES_ADDED (zoneIndices_ (db_ final)));
     Emit INVALIDATED].
Proof. vm_compute. reflexivity. Qed.

Example query_A :
  query (str "A") 0 1 (db_ final)
  = Return (mkQueryResult (str "A") (CompiledFilter "A") 1
              (FilterRows [ScopeItem "A"%string])).
Proof. vm_compute. reflexivity. Qed.

Example query_B_regex :
  query (str "/^B$/") 0 1 (db_ final)
  = Return (mkQueryResult (str "/^B$/") (CompiledFilter "/^B$/") 1
              (FilterRows [ScopeItem "B"%string])).
Proof. vm_compute. reflexivity. Qed.

Example query_bad_regex :
  query (str "/x") 0 1 (db_ final)
  = Return (mkQueryResult (str "/x") (CompiledXPath (str "/x")) 1
              (XPathRows [])).
Proof. vm_compute. reflexivity. Qed.

Example createEventIndex_twice :
  let '(d1, r1) := createEventIndex "wtf.scope#enter" (db_ final) in
  let '(d2, r2) := createEventIndex "wtf.scope#enter" d1 in
  r1 = succeed (0%nat, newEventIndex "wtf.scope#enter") /\ r2 = r1 /\ d2 = d1.
Proof. vm_compute. done. Qed.

Example final_getFirstFrameIndex : getFirstFrameIndex (db_ final) = None.
Proof. vm_compute. reflexivity. Qed.

Example getFirstFrameIndex_second_zone :
  getFirstFrameIndex
    (mkEventDatabase ([] : list string) 0 (mkSummaryIndex false [])
       [newZoneIndex (Some 1%nat);
        mkZoneIndex (Some 2%nat) false [enterA] (mkFrameIndex [enterA]);
        mkZoneIndex (Some 3%nat) false [enterB] (mkFrameIndex [enterB])]
       [])
  = Some (mkFrameIndex [enterA]).
Proof. vm_compute. reflexivity. Qed.

(** *** C1, C3, C6, C7 on the scenario *)

Lemma totalEventCount_counts_witness :
  getTotalEventCount final
  = Z.of_nat (length (ingested calls))
    - Z.of_nat (length (List.filter (excluded INTERNAL getEventType)
                          (ingested calls))).
Proof.
  exact (proj1 (proj2 (totalEventCount_counts INTERNAL getEventType zoneStores
                         isFrame)) calls final run_final).
Defined.

Lemma filter_query_result_witness :
  StronglySorted (itemLe scopeTime scopePosition)
    (filterResult (snd (setFromString (str "A"))) (db_ final)) /\
  exists r, query (str "A") 0 1 (db_ final) = Return r /\
            qr_result r
            = FilterRows (filterResult (snd (setFromString (str "A")))
                            (db_ final)).
Proof.
  assert (Hfilter : Classifier.isFilter (str "A") = true) by reflexivity.
  assert (Hparse : setFromString (str "A")
                   = (UPDATED, snd (setFromString (str "A"))))
    by reflexivity.
  assert (Hok : UPDATED <> FAILED) by discriminate.
  destruct (filter_query_result INTERNAL setFromString forEach xpathEvaluate
              scopeTime scopePosition (str "A") 0 1 (db_ final) UPDATED
              (snd (setFromString (str "A"))) Hfilter Hparse Hok)
    as (_ & _ & _ & _ & Hsorted & Hreturn & _).
  split; [exact Hsorted|].
  eexists. split; [apply Hreturn; reflexivity|reflexivity].
Defined.

Lemma traceEvent_zone_create_witness :
  exists old new,
    zoneIndices_ (db_ (traceEvent zoneCreate begun)) = old ++ [new] /\
    getZone new = Some 1%nat /\ zi_inserting new = true /\
    eventTargets_ (listener_ (traceEvent zoneCreate begun))
    = [SummaryRef; ZoneRef 0].
Proof.
  assert (Hcache : cacheConsistent getEventType (listener_ begun))
    by (split; left; reflexivity).
  assert (Htype : isType getEventType "wtf.zone#create" zoneCreate)
    by reflexivity.
  destruct (traceEvent_zone_create INTERNAL getEventType zoneStores isFrame
              zoneCreate begun Hcache Htype) as [Hnew _].
  destruct (Hnew eq_refl) as (old & new & Hzones & _ & Hzone & Hins & Htargets & _).
  exists old, new. split; [exact Hzones|]. split; [exact Hzone|].
  split; [exact Hins|exact Htargets].
Defined.

Lemma endEventBatch_effects_witness :
  exists w',
    endEventBatch beforeEnd = Return w' /\
    eventTargets_ (listener_ w') = [] /\
    insertedEventCount_ (listener_ w') = 0.
Proof.
  assert (Hins : insertingEvents_ (listener_ beforeEnd) = true)
    by (vm_compute; reflexivity).
  destruct (proj1 (@endEventBatch_effects string string string INTERNAL
                     getEventType zoneStores isFrame) beforeEnd Hins)
    as (w' & Hend & _ & Htargets & _ & Hcount).
  exists w'. split; [exact Hend|]. split; [exact Htargets|exact Hcount].
Defined.

(** *** C9: the query that clears the filter *)

(** C9.  A query that is classified as a filter and whose filter string
    parses should return a result.  The empty string is classified as a
    filter, the filter parses it and then holds no evaluator, and [query]
    throws a [TypeError] where it reads the text of the evaluator, after it
    has built the result. *)
Theorem query_empty_string_throws :
  Classifier.isFilter (str "") = true /\
  setFromString (str "") = (NO_CHANGE, None) /\
  query (str "") 0 1 (db_ final) = Throw TypeError.
Proof.
  split; [reflexivity|]. split; [reflexivity|].
  by apply (query_null_evaluator INTERNAL setFromString forEach xpathEvaluate
              scopeTime scopePosition (str "") 0 1 (db_ final) NO_CHANGE).
Qed.

(** *** A batch after a stray event *)

(** An event traced before the batch, then a batch without events. *)
Definition strayCalls : list (@Call string string string) :=
  [TraceEvent enterA; BeginEventBatch "source"%string; EndEventBatch].

(** C7 fails on a batch that follows an event traced outside a batch:
    [traceEvent], unlike [beginEventBatch] and [endEventBatch], has no
    assertion on the batch, and counts the event; the batch that follows
    inserts no event, and its [endEventBatch] emits [INVALIDATED] all the
    same.  The same batch on a new database emits nothing. *)
Theorem endEventBatch_after_stray_event :
  ingested (drop 1 strayCalls) = [] /\
  (exists w,
     run strayCalls newEventDatabase = Return w /\
     journal w = [CallBeginInserting SummaryRef; CallEndInserting SummaryRef;
                  Emit INVALIDATED]) /\
  (exists w,
     run (drop 1 strayCalls) newEventDatabase = Return w /\
     journal w = [CallBeginInserting SummaryRef; CallEndInserting SummaryRef]).
Proof.
  split; [reflexivity|]. split.
  - eexists. split; vm_compute; reflexivity.
  - eexists. split; vm_compute; reflexivity.
Qed.


(** *** Two sources, and a zone created more than once *)

Definition zoneCreateY : Event :=
  mkEvent 60 zoneCreateType {["name" := "Y"%string]} 0 (ZoneEvent 2%nat).

Definition twoSources : list (@Call string string string) :=
  [SourceAdded 0 "source"%string; BeginEventBatch "source"%string;
   TraceEvent zoneCreate; TraceEvent zoneCreate; TraceEvent enterA;
   EndEventBatch;
   SourceAdded 5 "other"%string; BeginEventBatch "other"%string;
   TraceEvent zoneCreate; TraceEvent zoneCreateY; TraceEvent zoneCreateY;
   EndEventBatch].

Definition afterTwoSources : World :=
  fromReturn (run twoSources newEventDatabase).

Lemma run_twoSources : run twoSources newEventDatabase = Return afterTwoSources.
Proof. vm_compute. reflexivity. Qed.

Example twoSources_zones :
  map value (ingested twoSources)
  = [Some 1%nat; Some 1%nat; None; Some 1%nat; Some 2%nat; Some 2%nat] /\
  map getZone (zoneIndices_ (db_ afterTwoSources)) = [Some 1%nat; Some 2%nat].
Proof. vm_compute. done. Qed.

Example twoSources_sources :
  sources_ (db_ afterTwoSources) = ["source"; "other"]%string.
Proof. vm_compute. reflexivity. Qed.

(** *** The further properties on the scenario *)

Lemma zones_indexed_once_witness :
  NoDup (map getZone (zoneIndices_ (db_ afterTwoSources))).
Proof.
  exact (zones_indexed_once INTERNAL getEventType zoneStores isFrame twoSources
           afterTwoSources run_twoSources).
Defined.

Lemma batch_targets_witness :
  exists w1,
    beginEventBatch zoneStores isFrame "source"%string newEventDatabase
    = Return w1 /\
    NoDup (eventTargets_
             (listener_ (fold_left (fun w e => traceEvent e w)
                           [zoneCreate; enterA] w1))).
Proof.
  assert (Hout : insertingEvents_ (listener_ (newEventDatabase : World)) = false)
    by reflexivity.
  destruct (batch_targets INTERNAL getEventType zoneStores isFrame
              "source"%string [zoneCreate; enterA] newEventDatabase Hout)
    as (w1 & Hbegin & _ & Hnodup & _).
  exists w1. split; [exact Hbegin|exact Hnodup].
Defined.

Lemma batch_begin_end_balanced_witness :
  exists j : list (@Effect string string),
    endedIn j = rev (begunIn j) /\ NoDup (begunIn j).
Proof.
  assert (Hout : insertingEvents_ (listener_ (newEventDatabase : World)) = false)
    by reflexivity.
  destruct (batch_begin_end_balanced INTERNAL getEventType zoneStores isFrame
              "source"%string [zoneCreate; enterA] newEventDatabase Hout)
    as (w1 & w3 & j & _ & _ & _ & _ & Hrev & Hnodup).
  exists j. split; [exact Hrev|exact Hnodup].
Defined.

Lemma traceEvent_without_targets_witness :
  journal (traceEvent enterA (newEventDatabase : World)) = [].
Proof.
  refine (proj1 (proj2 (proj2 (proj2
            (traceEvent_without_targets INTERNAL getEventType zoneStores
               isFrame enterA (newEventDatabase : World) _ _)))));
    reflexivity.
Defined.

Lemma event_index_created_in_batch_witness :
  exists w3,
    endEventBatch
      (fold_left (fun w e => traceEvent e w) [zoneCreate; enterA]
         (with_db (fun d => fst (createEventIndex "wtf.scope#enter" d)) begun))
    = Return w3 /\
    eventIndices_ (db_ w3) !! 0%nat = Some (newEventIndex "wtf.scope#enter").
Proof.
  assert (Hin : insertingEvents_ (listener_ begun) = true) by reflexivity.
  assert (Hnone : getEventIndex "wtf.scope#enter" (db_ begun) = None)
    by reflexivity.
  assert (Hbound : forall n : nat,
             EventIndexRef n ∈ eventTargets_ (listener_ begun) ->
             (n < length (eventIndices_ (db_ begun)))%nat).
  { intros n Hn. vm_compute in Hn.
    apply list_elem_of_singleton in Hn. discriminate. }
  destruct (event_index_created_in_batch INTERNAL getEventType zoneStores
              isFrame "wtf.scope#enter" [zoneCreate; enterA] begun
              Hin Hnone Hbound)
    as (w3 & Hend & Hlookup & _).
  exists w3. split; [exact Hend|exact Hlookup].
Defined.

Lemma sources_in_call_order_witness :
  sources_ (db_ afterTwoSources) = addedSources twoSources.
Proof.
  exact (sources_in_call_order INTERNAL getEventType zoneStores isFrame
           twoSources afterTwoSources run_twoSources).
Defined.

Lemma xpath_query_gets_the_text_witness :
  query (str "count(/zone)") 0 100 (db_ final)
  = Return (mkQueryResult (str "count(/zone)")
              (CompiledXPath (str "count(/zone)")) (100 - 0) (XPathRows [])).
Proof.
  refine (proj2 (xpath_query_gets_the_text INTERNAL setFromString forEach
                   xpathEvaluate scopeTime scopePosition (str "count(/zone)")
                   0 100 (db_ final) _)).
  vm_compute. reflexivity.
Defined.

End Scenario.

(** ** A flow with two data events *)

Module FlowScenario.
Import Flow.

Abbreviation Event := (Event string string).

(** The values of the scenario are strings: [null] stands for [null], a
    string in braces for an object, any other string for a primitive
    value. *)
Definition undefined : string := "undefined".
Definition toPropertyKey (v : string) : string := v.
Definition isNull (v : string) : bool := String.eqb v "null".
Definition isObject (v : string) : bool := String.prefix "{" v.

(** The members of [Object.prototype]. *)
Definition inherited (k : string) : option string :=
  if bool_decide (k ∈ ["__proto__"; "constructor"; "hasOwnProperty";
                        "isPrototypeOf"; "propertyIsEnumerable";
                        "toLocaleString"; "toString"; "valueOf"]%string)
  then Some ("{Object.prototype." ++ k ++ "}")%string
  else None.

(** The objects of the scenario have no members of their own and
    [Object.prototype] behind them. *)
Definition assignUnder (p k v : string) (o : @JsObject string) : @JsObject string :=
  if bool_decide (k = "__proto__"%string)
  then
    if isNull v then mkJsObject (own o) NullPrototype
    else if isObject v then mkJsObject (own o) (ValuePrototype v)
    else o
  else mkJsObject (<[k := v]> (own o)) (prototype o).

Definition builtin : Event :=
  mkEvent 10 Scenario.appendFlowDataType
    {["id" := "7"; "name" := "url"; "value" := "/a"]}%string 0 PlainEvent.
Definition custom : Event :=
  mkEvent 20 Scenario.customFlowDataType
    {["id" := "7"; "url" := "/b"; "status" := "200"]}%string 0 PlainEvent.

Definition flow : @Flow string string :=
  addDataEvent custom (addDataEvent builtin (newFlow 7 None)).

Abbreviation getData :=
  (@getData string string undefined toPropertyKey Scenario.INTERNAL
     isNull isObject inherited assignUnder).
Abbreviation mergeEvent :=
  (@mergeEvent string string undefined toPropertyKey Scenario.INTERNAL
     inherited).
Abbreviation plainb :=
  (@plainb string string undefined toPropertyKey Scenario.INTERNAL
     isNull isObject inherited).
Abbreviation plain :=
  (@plain string string undefined toPropertyKey Scenario.INTERNAL
     isNull isObject inherited).

Example flow_getData :
  getData flow
  = mkJsObject {["url" := "/b"; "status" := "200"]}%string ObjectPrototype.
Proof. vm_compute. reflexivity. Qed.

Example flow_getData_empty : getData (newFlow 7 None) = emptyObject.
Proof. reflexivity. Qed.

Lemma plain_flow : plain flow.
Proof. apply plainb_plain. vm_compute. reflexivity. Qed.


(** A builtin appender whose name is [__proto__], between the two events
    of the flow. *)
Definition protoEvent : Event :=
  mkEvent 15 Scenario.appendFlowDataType
    {["id" := "7"; "name" := "__proto__"; "value" := "x"]}%string 0 PlainEvent.

Definition protoFlow : @Flow string string :=
  addDataEvent custom
    (addDataEvent protoEvent (addDataEvent builtin (newFlow 7 None))).

Example protoFlow_getData :
  getData protoFlow
  = mkJsObject {["url" := "/b"; "status" := "200"]}%string ObjectPrototype.
Proof. vm_compute. reflexivity. Qed.


Lemma getData_keys_witness :
  is_Some (own (getData protoFlow) !! "url"%string) <->
  "url"%string <> "__proto__"%string /\
  Exists (setsKey undefined toPropertyKey Scenario.INTERNAL inherited "url")
    (dataEvents protoFlow).
Proof.
  refine (proj1 (getData_keys undefined toPropertyKey Scenario.INTERNAL
                   isNull isObject inherited assignUnder protoFlow
                   "url" _)).
  apply plainb_plain. vm_compute. reflexivity.
Defined.

(** A user-defined event that does not carry its [status] argument, and a
    user-defined event type with an argument named [toString]. *)
Definition partial : Event :=
  mkEvent 30 Scenario.customFlowDataType
    {["id" := "7"; "url" := "/c"]}%string 0 PlainEvent.

Definition namedType : EventType :=
  mkEventType "my.flow#named" 0 [mkArg "id" "flowId"; mkArg "toString" "ascii"].
Definition unnamed : Event :=
  mkEvent 40 namedType {["id" := "7"]}%string 0 PlainEvent.

Example unnamed_getData :
  own (getData (addDataEvent unnamed flow)) !! "toString"%string
  = Some "{Object.prototype.toString}"%string.
Proof. vm_compute. reflexivity. Qed.

Lemma getData_missing_argument_witness :
  own (getData (addDataEvent partial protoFlow)) !! "status"%string
  = Some undefined.
Proof.
  apply (getData_missing_argument undefined toPropertyKey Scenario.INTERNAL
           isNull isObject inherited assignUnder
           protoFlow partial (mkArg "status" "ascii")).
  - reflexivity.
  - vm_compute. apply list_elem_of_further, list_elem_of_here.
  - reflexivity.
  - discriminate.
  - apply plainb_plain. vm_compute. reflexivity.
Defined.

End FlowScenario.

(** * wtf.ui.ResizableControl *)

Module ResizableControl.

(** ** Numbers *)

(** The numbers of the control: the finite ones as rationals, the two
    infinities and [NaN].  The sign of zero is not kept. *)
Inductive Number :=
| NaN
| NegInfinity
| Finite (q : Q)
| Infinity.

Definition num (z : Z) : Number := Finite (inject_Z z).

(** The truth value of a number: [0] and [NaN] are falsy. *)
Definition ToBoolean (x : Number) : bool :=
  match x with
  | NaN => false
  | Finite q => negb (Qeq_bool q (inject_Z 0))
  | NegInfinity | Infinity => true
  end.

(** [x || d] where [x] is a number or [undefined]. *)
Definition or (x : option Number) (d : Number) : Number :=
  match x with
  | Some x => if ToBoolean x then x else d
  | None => d
  end.

(** [a < b]. *)
Definition lessThan (a b : Number) : bool :=
  match a, b with
  | NaN, _ | _, NaN => false
  | _, NegInfinity => false
  | NegInfinity, _ => true
  | Infinity, _ => false
  | _, Infinity => true
  | Finite p, Finite q => Qltb p q
  end.

(** [a == b]. *)
Definition looseEquals (a b : Number) : bool :=
  match a, b with
  | NegInfinity, NegInfinity => true
  | Infinity, Infinity => true
  | Finite p, Finite q => Qeq_bool p q
  | _, _ => false
  end.

Definition Math_max (a b : Number) : Number :=
  match a, b with
  | NaN, _ | _, NaN => NaN
  | _, _ => if lessThan a b then b else a
  end.

Definition Math_min (a b : Number) : Number :=
  match a, b with
  | NaN, _ | _, NaN => NaN
  | _, _ => if lessThan b a then b else a
  end.

(** [goog.math.clamp]: [Math.min(Math.max(value, min), max)]. *)
Definition clamp (value min max : Number) : Number :=
  Math_min (Math_max value min) max.

(** [s || ''] where [s] is a string or [undefined]. *)
Definition orEmpty (s : option string) : string :=
  match s with
  | Some s => if String.eqb s EmptyString then EmptyString else s
  | None => EmptyString
  end.

(** ** The control *)

Inductive Orientation := HORIZONTAL | VERTICAL.

Inductive EventType := SIZE_CHANGED.

(** [goog.math.Rect]. *)
Record Rect := mkRect {
  rect_left : Number;
  rect_top : Number;
  rect_width : Number;
  rect_height : Number
}.

(** A drag event of the dragger: the offsets, in whole pixels. *)
Record DragEvent := mkDragEvent {
  left : Z;
  top : Z
}.

(** What the control does to its collaborators: the root element, the
    dragger, the browser event and its own listeners. *)
Inductive Effect :=
| SetHeight (value : Number)
| SetWidth (value : Number)
| SetLimits (limits : Rect)
| PreventDefault
| EmitEvent (eventType : EventType).

(** The fields of the control, with the [cursor] style of the document body
    and the journal of the effects. *)
Record ResizableControl := mkResizableControl {
  orientation_ : Orientation;
  currentSize_ : Number;
  minimumSize_ : option Number;
  maximumSize_ : option Number;
  previousDragCursor_ : option string;
  bodyCursor : string;
  journal : list Effect
}.

(** The control as the constructor leaves it, before the timers that read
    the size of the root element fire. *)
Definition newResizableControl (orientation : Orientation) (cursor : string)
    : ResizableControl :=
  mkResizableControl orientation (num 0) None None None cursor [].

Definition log (eff : Effect) (c : ResizableControl) : ResizableControl :=
  mkResizableControl (orientation_ c) (currentSize_ c) (minimumSize_ c)
    (maximumSize_ c) (previousDragCursor_ c) (bodyCursor c)
    (journal c ++ [eff]).

Definition setCurrentSize (value : Number) (c : ResizableControl)
    : ResizableControl :=
  mkResizableControl (orientation_ c) value (minimumSize_ c)
    (maximumSize_ c) (previousDragCursor_ c) (bodyCursor c) (journal c).

Definition setSplitterLimits (min max : option Number) (c : ResizableControl)
    : ResizableControl :=
  mkResizableControl (orientation_ c) (currentSize_ c) min max
    (previousDragCursor_ c) (bodyCursor c) (journal c).

Definition getSplitterSize (c : ResizableControl) : Number := currentSize_ c.

Definition sizeChanged (c : ResizableControl) : ResizableControl :=
  log (EmitEvent SIZE_CHANGED) c.

(** The limits in force: [minimumSize_ || 0] and [maximumSize_ || 10000]. *)
Definition lowerLimit (c : ResizableControl) : Number :=
  or (minimumSize_ c) (num 0).
Definition upperLimit (c : ResizableControl) : Number :=
  or (maximumSize_ c) (num 10000).

Definition setSplitterSize (value : Number) (c : ResizableControl)
    : ResizableControl :=
  let value := clamp value (lowerLimit c) (upperLimit c) in
  if looseEquals (currentSize_ c) value then c
  else
    let c := setCurrentSize value c in
    let c := match orientation_ c with
             | HORIZONTAL => log (SetHeight value) c
             | VERTICAL => log (SetWidth value) c
             end in
    sizeChanged c.

Definition splitterDragStart_ (e : DragEvent) (c : ResizableControl)
    : ResizableControl :=
  let limits := mkRect (num (-5000)) (num (-5000)) (num (2 * 5000))
                  (num (2 * 5000)) in
  let limits :=
    match orientation_ c with
    | HORIZONTAL =>
        mkRect (num 0) (rect_top limits) (or (maximumSize_ c) (num 5000))
          (rect_height limits)
    | VERTICAL =>
        mkRect (rect_left limits) (num 0) (rect_width limits)
          (or (maximumSize_ c) (num 5000))
    end in
  let c := log (SetLimits limits) c in
  let cursorName := match orientation_ c with
                    | HORIZONTAL => "ns-resize"%string
                    | VERTICAL => "ew-resize"%string
                    end in
  mkResizableControl (orientation_ c) (currentSize_ c) (minimumSize_ c)
    (maximumSize_ c) (Some (bodyCursor c)) cursorName (journal c).

Definition splitterDragMove_ (e : DragEvent) (c : ResizableControl)
    : ResizableControl * bool :=
  let c := log PreventDefault c in
  let newSize := match orientation_ c with
                 | HORIZONTAL => num (top e + 4)
                 | VERTICAL => num (left e + 4)
                 end in
  (setSplitterSize newSize c, false).

Definition splitterDragEnd_ (e : DragEvent) (c : ResizableControl)
    : ResizableControl :=
  mkResizableControl (orientation_ c) (currentSize_ c) (minimumSize_ c)
    (maximumSize_ c) (previousDragCursor_ c)
    (orEmpty (previousDragCursor_ c)) (journal c).

(** A run of drag moves. *)
Definition dragMoves (es : list DragEvent) (c : ResizableControl)
    : ResizableControl :=
  fold_left (fun c e => fst (splitterDragMove_ e c)) es c.

(** The size a drag move asks for. *)
Definition draggedSize (o : Orientation) (e : DragEvent) : Number :=
  match o with
  | HORIZONTAL => num (top e + 4)
  | VERTICAL => num (left e + 4)
  end.

(** The calls on a control, and a run of them. *)
Inductive Call :=
| SetSplitterLimits (min max : option Number)
| SetSplitterSize (value : Number)
| SplitterDragStart (e : DragEvent)
| SplitterDragMove (e : DragEvent)
| SplitterDragEnd (e : DragEvent).

Definition step (c : ResizableControl) (call : Call) : ResizableControl :=
  match call with
  | SetSplitterLimits min max => setSplitterLimits min max c
  | SetSplitterSize value => setSplitterSize value c
  | SplitterDragStart e => splitterDragStart_ e c
  | SplitterDragMove e => fst (splitterDragMove_ e c)
  | SplitterDragEnd e => splitterDragEnd_ e c
  end.

Definition run (calls : list Call) (c : ResizableControl) : ResizableControl :=
  fold_left step calls c.

(** The sizes given to the root element, and whether an effect sets the
    dimension that goes with the orientation. *)
Definition sets (j : list Effect) : list Number :=
  omap (fun eff => match eff with
                   | SetHeight v | SetWidth v => Some v
                   | _ => None
                   end) j.

Definition fitsOrientation (o : Orientation) (eff : Effect) : bool :=
  match eff, o with
  | SetHeight _, VERTICAL | SetWidth _, HORIZONTAL => false
  | _, _ => true
  end.

(** The [SIZE_CHANGED] events of a journal. *)
Definition emitted (j : list Effect) : nat :=
  length (List.filter (fun eff => match eff with EmitEvent _ => true | _ => false end) j).

(** ** Numbers: order and equality *)

Lemma lessThan_irrefl a : lessThan a a = false.
Proof.
  destruct a; simpl; try done. unfold Qltb.
  assert (H : Qle_bool q q = true) by (apply Qle_bool_iff, Qle_refl).
  by rewrite H.
Qed.

Lemma looseEquals_refl a : a <> NaN -> looseEquals a a = true.
Proof.
  destruct a; simpl; try done. intros _. apply Qeq_bool_iff. reflexivity.
Qed.

Lemma Qle_bool_eq_l p q r : (p == q)%Q -> Qle_bool p r = Qle_bool q r.
Proof.
  intros H. apply eq_true_iff_eq. rewrite !Qle_bool_iff. by rewrite H.
Qed.

Lemma Qle_bool_eq_r p q r : (p == q)%Q -> Qle_bool r p = Qle_bool r q.
Proof.
  intros H. apply eq_true_iff_eq. rewrite !Qle_bool_iff. by rewrite H.
Qed.

Lemma lessThan_equals_r a b c :
  looseEquals a b = true -> lessThan c a = lessThan c b.
Proof.
  destruct a, b; simpl; try done. intros H%Qeq_bool_iff.
  destruct c; simpl; try done. unfold Qltb. f_equal. by apply Qle_bool_eq_l.
Qed.

Lemma lessThan_equals_l a b c :
  looseEquals a b = true -> lessThan a c = lessThan b c.
Proof.
  destruct a, b; simpl; try done. intros H%Qeq_bool_iff.
  destruct c; simpl; try done. unfold Qltb. f_equal. by apply Qle_bool_eq_r.
Qed.

Lemma looseEquals_trans a b c :
  looseEquals a b = true -> looseEquals b c = true -> looseEquals a c = true.
Proof.
  destruct a, b, c; simpl; try done.
  intros H1%Qeq_bool_iff H2%Qeq_bool_iff. apply Qeq_bool_iff.
  by rewrite H1.
Qed.

Lemma notLessThan_trans a b c :
  b <> NaN ->
  lessThan a b = false -> lessThan b c = false -> lessThan a c = false.
Proof.
  destruct a, b, c; simpl; try done. intros _. unfold Qltb.
  rewrite !negb_false_iff, !Qle_bool_iff. intros. by eapply Qle_trans.
Qed.

Lemma or_not_NaN x d : d <> NaN -> or x d <> NaN.
Proof.
  intros Hd. destruct x as [x|]; simpl; [|done].
  destruct (ToBoolean x) eqn:E; [|done]. by destruct x.
Qed.

Lemma lowerLimit_not_NaN c : lowerLimit c <> NaN.
Proof. by apply or_not_NaN. Qed.

Lemma upperLimit_not_NaN c : upperLimit c <> NaN.
Proof. by apply or_not_NaN. Qed.

Lemma Math_max_not_NaN a b : a <> NaN -> b <> NaN -> Math_max a b <> NaN.
Proof. destruct a, b; simpl; try done; intros _ _; by destruct (Qltb _ _). Qed.

Lemma Math_min_not_NaN a b : a <> NaN -> b <> NaN -> Math_min a b <> NaN.
Proof. destruct a, b; simpl; try done; intros _ _; by destruct (Qltb _ _). Qed.

Lemma clamp_not_NaN value min max :
  value <> NaN -> min <> NaN -> max <> NaN -> clamp value min max <> NaN.
Proof.
  intros. by apply Math_min_not_NaN; [apply Math_max_not_NaN|].
Qed.

Lemma Math_max_spec a b :
  a <> NaN -> b <> NaN -> Math_max a b = if lessThan a b then b else a.
Proof. by destruct a, b. Qed.

Lemma Math_min_spec a b :
  a <> NaN -> b <> NaN -> Math_min a b = if lessThan b a then b else a.
Proof. by destruct a, b. Qed.

Lemma clamp_spec value min max :
  value <> NaN -> min <> NaN -> max <> NaN ->
  let lifted := if lessThan value min then min else value in
  clamp value min max = if lessThan max lifted then max else lifted.
Proof.
  intros Hv Hmin Hmax. unfold clamp.
  rewrite (Math_max_spec value min) by done.
  apply Math_min_spec; [|done]. by destruct (lessThan value min).
Qed.

Lemma clamp_NaN min max : clamp NaN min max = NaN.
Proof. done. Qed.

Lemma emitted_app j1 j2 : emitted (j1 ++ j2) = (emitted j1 + emitted j2)%nat.
Proof. unfold emitted. by rewrite List.filter_app, length_app. Qed.

(** ** setSplitterSize *)

Lemma setSplitterSize_frame value c :
  let c' := setSplitterSize value c in
  orientation_ c' = orientation_ c /\
  minimumSize_ c' = minimumSize_ c /\
  maximumSize_ c' = maximumSize_ c /\
  previousDragCursor_ c' = previousDragCursor_ c /\
  bodyCursor c' = bodyCursor c.
Proof.
  unfold setSplitterSize. simpl.
  destruct (looseEquals _ _); [done|].
  destruct (orientation_ c) eqn:E; simpl; by rewrite ?E.
Qed.

Lemma setSplitterSize_size value c :
  value <> NaN ->
  looseEquals (getSplitterSize (setSplitterSize value c))
    (clamp value (lowerLimit c) (upperLimit c)) = true.
Proof.
  intros Hv. unfold setSplitterSize, getSplitterSize. simpl.
  destruct (looseEquals (currentSize_ c) _) eqn:E; [exact E|].
  assert (Hc : clamp value (lowerLimit c) (upperLimit c) <> NaN)
    by (apply clamp_not_NaN;
        [done|apply lowerLimit_not_NaN|apply upperLimit_not_NaN]).
  destruct (orientation_ c); simpl; by apply looseEquals_refl.
Qed.

Lemma setSplitterSize_journal value c :
  let value' := clamp value (lowerLimit c) (upperLimit c) in
  journal (setSplitterSize value c)
  = journal c ++
    (if looseEquals (currentSize_ c) value' then []
     else [match orientation_ c with
           | HORIZONTAL => SetHeight value'
           | VERTICAL => SetWidth value'
           end; EmitEvent SIZE_CHANGED]).
Proof.
  unfold setSplitterSize. simpl.
  destruct (looseEquals _ _); [by rewrite app_nil_r|].
  destruct (orientation_ c); simpl; by rewrite <- app_assoc.
Qed.

(** After [setSplitterSize] with a number the size is the value snapped to
    the limits in force, [minimumSize_ || 0] and [maximumSize_ || 10000]: it
    is never above the upper limit, it is not below the lower limit when the
    limits are in order, and it is the value asked for (up to [==]) when
    that lies within the limits.  When the limits are crossed the upper one
    wins. *)
Theorem setSplitterSize_within_limits (value : Number) (c : ResizableControl) :
  value <> NaN ->
  let size := getSplitterSize (setSplitterSize value c) in
  lessThan (upperLimit c) size = false /\
  (lessThan (upperLimit c) (lowerLimit c) = false ->
   lessThan size (lowerLimit c) = false) /\
  (lessThan value (lowerLimit c) = false ->
   lessThan (upperLimit c) value = false ->
   looseEquals size value = true) /\
  (lessThan (upperLimit c) (lowerLimit c) = true ->
   looseEquals size (upperLimit c) = true).
Proof.
  intros Hv size.
  pose proof (setSplitterSize_size value c Hv) as Hsize. fold size in Hsize.
  pose proof (lowerLimit_not_NaN c) as Hlo.
  pose proof (upperLimit_not_NaN c) as Hhi.
  rewrite (clamp_spec value _ _ Hv Hlo Hhi) in Hsize. cbn zeta in Hsize.
  split_and!.
  - rewrite (lessThan_equals_r _ _ _ Hsize).
    destruct (lessThan value (lowerLimit c)) eqn:E1;
      destruct (lessThan (upperLimit c) _) eqn:E2;
      try done; apply lessThan_irrefl.
  - intros Hord. rewrite (lessThan_equals_l _ _ _ Hsize).
    destruct (lessThan value (lowerLimit c)) eqn:E1.
    + rewrite Hord. apply lessThan_irrefl.
    + by destruct (lessThan (upperLimit c) value) eqn:E2.
  - intros H1 H2. by rewrite H1, H2 in Hsize.
  - intros Hord.
    destruct (lessThan value (lowerLimit c)) eqn:E1.
    + by rewrite Hord in Hsize.
    + destruct (lessThan (upperLimit c) value) eqn:E2; [done|].
      pose proof (notLessThan_trans _ _ _ Hv E2 E1). congruence.
Qed.

(** Setting the same number twice is setting it once: the second call finds
    the size in place and returns before it touches the root element or
    emits [SIZE_CHANGED]. *)
Theorem setSplitterSize_twice (value : Number) (c : ResizableControl) :
  value <> NaN ->
  setSplitterSize value (setSplitterSize value c) = setSplitterSize value c.
Proof.
  intros Hv.
  pose proof (setSplitterSize_size value c Hv) as Hsize.
  destruct (setSplitterSize_frame value c) as (_ & Hmin & Hmax & _).
  cbn zeta in *.
  unfold setSplitterSize at 1. unfold lowerLimit, upperLimit.
  rewrite Hmin, Hmax. fold (lowerLimit c) (upperLimit c).
  unfold getSplitterSize in Hsize. by rewrite Hsize.
Qed.

(** The two ways through [setSplitterSize], and the way [NaN] takes. *)
Lemma setSplitterSize_cases (value : Number) (c : ResizableControl) :
  let c' := setSplitterSize value c in
  let value' := clamp value (lowerLimit c) (upperLimit c) in
  (looseEquals (getSplitterSize c) value' = true -> c' = c) /\
  (looseEquals (getSplitterSize c) value' = false ->
   getSplitterSize c' = value' /\
   journal c'
   = journal c ++ [match orientation_ c with
                   | HORIZONTAL => SetHeight value'
                   | VERTICAL => SetWidth value'
                   end; EmitEvent SIZE_CHANGED]) /\
  (value = NaN -> getSplitterSize c' = NaN /\
                  emitted (journal c') = S (emitted (journal c))).
Proof.
  cbn zeta. split_and!.
  - intros H. unfold setSplitterSize. unfold getSplitterSize in H.
    by rewrite H.
  - intros H. split.
    + unfold setSplitterSize, getSplitterSize in *. rewrite H. simpl.
      by destruct (orientation_ c).
    + rewrite setSplitterSize_journal. unfold getSplitterSize in H.
      cbn zeta. by rewrite H.
  - intros ->. rewrite setSplitterSize_journal. cbn zeta.
    rewrite clamp_NaN.
    assert (H : looseEquals (currentSize_ c) NaN = false)
      by (by destruct (currentSize_ c)).
    rewrite H. split.
    + unfold setSplitterSize, getSplitterSize. rewrite clamp_NaN, H. simpl.
      by destruct (orientation_ c).
    + rewrite emitted_app.
      destruct (orientation_ c); change (emitted [_; _]) with 1%nat; lia.
Qed.

(** [setSplitterSize] with [NaN] is never at rest: [NaN] passes the limits
    and equals nothing, the size in place included, so every such call
    makes the size [NaN], sets the root element and emits [SIZE_CHANGED],
    also when the size is [NaN] already. *)
Theorem setSplitterSize_NaN_always_emits (c : ResizableControl) :
  let c' := setSplitterSize NaN c in
  getSplitterSize c' = NaN /\
  emitted (journal c') = S (emitted (journal c)) /\
  setSplitterSize NaN c' <> c'.
Proof.
  destruct (setSplitterSize_cases NaN c) as (_ & _ & Hnan).
  destruct (Hnan eq_refl) as [Hsize Hemit]. cbn zeta in *.
  split_and!; [done..|].
  intros Heq. destruct (setSplitterSize_cases NaN (setSplitterSize NaN c))
    as (_ & _ & Hnan').
  destruct (Hnan' eq_refl) as [_ Hemit']. cbn zeta in *.
  rewrite Heq in Hemit'. lia.
Qed.

(** ** Runs of calls *)

Definition tracks (c c' : ResizableControl) (j : list Effect) : Prop :=
  journal c' = journal c ++ j /\
  orientation_ c' = orientation_ c /\
  getSplitterSize c' = default (getSplitterSize c) (last (sets j)) /\
  emitted j = length (sets j) /\
  forallb (fitsOrientation (orientation_ c)) j = true.

Lemma sets_app j1 j2 : sets (j1 ++ j2) = sets j1 ++ sets j2.
Proof. apply omap_app. Qed.

Lemma tracks_trans c1 c2 c3 j1 j2 :
  tracks c1 c2 j1 -> tracks c2 c3 j2 -> tracks c1 c3 (j1 ++ j2).
Proof.
  intros (H1 & H2 & H3 & H4 & H5) (G1 & G2 & G3 & G4 & G5).
  unfold tracks. rewrite G1, H1, G2, H2, G3, H3, sets_app, emitted_app,
    length_app, forallb_app, H4, G4, H5.
  rewrite H2 in G5. rewrite G5, last_app, app_assoc.
  split_and!; try done. by destruct (last (sets j2)).
Qed.

Lemma setSplitterSize_tracks value c :
  exists j, tracks c (setSplitterSize value c) j.
Proof.
  destruct (setSplitterSize_frame value c) as (Ho & _).
  destruct (setSplitterSize_cases value c) as (Hsame & Hchange & _).
  cbn zeta in *.
  destruct (looseEquals (getSplitterSize c)
              (clamp value (lowerLimit c) (upperLimit c))) eqn:E.
  - exists []. rewrite (Hsame eq_refl). unfold tracks.
    by rewrite app_nil_r.
  - destruct (Hchange eq_refl) as [Hsize Hj].
    eexists. unfold tracks. split; [exact Hj|].
    split; [exact Ho|]. rewrite Hsize.
    by destruct (orientation_ c).
Qed.

Lemma log_tracks eff c :
  sets [eff] = [] -> emitted [eff] = 0%nat -> tracks c (log eff c) [eff].
Proof.
  intros Hs He. unfold tracks. rewrite Hs, He. split_and!; try done.
  simpl. by destruct eff, (orientation_ c).
Qed.

Lemma step_tracks c call : exists j, tracks c (step c call) j.
Proof.
  destruct call as [min max|value|e|e|e]; simpl.
  - exists []. unfold tracks. simpl. by rewrite app_nil_r.
  - apply setSplitterSize_tracks.
  - eexists [_]. unfold tracks. by split_and!.
  - unfold splitterDragMove_. cbn [fst].
    destruct (setSplitterSize_tracks
                match orientation_ (log PreventDefault c) with
                | HORIZONTAL => num (top e + 4)
                | VERTICAL => num (left e + 4)
                end (log PreventDefault c)) as [j Hj].
    exists ([PreventDefault] ++ j).
    eapply tracks_trans; [|exact Hj]. by apply log_tracks.
  - exists []. unfold tracks. simpl. by rewrite app_nil_r.
Qed.

Lemma run_tracks calls c : exists j, tracks c (run calls c) j.
Proof.
  revert c; induction calls as [|call calls IH]; intros c.
  - exists []. unfold tracks. simpl. by rewrite app_nil_r.
  - destruct (step_tracks c call) as [j1 H1].
    destruct (IH (step c call)) as [j2 H2].
    exists (j1 ++ j2). by eapply tracks_trans.
Qed.

(** The root element follows the size: over any run of calls, limits, sizes
    and drags in any order, the size of the control is the last value the
    run gave to the root element, and the size it began with when the run
    gave none.  Every such value went to the dimension of the orientation,
    the height of a horizontal control and the width of a vertical one, and
    the run emitted [SIZE_CHANGED] once for each. *)
Theorem root_element_follows_size (calls : list Call) (c : ResizableControl) :
  exists j,
    journal (run calls c) = journal c ++ j /\
    getSplitterSize (run calls c)
    = default (getSplitterSize c) (last (sets j)) /\
    emitted j = length (sets j) /\
    forallb (fitsOrientation (orientation_ c)) j = true.
Proof.
  destruct (run_tracks calls c) as (j & H1 & _ & H3 & H4 & H5).
  by exists j.
Qed.

(** A limit of [0], like [NaN], counts as no limit: [setSplitterSize]
    behaves after [setSplitterLimits] with such a minimum or maximum as it
    does with [undefined] in its place, so a maximum of [0] lets the size
    grow to [10000]. *)
Theorem falsy_limit_is_no_limit (x : Number) (other : option Number)
    (value : Number) (c : ResizableControl) :
  ToBoolean x = false ->
  (let a := setSplitterSize value (setSplitterLimits other (Some x) c) in
   let b := setSplitterSize value (setSplitterLimits other None c) in
   getSplitterSize a = getSplitterSize b /\ journal a = journal b) /\
  (let a := setSplitterSize value (setSplitterLimits (Some x) other c) in
   let b := setSplitterSize value (setSplitterLimits None other c) in
   getSplitterSize a = getSplitterSize b /\ journal a = journal b).
Proof.
  intros Hx. cbn zeta. unfold setSplitterSize, lowerLimit, upperLimit. simpl.
  rewrite Hx. split.
  - destruct (looseEquals _ _); [done|]. by destruct (orientation_ c).
  - destruct (looseEquals _ _); [done|]. by destruct (orientation_ c).
Qed.

(** ** Dragging the splitter *)

Lemma splitterDragMove__frame e c :
  let c' := fst (splitterDragMove_ e c) in
  orientation_ c' = orientation_ c /\
  minimumSize_ c' = minimumSize_ c /\
  maximumSize_ c' = maximumSize_ c /\
  previousDragCursor_ c' = previousDragCursor_ c /\
  bodyCursor c' = bodyCursor c.
Proof.
  unfold splitterDragMove_. cbn [fst].
  apply (setSplitterSize_frame _ (log PreventDefault c)).
Qed.

Lemma dragMoves_cons e es c :
  dragMoves (e :: es) c = dragMoves es (fst (splitterDragMove_ e c)).
Proof. done. Qed.

Lemma dragMoves_snoc es e c :
  dragMoves (es ++ [e]) c = fst (splitterDragMove_ e (dragMoves es c)).
Proof. unfold dragMoves. by rewrite fold_left_app. Qed.

Lemma dragMoves_frame es c :
  let c' := dragMoves es c in
  orientation_ c' = orientation_ c /\
  minimumSize_ c' = minimumSize_ c /\
  maximumSize_ c' = maximumSize_ c /\
  previousDragCursor_ c' = previousDragCursor_ c /\
  bodyCursor c' = bodyCursor c.
Proof.
  revert c; induction es as [|e es IH]; intros c; [done|].
  rewrite dragMoves_cons.
  destruct (IH (fst (splitterDragMove_ e c))) as (H1 & H2 & H3 & H4 & H5).
  destruct (splitterDragMove__frame e c) as (G1 & G2 & G3 & G4 & G5).
  cbn zeta in *. by rewrite H1, H2, H3, H4, H5.
Qed.

Lemma orEmpty_Some s : orEmpty (Some s) = s.
Proof.
  unfold orEmpty. destruct (String.eqb_spec s EmptyString); by subst.
Qed.

(** A drag gives the document body its cursor back: between
    [splitterDragStart_] and [splitterDragEnd_] the body has the resize
    cursor of the orientation, whatever the moves in between, and after
    [splitterDragEnd_] it has the cursor it had before the drag.  The drag
    changes neither the limits nor the orientation. *)
Theorem drag_restores_body_cursor (start : DragEvent) (moves : list DragEvent)
    (stop : DragEvent) (c : ResizableControl) :
  let during := dragMoves moves (splitterDragStart_ start c) in
  let after := splitterDragEnd_ stop during in
  bodyCursor during = match orientation_ c with
                      | HORIZONTAL => "ns-resize"%string
                      | VERTICAL => "ew-resize"%string
                      end /\
  bodyCursor after = bodyCursor c /\
  orientation_ after = orientation_ c /\
  minimumSize_ after = minimumSize_ c /\
  maximumSize_ after = maximumSize_ c.
Proof.
  destruct (dragMoves_frame moves (splitterDragStart_ start c))
    as (H1 & H2 & H3 & H4 & H5).
  cbn zeta in *. unfold splitterDragEnd_. simpl.
  rewrite H1, H2, H3, H4, H5. cbn -[orEmpty].
  by rewrite orEmpty_Some.
Qed.

(** [splitterDragEnd_] without a drag start before it, on a control whose
    [previousDragCursor_] is still [undefined], clears the cursor of the
    document body. *)
Theorem dragEnd_without_start_clears_cursor (moves : list DragEvent)
    (stop : DragEvent) (c : ResizableControl) :
  previousDragCursor_ c = None ->
  bodyCursor (splitterDragEnd_ stop (dragMoves moves c)) = EmptyString.
Proof.
  intros H. destruct (dragMoves_frame moves c) as (_ & _ & _ & H4 & _).
  cbn zeta in *. unfold splitterDragEnd_. simpl. by rewrite H4, H.
Qed.

Lemma splitterDragMove__emitted e c :
  let c' := fst (splitterDragMove_ e c) in
  (emitted (journal c) <= emitted (journal c') <= S (emitted (journal c)))%nat.
Proof.
  unfold splitterDragMove_. cbn [fst]. rewrite setSplitterSize_journal.
  cbn zeta. cbn [journal log orientation_]. rewrite !emitted_app.
  change (emitted [PreventDefault]) with 0%nat.
  destruct (looseEquals _ _); [change (emitted []) with 0%nat; lia|].
  destruct (orientation_ c); change (emitted [_; _]) with 1%nat; lia.
Qed.

(** After a run of drag moves the size is the one the last move asked for,
    its offset along the orientation plus 4, snapped to the limits: the
    earlier moves leave no trace in it.  Every move stops the default action
    of the browser and returns [false], and the whole run emits at most one
    [SIZE_CHANGED] per move. *)
Theorem drag_moves_follow_the_last (moves : list DragEvent) (e : DragEvent)
    (c : ResizableControl) :
  let c' := dragMoves (moves ++ [e]) c in
  looseEquals (getSplitterSize c')
    (clamp (draggedSize (orientation_ c) e) (lowerLimit c) (upperLimit c))
  = true /\
  snd (splitterDragMove_ e c) = false /\
  (emitted (journal c) <= emitted (journal c')
   <= emitted (journal c) + length (moves ++ [e]))%nat.
Proof.
  cbn zeta. split; [|split; [done|]].
  - rewrite dragMoves_snoc.
    destruct (dragMoves_frame moves c) as (H1 & H2 & H3 & _).
    cbn zeta in *. set (d := dragMoves moves c) in *.
    unfold splitterDragMove_. cbn [fst].
    assert (Hsize : draggedSize (orientation_ c) e <> NaN)
      by (by destruct (orientation_ c)).
    pose proof (setSplitterSize_size (draggedSize (orientation_ c) e)
                  (log PreventDefault d) Hsize) as Hs.
    unfold lowerLimit, upperLimit in *. simpl in Hs.
    rewrite H2, H3 in Hs.
    replace (match orientation_ (log PreventDefault d) with
             | HORIZONTAL => num (top e + 4)
             | VERTICAL => num (left e + 4)
             end) with (draggedSize (orientation_ c) e); [exact Hs|].
    simpl. by rewrite H1.
  - generalize (moves ++ [e]). clear. intros es. revert c.
    induction es as [|e es IH]; intros c; [simpl; lia|].
    rewrite dragMoves_cons. cbn [length].
    specialize (IH (fst (splitterDragMove_ e c))).
    pose proof (splitterDragMove__emitted e c) as H. cbn zeta in H. lia.
Qed.

Lemma looseEquals_sym a b : looseEquals a b = looseEquals b a.
Proof.
  destruct a, b; simpl; try done. apply eq_true_iff_eq.
  rewrite !Qeq_bool_iff. split; intros H; by symmetry.
Qed.

Lemma looseEquals_num a b : a <> b -> looseEquals (num a) (num b) = false.
Proof.
  intros Hne. simpl. apply not_true_iff_false. rewrite Qeq_bool_iff.
  rewrite inject_Z_injective. done.
Qed.

Lemma clamp_within value min max :
  value <> NaN -> min <> NaN -> max <> NaN ->
  lessThan value min = false -> lessThan max value = false ->
  clamp value min max = value.
Proof.
  intros Hv Hmin Hmax H1 H2. rewrite clamp_spec by done. cbn zeta.
  by rewrite H1, H2.
Qed.

(** The size after a drag move whose asked size lies within the limits. *)
Lemma splitterDragMove__size e c :
  lessThan (draggedSize (orientation_ c) e) (lowerLimit c) = false ->
  lessThan (upperLimit c) (draggedSize (orientation_ c) e) = false ->
  looseEquals (getSplitterSize (fst (splitterDragMove_ e c)))
    (draggedSize (orientation_ c) e) = true.
Proof.
  intros Hlo Hhi. unfold splitterDragMove_. cbn [fst].
  assert (Hsize : draggedSize (orientation_ c) e <> NaN)
    by (by destruct (orientation_ c)).
  pose proof (setSplitterSize_size (draggedSize (orientation_ c) e)
                (log PreventDefault c) Hsize) as Hs.
  change (lowerLimit (log PreventDefault c)) with (lowerLimit c) in Hs.
  change (upperLimit (log PreventDefault c)) with (upperLimit c) in Hs.
  rewrite clamp_within in Hs;
    [exact Hs|done|apply lowerLimit_not_NaN|apply upperLimit_not_NaN|done..].
Qed.

(** The maximum that [splitterDragStart_] hands to the dragger bounds an
    offset that the drag moves do not read.  A move of a horizontal control
    takes the size from [top] and gives the same control and result
    whatever [left] is, and two moves whose sizes lie within the limits of
    the control and whose [top] differ leave different sizes; yet the limits
    of the dragger bound [left] by [0] and [maximumSize_ || 5000] and leave
    [top] at [-5000] with a span of [10000], whatever the limits of the
    control.  For a vertical control it is the same with [left] and [top]
    exchanged. *)
Theorem dragStart_limits_miss_the_dragged_axis (start : DragEvent)
    (c : ResizableControl) :
  exists limits,
    journal (splitterDragStart_ start c) = journal c ++ [SetLimits limits] /\
    match orientation_ c with
    | HORIZONTAL =>
        (forall l l' t, splitterDragMove_ (mkDragEvent l t) c
                        = splitterDragMove_ (mkDragEvent l' t) c) /\
        (forall l l' t t',
           t <> t' ->
           lessThan (num (t + 4)) (lowerLimit c) = false ->
           lessThan (upperLimit c) (num (t + 4)) = false ->
           lessThan (num (t' + 4)) (lowerLimit c) = false ->
           lessThan (upperLimit c) (num (t' + 4)) = false ->
           looseEquals
             (getSplitterSize (fst (splitterDragMove_ (mkDragEvent l t) c)))
             (getSplitterSize (fst (splitterDragMove_ (mkDragEvent l' t') c)))
           = false) /\
        rect_left limits = num 0 /\
        rect_width limits = or (maximumSize_ c) (num 5000) /\
        rect_top limits = num (-5000) /\
        rect_height limits = num 10000
    | VERTICAL =>
        (forall l t t', splitterDragMove_ (mkDragEvent l t) c
                        = splitterDragMove_ (mkDragEvent l t') c) /\
        (forall l l' t t',
           l <> l' ->
           lessThan (num (l + 4)) (lowerLimit c) = false ->
           lessThan (upperLimit c) (num (l + 4)) = false ->
           lessThan (num (l' + 4)) (lowerLimit c) = false ->
           lessThan (upperLimit c) (num (l' + 4)) = false ->
           looseEquals
             (getSplitterSize (fst (splitterDragMove_ (mkDragEvent l t) c)))
             (getSplitterSize (fst (splitterDragMove_ (mkDragEvent l' t') c)))
           = false) /\
        rect_top limits = num 0 /\
        rect_height limits = or (maximumSize_ c) (num 5000) /\
        rect_left limits = num (-5000) /\
        rect_width limits = num 10000
    end.
Proof.
  assert (Hdiffer : forall e e' : DragEvent,
            lessThan (draggedSize (orientation_ c) e) (lowerLimit c) = false ->
            lessThan (upperLimit c) (draggedSize (orientation_ c) e) = false ->
            lessThan (draggedSize (orientation_ c) e') (lowerLimit c) = false ->
            lessThan (upperLimit c) (draggedSize (orientation_ c) e') = false ->
            looseEquals (draggedSize (orientation_ c) e)
              (draggedSize (orientation_ c) e') = false ->
            looseEquals (getSplitterSize (fst (splitterDragMove_ e c)))
              (getSplitterSize (fst (splitterDragMove_ e' c))) = false).
  { intros e e' H1 H2 H3 H4 Hne.
    pose proof (splitterDragMove__size e c H1 H2) as He.
    pose proof (splitterDragMove__size e' c H3 H4) as He'.
    destruct (looseEquals (getSplitterSize (fst (splitterDragMove_ e c)))
                (getSplitterSize (fst (splitterDragMove_ e' c)))) eqn:E; [|done].
    rewrite looseEquals_sym in He.
    pose proof (looseEquals_trans _ _ _ He E) as H.
    pose proof (looseEquals_trans _ _ _ H He') as H'. congruence. }
  eexists. split; [reflexivity|].
  unfold splitterDragMove_. cbn [orientation_ log].
  destruct (orientation_ c) eqn:Ho; cbn [draggedSize] in Hdiffer.
  - split_and!; try done.
    intros l l' t t' Hne H1 H2 H3 H4.
    specialize (Hdiffer (mkDragEvent l t) (mkDragEvent l' t')).
    unfold splitterDragMove_ in Hdiffer. cbn [orientation_ log top] in Hdiffer.
    rewrite Ho in Hdiffer. apply Hdiffer; try done.
    apply looseEquals_num. lia.
  - split_and!; try done.
    intros l l' t t' Hne H1 H2 H3 H4.
    specialize (Hdiffer (mkDragEvent l t) (mkDragEvent l' t')).
    unfold splitterDragMove_ in Hdiffer. cbn [orientation_ log left] in Hdiffer.
    rewrite Ho in Hdiffer. apply Hdiffer; try done.
    apply looseEquals_num. lia.
Qed.

(** ** The control on an example *)

Definition control : ResizableControl :=
  setSplitterLimits (Some (num 100)) (Some (num 0))
    (newResizableControl HORIZONTAL "auto").

Example control_grows_past_zero_maximum :
  getSplitterSize (setSplitterSize (num 20000) control) = num 10000.
Proof. reflexivity. Qed.

Example control_drag :
  let c := splitterDragEnd_ (mkDragEvent 0 300)
             (dragMoves [mkDragEvent 0 200; mkDragEvent 0 300]
                (splitterDragStart_ (mkDragEvent 0 0) control)) in
  getSplitterSize c = num 304 /\ bodyCursor c = "auto"%string /\
  emitted (journal c) = 2%nat.
Proof. vm_compute. done. Qed.

Lemma setSplitterSize_within_limits_witness :
  lessThan (upperLimit control)
    (getSplitterSize (setSplitterSize (num 20000) control)) = false.
Proof.
  refine (proj1 (setSplitterSize_within_limits (num 20000) control _)).
  discriminate.
Defined.

Lemma setSplitterSize_twice_witness :
  setSplitterSize (num 50) (setSplitterSize (num 50) control)
  = setSplitterSize (num 50) control.
Proof. apply (setSplitterSize_twice (num 50) control). discriminate. Defined.

Lemma falsy_limit_is_no_limit_witness :
  getSplitterSize (setSplitterSize (num 20000) control)
  = getSplitterSize
      (setSplitterSize (num 20000)
         (setSplitterLimits (Some (num 100)) None
            (newResizableControl HORIZONTAL "auto"))).
Proof.
  refine (proj1 (proj1 (falsy_limit_is_no_limit (num 0) (Some (num 100))
                          (num 20000)
                          (newResizableControl HORIZONTAL "auto") _))).
  reflexivity.
Defined.

Lemma dragEnd_without_start_clears_cursor_witness :
  bodyCursor (splitterDragEnd_ (mkDragEvent 0 300)
                (dragMoves [mkDragEvent 0 200] control)) = EmptyString.
Proof.
  apply (dragEnd_without_start_clears_cursor [mkDragEvent 0 200]
           (mkDragEvent 0 300) control).
  reflexivity.
Defined.

End ResizableControl.
